(** * Tree construction and three-ring bubble placement

    A shallow embedding of the two pure routines of
    [src/components/FinanceSigmaGraph.tsx]:

    - [nestFlatToTree] (the spec's TreeBuilder [build]), which indexes flat
      records by name in a JavaScript [Map] and then links every node to its
      parent or to the synthetic root;
    - [computeBubblePackingLayout] (the spec's RadialPacker [pack]), which
      places a focus bubble, a ring of child bubbles and, per child, an
      outward arc of grandchild bubbles.

    Around them the file embeds the code that uses them: the searches
    [findNodeByName] and [findParentName], the breadcrumb and the click
    handlers of the component [NewBubbleHierarchy] with its focus state, the
    size of the layout the component asks for, the node loop, the edge loop and
    the node size of [buildGraphFromDataset], and [cloneDepthLimited] and
    [assignDepthValues] of [src/components/CircularPackingHierarchy.tsx].

    Conventions of the embedding.
    - A record's [level] is an integer ([Z]); the optional [value] weight is a
      rational.  Optional properties are [option]s.
    - The [Map] is an association list in insertion order; [set] on a key
      that is already present replaces the value and keeps the position.
    - Node objects are mutable and shared: the children array of a node holds
      references to other node objects.  During the linking loop every live
      node object sits under exactly one key of the [Map], so a reference is
      modelled by that key and the [Map] doubles as the store.
    - A string is a sequence of character codes below 256 and strings are
      ordered code by code, which on such strings is the order JavaScript's
      [<] gives.
    - The numbers of the layout routine are idealised as real numbers
      (rounding, NaN and overflow are not modelled).  The one literal
      [Infinity] of the source is a constructor of its own. *)

From Stdlib Require Import List String ZArith QArith Bool Arith Lia Permutation.
From Stdlib Require Import Reals Lra.
From Stdlib Require Import Ascii DecimalString DecimalNat.
Import ListNotations.
Close Scope Q_scope.

Set Warnings "-register-all".

(** ** Data model *)

(** [FlatItem]: one record of the flat input. *)
Record FlatItem := mkFlatItem {
  name : string;
  level : Z;
  parent : option string;
  source : option string;
  value : option Q
}.

(** [TreeNode]: every property but [name] is optional. *)
Inductive TreeNode := mkTreeNode {
  t_name : string;
  t_level : option Z;
  t_parent : option string;
  t_source : option string;
  t_value : option Q;
  t_children : option (list TreeNode)
}.

(** [n.children || []] *)
Definition childrenOf (n : TreeNode) : list TreeNode :=
  match t_children n with
  | Some cs => cs
  | None => []
  end.

(** Truthiness of an optional string: [undefined] and the empty string are
    falsy. *)
Definition truthy (s : option string) : bool :=
  match s with
  | Some EmptyString => false
  | Some _ => true
  | None => false
  end.

(** ** The insertion-ordered [Map] *)

Section JsMap.
Variable V : Type.

Definition JsMap := list (string * V).

Fixpoint map_get (k : string) (m : JsMap) : option V :=
  match m with
  | [] => None
  | (k', v) :: rest => if String.eqb k' k then Some v else map_get k rest
  end.

Fixpoint map_set (k : string) (v : V) (m : JsMap) : JsMap :=
  match m with
  | [] => [(k, v)]
  | (k', v') :: rest =>
      if String.eqb k' k then (k', v) :: rest
      else (k', v') :: map_set k v rest
  end.

Definition map_has (k : string) (m : JsMap) : bool :=
  match map_get k m with
  | Some _ => true
  | None => false
  end.

Definition map_keys (m : JsMap) : list string := map fst m.
End JsMap.
Arguments map_get {V} k m.
Arguments map_set {V} k v m.
Arguments map_has {V} k m.
Arguments map_keys {V} m.

(** [mapM] in the option monad: the first [None] aborts the traversal, as a
    thrown exception aborts a loop. *)
Fixpoint mapM {A B : Type} (f : A -> option B) (l : list A) : option (list B) :=
  match l with
  | [] => Some []
  | a :: rest =>
      match f a with
      | None => None
      | Some b =>
          match mapM f rest with
          | None => None
          | Some bs => Some (b :: bs)
          end
      end
  end.

(** ** TreeBuilder: [nestFlatToTree] *)

Module TreeBuilder.

(** The [Error] thrown by the level check, with the two values its message
    interpolates. *)
Inductive Error :=
| LevelOutOfRange (who : string) (got : Z).

Inductive Result (A : Type) :=
| Ok (a : A)
| Throw (e : Error).
Arguments Ok {A} a.
Arguments Throw {A} e.

(** A node object [{ ...it, children: [...] }]; the children are references
    (keys of the [Map]). *)
Record Obj := mkObj {
  item : FlatItem;
  children : list string
}.

Definition Store := JsMap Obj.

(** First loop: validate the level, then [byName.set(it.name, {...it, children: []})]. *)
Fixpoint indexItems (items : list FlatItem) (byName : Store) : Result Store :=
  match items with
  | [] => Ok byName
  | it :: rest =>
      if ((level it <? 1) || (level it >? 6))%Z
      then Throw (LevelOutOfRange (name it) (level it))
      else indexItems rest (map_set (name it) (mkObj it []) byName)
  end.

(** [p.children.push(node)] on the object stored under [p]. *)
Fixpoint pushChild (p : string) (k : string) (h : Store) : Store :=
  match h with
  | [] => []
  | (k', o) :: rest =>
      if String.eqb k' p then (k', mkObj (item o) (children o ++ [k])) :: rest
      else (k', o) :: pushChild p k rest
  end.

(** The object graph under construction: the store and the [roots] array. *)
Record Graph := mkGraph {
  heap : Store;
  roots : list string
}.

(** [node.parent ? byName.get(node.parent) : undefined], as the key of the
    object found. *)
Definition resolveParent (h : Store) (node : Obj) : option string :=
  if truthy (parent (item node))
  then match parent (item node) with
       | Some pn => if map_has pn h then Some pn else None
       | None => None
       end
  else None.

(** Body of the second loop for the node stored under [k]. *)
Definition linkNode (g : Graph) (e : string * Obj) : Graph :=
  let (k, node) := e in
  if (level (item node) =? 1)%Z then mkGraph (heap g) (roots g ++ [k])
  else
    match resolveParent (heap g) node with
    | Some pn => mkGraph (pushChild pn k (heap g)) (roots g)
    | None => mkGraph (heap g) (roots g ++ [k])
    end.

(** Second loop: [for (const node of byName.values())].  The loop changes
    children arrays only, so the entries it visits are those of the [Map] as
    the first loop left it. *)
Definition linkAll (byName : Store) : Graph :=
  fold_left linkNode byName (mkGraph byName []).

(** [nestFlatToTree]: the returned object [{ name: "root", children: roots }]
    is the graph seen from [roots]. *)
Definition nestFlatToTree (items : list FlatItem) : Result Graph :=
  match indexItems items [] with
  | Throw e => Throw e
  | Ok byName => Ok (linkAll byName)
  end.

(** *** Reading the returned object as a finite tree *)

(** The node object as a [TreeNode] value. *)
Definition nodeOf (it : FlatItem) (cs : list TreeNode) : TreeNode :=
  mkTreeNode (name it) (Some (level it)) (parent it) (source it) (value it)
             (Some cs).

(** Unfolding of the object stored under [k], at most [fuel] nodes deep;
    [None] when the graph below [k] is deeper than that (a cyclic graph is
    deeper than any [fuel]). *)
Fixpoint reify (fuel : nat) (h : Store) (k : string) : option TreeNode :=
  match fuel with
  | O => None
  | S f =>
      match map_get k h with
      | None => None
      | Some o =>
          match mapM (reify f h) (children o) with
          | None => None
          | Some cs => Some (nodeOf (item o) cs)
          end
      end
  end.

(** The returned root [{ name: "root", children: roots }]. *)
Definition treeOf (fuel : nat) (g : Graph) : option TreeNode :=
  match mapM (reify fuel (heap g)) (roots g) with
  | None => None
  | Some cs => Some (mkTreeNode "root" None None None None (Some cs))
  end.

(** All nodes strictly below a node, in preorder. *)
Fixpoint descendants (t : TreeNode) : list TreeNode :=
  match t_children t with
  | Some cs =>
      (fix go (l : list TreeNode) : list TreeNode :=
         match l with
         | [] => []
         | c :: rest => c :: descendants c ++ go rest
         end) cs
  | None => []
  end.

(** The record a node was made from; the synthetic root has no level and
    comes from no record. *)
Definition asItem (n : TreeNode) : option FlatItem :=
  match t_level n with
  | Some l => Some (mkFlatItem (t_name n) l (t_parent n) (t_source n) (t_value n))
  | None => None
  end.

(** *** Notions used to state the properties of [nestFlatToTree] *)

(** The level check of the first loop. *)
Definition levelOk (it : FlatItem) : Prop := (1 <= level it <= 6)%Z.

(** The store the first loop leaves when no level is out of range. *)
Definition indexed (items : list FlatItem) (byName : Store) : Store :=
  fold_left (fun m it => map_set (name it) (mkObj it []) m) items byName.

(** Every entry is a fresh object made from an input record and filed under
    that record's name. *)
Definition freshEntry (items : list FlatItem) (e : string * Obj) : Prop :=
  name (item (snd e)) = fst e /\ children (snd e) = [] /\ In (item (snd e)) items.

(** Where the second loop puts a node: under the object of key [p]
    ([Some p]) or in [roots] ([None]).  [es] is the store the first loop
    left; the second loop never changes its keys. *)
Definition attachTo (es : Store) (o : Obj) : option string :=
  if (level (item o) =? 1)%Z then None else resolveParent es o.

Definition underKey (es : Store) (k : string) (e : string * Obj) : bool :=
  match attachTo es (snd e) with
  | Some p => String.eqb p k
  | None => false
  end.

Definition underRoot (es : Store) (e : string * Obj) : bool :=
  match attachTo es (snd e) with
  | Some _ => false
  | None => true
  end.

(** The keys that the entries [l] push under [k], and into [roots]. *)
Definition kidsIn (es l : Store) (k : string) : list string :=
  map fst (filter (underKey es k) l).

Definition rootsIn (es l : Store) : list string :=
  map fst (filter (underRoot es) l).

Definition withKids (es l : Store) (e : string * Obj) : string * Obj :=
  (fst e, mkObj (item (snd e)) (children (snd e) ++ kidsIn es l (fst e))).

(** The key a node hangs under, by key. *)
Definition parentKey (es : Store) (k : string) : option string :=
  match map_get k es with
  | Some o => attachTo es o
  | None => None
  end.

(** [reach es F j k]: the [j]-th ancestor of [k] is a member of [F]. *)
Fixpoint reach (es : Store) (F : list string) (j : nat) (k : string) : bool :=
  match j with
  | O => existsb (String.eqb k) F
  | S j' =>
      match parentKey es k with
      | Some p => reach es F j' p
      | None => false
      end
  end.

(** The keys [n] links below the forest [F], and all keys fewer than [f]
    links below it. *)
Fixpoint lev (es : Store) (n : nat) (F : list string) : list string :=
  match n with
  | O => F
  | S n' => lev es n' (flat_map (kidsIn es es) F)
  end.

Fixpoint upto (es : Store) (f : nat) (F : list string) : list string :=
  match f with
  | O => []
  | S f' => F ++ upto es f' (flat_map (kidsIn es es) F)
  end.

Definition forestNodes (ts : list TreeNode) : list TreeNode :=
  flat_map (fun t => t :: descendants t) ts.

Definition keyItem (es : Store) (k : string) : option FlatItem :=
  option_map item (map_get k es).

(** The root object read with as much fuel as the store has objects. *)
Definition rootOf (g : Graph) : option TreeNode := treeOf (List.length (heap g)) g.

(** Acyclic parent links: a ranking of the names that decreases from every
    record of level other than 1 to the record its (non-empty) parent
    names. *)
Definition ranked (items : list FlatItem) (rank : string -> nat) : Prop :=
  forall it p,
    In it items -> level it <> 1%Z -> parent it = Some p -> p <> ""%string ->
    In p (map name items) -> rank p < rank (name it).

(** Records used as concrete inputs. *)
Definition rec (n : string) (l : Z) (p : option string) : FlatItem :=
  mkFlatItem n l p None None.

Definition cyclicPair : list FlatItem :=
  [rec "A" 2 (Some "B"%string); rec "B" 2 (Some "A"%string)].

Definition cyclicDuplicate : list FlatItem :=
  [rec "A" 2 (Some "B"%string); rec "B" 2 (Some "A"%string);
   rec "A" 2 (Some "B"%string)].

Definition kusama : list FlatItem :=
  [rec "Kusama" 1 None; rec "Bio" 2 (Some "Kusama"%string);
   rec "Art" 2 (Some "Kusama"%string); rec "Style" 3 (Some "Art"%string)].

Definition orphanExample : list FlatItem := [rec "A" 2 (Some "Missing"%string)].

Definition duplicatePair : list FlatItem := [rec "A" 1 None; rec "A" 1 None].

Definition overwrittenOrphan : list FlatItem :=
  [rec "A" 2 (Some "Missing"%string); rec "A" 2 (Some "B"%string); rec "B" 1 None].

Definition outOfRangeDuplicate : list FlatItem := [rec "A" 9 None; rec "A" 9 None].

Definition rootDuplicate : list FlatItem := [rec "root" 1 None; rec "root" 1 None].

Definition clashingRecords : list FlatItem :=
  [rec "F" 1 None; rec "A" 2 (Some "F"%string); rec "A::X" 2 (Some "F"%string);
   rec "X" 3 (Some "A"%string)].

Definition leafNode (n : string) (l : Z) (p : option string) : TreeNode :=
  mkTreeNode n (Some l) p None None (Some []).

(** A ranking read off the levels: the level of the first record of the
    name. *)
Definition levelRank (items : list FlatItem) (s : string) : nat :=
  match find (fun it => String.eqb (name it) s) items with
  | Some it => Z.to_nat (level it)
  | None => 0
  end.

End TreeBuilder.

(** ** RadialPacker: [computeBubblePackingLayout] *)

Module RadialPacker.
Local Open Scope R_scope.

(** [PlacedBubble]; [depth] is 0 for the focus, 1 for a child, 2 for a
    grandchild. *)
Record PlacedBubble := mkPlaced {
  id : string;
  name : string;
  depth : nat;
  data : TreeNode;
  r : R;
  x : R;
  y : R;
  parentId : option string
}.

(** [ChildPlaced = PlacedBubble & { angle: number }] *)
Record ChildPlaced := mkChildPlaced {
  bubble : PlacedBubble;
  angle : R
}.

(** An element of [childInfo]: [{ node, r, gc }]. *)
Record ChildInfo := mkChildInfo {
  ci_node : TreeNode;
  ci_r : R;
  ci_gc : nat
}.

(** The value of [neighborRingCap]: the literal [Infinity] or a number. *)
Inductive Cap :=
| Infinity
| Finite (v : R).

(** What the function returns: [{ nodes, side }]. *)
Record Layout := mkLayout {
  nodes : list PlacedBubble;
  l_side : R
}.

Definition clamp (v min max : R) : R := Rmax min (Rmin max v).

(** [Math.hypot] *)
Definition hypot (a b : R) : R := sqrt (a * a + b * b).

(** [v || 0] on a number: 0 is the only falsy real. *)
Definition orZero (v : R) : R := if Req_dec_T v 0 then 0 else v.

Definition Rltb (a b : R) : bool := if Rlt_dec a b then true else false.

(** [Array.prototype.findIndex]: -1 when no element passes. *)
Fixpoint findIndex {A : Type} (p : A -> bool) (l : list A) : Z :=
  match l with
  | [] => (-1)%Z
  | a :: rest =>
      if p a then 0%Z
      else let i := findIndex p rest in
           if (i <? 0)%Z then (-1)%Z else (i + 1)%Z
  end.

(** [l[i]]: [None] stands for [undefined]. *)
Definition at_ {A : Type} (l : list A) (i : Z) : option A :=
  if (i <? 0)%Z then None else nth_error l (Z.to_nat i).

Section Layout.
Variable focus : TreeNode.
Variable side : R.

Definition cx : R := side / 2.
Definition cy : R := side / 2.

Definition children : list TreeNode := childrenOf focus.
Definition rParent : R := clamp (side * 0.16) 40 120.

(** ---- children on a ring around the parent ---- *)
Definition childInfo : list ChildInfo :=
  map (fun c =>
         let gc := List.length (childrenOf c) in
         let r := clamp (side * 0.06 + INR gc * (side * 0.005))
                        (side * 0.05) (side * 0.12) in
         mkChildInfo c r gc)
      children.

Definition gapC : R := clamp (side * 0.008) 6 16.

Definition circumferenceNeeded : R :=
  fold_left (fun acc it => acc + (2 * ci_r it + gapC)) childInfo 0.

Definition baseRing : R :=
  rParent + orZero (fold_left (fun m it => Rmax m (ci_r it)) childInfo 0) + 28.

Definition ringR : R := Rmax baseRing (circumferenceNeeded / (2 * PI)).
Definition ringCirc : R := 2 * PI * ringR.

(** The [map] over [childInfo] that advances the variable [theta]. *)
Fixpoint placeChildren (theta : R) (l : list ChildInfo) : list ChildPlaced :=
  match l with
  | [] => []
  | it :: rest =>
      let arcLen := 2 * ci_r it + gapC in
      let delta := (arcLen / ringCirc) * 2 * PI in
      let mid := theta + delta / 2 in
      let x := cx + ringR * cos mid in
      let y := cy + ringR * sin mid in
      mkChildPlaced
        (mkPlaced (t_name (ci_node it)) (t_name (ci_node it)) 1 (ci_node it)
                  (ci_r it) x y (Some (t_name focus)))
        mid
      :: placeChildren (theta + delta) rest
  end.

Definition placedChildren : list ChildPlaced := placeChildren 0 childInfo.

(** ---- grandchildren on an outward arc around each child ---- *)
Definition gapG : R := clamp (side * 0.006) 4 12.
Definition minGrandR : R := clamp (side * 0.042) 13 32.
Definition arcSpan : R := (150 * PI) / 180.
Definition safety : R := 6.

Definition childCount : nat := List.length placedChildren.

(** [None]: a property of [undefined] was read (a [TypeError]). *)
Definition neighborRingCap (ch : ChildPlaced) (rG : R) : option Cap :=
  if (childCount <=? 1)%nat then Some Infinity
  else
    let idx := findIndex (fun p => String.eqb (id (bubble p)) (id (bubble ch)))
                         placedChildren in
    let prev := at_ placedChildren
                    (Z.rem (idx - 1 + Z.of_nat childCount) (Z.of_nat childCount)) in
    let next := at_ placedChildren
                    (Z.rem (idx + 1) (Z.of_nat childCount)) in
    match prev, next with
    | Some prev, Some next =>
        let distPrev := hypot (x (bubble ch) - x (bubble prev))
                              (y (bubble ch) - y (bubble prev)) in
        let distNext := hypot (x (bubble ch) - x (bubble next))
                              (y (bubble ch) - y (bubble next)) in
        let capPrev := distPrev - r (bubble prev) - rG - safety in
        let capNext := distNext - r (bubble next) - rG - safety in
        Some (Finite (Rmax 0 (Rmin capPrev capNext)))
    | _, _ => None
    end.

(** [Math.max(needed / arcSpan, ch.r + rG + safety)], computed for the
    first candidate radius and again after a shrink. *)
Definition ringGminFor (ch : ChildPlaced) (N : nat) (rG : R) : R :=
  Rmax (INR N * (2 * rG + gapG) / arcSpan) (r (bubble ch) + rG + safety).

(** The grandchild radius [rG] and the ring radius [ringG] for the child
    [ch] with [N] grandchildren. *)
Definition grandRing (ch : ChildPlaced) (N : nat) : option (R * R) :=
  let rG := minGrandR in
  let ringGmin := ringGminFor ch N rG in
  match neighborRingCap ch rG with
  | None => None
  | Some ringGmax =>
      let shrunk :=
        match ringGmax with
        | Finite m =>
            (* ringGmax < ringGmin && isFinite(ringGmax) && ringGmax > 0 *)
            if Rltb m ringGmin && Rltb 0 m then
              let ratio := clamp (m / ringGmin) 0.65 1 in
              let rG' := Rmax 6 (rG * ratio) in
              match neighborRingCap ch rG' with
              | None => None
              | Some ringGmax' => Some (rG', ringGminFor ch N rG', ringGmax')
              end
            else Some (rG, ringGmin, ringGmax)
        | Infinity => Some (rG, ringGmin, ringGmax) (* isFinite fails *)
        end in
      match shrunk with
      | None => None
      | Some (rG, ringGmin, ringGmax) =>
          let ringG := Rmax ringGmin 0 in
          let ringG := match ringGmax with
                       | Finite m => Rmin ringG (Rmax m ringGmin)
                       | Infinity => ringG
                       end in
          Some (rG, ringG)
      end
  end.

(** The inner loop [for (let i = 0; i < N; i++)], from index [i] on. *)
Fixpoint arcBubbles (ch : ChildPlaced) (rG ringG thetaStart stepTheta : R)
         (i : nat) (gcNodes : list TreeNode) : list PlacedBubble :=
  match gcNodes with
  | [] => []
  | g :: rest =>
      let theta := thetaStart + INR i * stepTheta in
      let gx := x (bubble ch) + ringG * cos theta in
      let gy := y (bubble ch) + ringG * sin theta in
      mkPlaced (id (bubble ch) ++ "::" ++ t_name g) (t_name g) 2 g rG gx gy
               (Some (id (bubble ch)))
      :: arcBubbles ch rG ringG thetaStart stepTheta (S i) rest
  end.

(** Body of [for (const ch of placedChildren)]: the bubbles pushed for
    [ch]. *)
Definition placeGrandchildren (ch : ChildPlaced) : option (list PlacedBubble) :=
  let gcNodes := childrenOf (data (bubble ch)) in
  let N := List.length gcNodes in
  match N with
  | O => Some []
  | S _ =>
      match grandRing ch N with
      | None => None
      | Some (rG, ringG) =>
          let stepTheta := (2 * rG + gapG) / ringG in
          let totalTheta := (INR N - 1) * stepTheta in
          let thetaStart := angle ch - totalTheta / 2 in
          Some (arcBubbles ch rG ringG thetaStart stepTheta 0 gcNodes)
      end
  end.

Definition placedGrandchildren : option (list PlacedBubble) :=
  option_map (@List.concat PlacedBubble) (mapM placeGrandchildren placedChildren).

Definition parentPlaced : PlacedBubble :=
  mkPlaced (t_name focus) (t_name focus) 0 focus rParent cx cy None.

Definition computeBubblePackingLayout : option Layout :=
  match placedGrandchildren with
  | None => None
  | Some gs => Some (mkLayout (parentPlaced :: map bubble placedChildren ++ gs) side)
  end.
End Layout.

(** *** Notions used to state the properties of the layout *)

(** What every bubble of the block pushed for [ch] has in common. *)
Definition blockOf (ch : ChildPlaced) (block : list PlacedBubble) : Prop :=
  exists rG,
    Forall2 (fun g b =>
               id b = (id (bubble ch) ++ "::" ++ t_name g)%string /\
               name b = t_name g /\ depth b = 2%nat /\ data b = g /\
               r b = rG /\ parentId b = Some (id (bubble ch)))
            (childrenOf (data (bubble ch))) block.

(** The number of bubbles of depth [d]. *)
Definition countDepth (d : nat) (bs : list PlacedBubble) : nat :=
  List.length (filter (fun b => Nat.eqb (depth b) d) bs).

(** The number of grandchildren of the focus. *)
Definition grandchildCount (focus : TreeNode) : nat :=
  list_sum (map (fun c => List.length (childrenOf c)) (childrenOf focus)).

(** The node Kusama of the tree built from [kusama]. *)
Definition kusamaFocus : TreeNode :=
  TreeBuilder.nodeOf (TreeBuilder.rec "Kusama" 1 None)
    [TreeBuilder.nodeOf (TreeBuilder.rec "Bio" 2 (Some "Kusama"%string)) [];
     TreeBuilder.nodeOf (TreeBuilder.rec "Art" 2 (Some "Kusama"%string))
       [TreeBuilder.nodeOf (TreeBuilder.rec "Style" 3 (Some "Art"%string)) []]].

(** A focus whose four node names are pairwise distinct: F with the children
    A (which has the child X) and "A::X"; it is the node F of the tree built
    from [clashingRecords]. *)
Definition clashingFocus : TreeNode :=
  TreeBuilder.nodeOf (TreeBuilder.rec "F" 1 None)
    [TreeBuilder.nodeOf (TreeBuilder.rec "A" 2 (Some "F"%string))
       [TreeBuilder.nodeOf (TreeBuilder.rec "X" 3 (Some "A"%string)) []];
     TreeBuilder.nodeOf (TreeBuilder.rec "A::X" 2 (Some "F"%string)) []].

(** A node with a name and children only. *)
Definition plainNode (n : string) (cs : list TreeNode) : TreeNode :=
  mkTreeNode n None None None None (Some cs).

(** The point [(gx, gy)] lies strictly between [(px, py)] and [(qx, qy)]. *)
Definition strictlyBetween (px py qx qy gx gy : R) : Prop :=
  exists t, 0 < t < 1 /\ gx = px + t * (qx - px) /\ gy = py + t * (qy - py).

(** A focus with two children of twelve children each. *)
Definition crowdedFocus : TreeNode :=
  plainNode "F"
    [plainNode "A"
       (map (fun n => plainNode n [])
            ["A1"; "A2"; "A3"; "A4"; "A5"; "A6";
             "A7"; "A8"; "A9"; "A10"; "A11"; "A12"]%string);
     plainNode "B"
       (map (fun n => plainNode n [])
            ["B1"; "B2"; "B3"; "B4"; "B5"; "B6";
             "B7"; "B8"; "B9"; "B10"; "B11"; "B12"]%string)].

(** The arc length a child takes on the ring: [2 * r + gapC]. *)
Definition arcOf (side : R) (ch : ChildPlaced) : R :=
  2 * r (bubble ch) + gapC side.

(** The arc length all of [l] take: the value of [circumferenceNeeded]. *)
Definition sumArc (side : R) (l : list ChildInfo) : R :=
  fold_right (fun it acc => 2 * ci_r it + gapC side + acc) 0 l.

End RadialPacker.

(** ** Navigation: searching the tree and the focus state of the component *)

Module Navigation.
Import TreeBuilder.

(** The loop [for (const c of ...) { const found = f(c); if (found) return found; }]
    followed by [return null], for a result that is an object or [null]. *)
Fixpoint firstFound {A B : Type} (f : A -> option B) (l : list A) : option B :=
  match l with
  | [] => None
  | c :: rest =>
      match f c with
      | Some found => Some found
      | None => firstFound f rest
      end
  end.

(** The same loop for a result that is a string or [null]: the empty string
    is falsy and does not end the loop. *)
Fixpoint firstTruthy {A : Type} (f : A -> option string) (l : list A) : option string :=
  match l with
  | [] => None
  | c :: rest =>
      let r := f c in
      if truthy r then r else firstTruthy f rest
  end.

(** [findNodeByName] *)
Fixpoint findNodeByName (root : TreeNode) (nm : string) : option TreeNode :=
  if String.eqb (t_name root) nm then Some root
  else
    match t_children root with
    | None => None
    | Some cs => firstFound (fun c => findNodeByName c nm) cs
    end.

(** The inner [dfs] of [findParentName]; [parent?.name ?? null] is
    [option_map t_name parent]. *)
Fixpoint dfs (targetName : string) (cur : TreeNode) (parent : option TreeNode) : option string :=
  if String.eqb (t_name cur) targetName then option_map t_name parent
  else
    match t_children cur with
    | Some cs => firstTruthy (fun c => dfs targetName c (Some cur)) cs
    | None => None
    end.

(** [findParentName] *)
Definition findParentName (root : TreeNode) (targetName : string) : option string :=
  dfs targetName root None.

(** The breadcrumb of the main view.  [found] and [path] are the two
    variables the inner [dfs] closes over. *)
Record Crumb := mkCrumb {
  found : bool;
  path : list string
}.

(** [for (const c of ...) { if (found) return; f(c); }] *)
Fixpoint untilFound {A : Type} (f : A -> Crumb -> Crumb) (l : list A) (st : Crumb) : Crumb :=
  match l with
  | [] => st
  | c :: rest => if found st then st else untilFound f rest (f c st)
  end.

Fixpoint crumbDfs (focusName : string) (n : TreeNode) (trail : list string) (st : Crumb) : Crumb :=
  if String.eqb (t_name n) focusName
  then mkCrumb true (path st ++ trail ++ [t_name n])
  else
    match t_children n with
    | Some cs => untilFound (fun c => crumbDfs focusName c (trail ++ [t_name n])) cs st
    | None => st
    end.

Definition breadcrumb (tree : TreeNode) (focusName : string) : list string :=
  filter (fun x => negb (String.eqb x "root"))
         (path (crumbDfs focusName tree [] (mkCrumb false []))).

(** The state of the component [NewBubbleHierarchy]. *)
Record UiState := mkUi {
  focusName : string;
  isOverlayOpen : bool;
  overlayFocusName : option string
}.

Definition initialState : UiState := mkUi "root" false None.

(** [findNodeByName(tree, focusName) ?? tree] *)
Definition focusNode (tree : TreeNode) (st : UiState) : TreeNode :=
  match findNodeByName tree (focusName st) with
  | Some n => n
  | None => tree
  end.

(** [overlayFocusName ? findNodeByName(tree, overlayFocusName) : null] *)
Definition overlayNode (tree : TreeNode) (st : UiState) : option TreeNode :=
  if truthy (overlayFocusName st)
  then match overlayFocusName st with
       | Some s => findNodeByName tree s
       | None => None
       end
  else None.

(** [n.children && n.children.length > 0] *)
Definition hasChildren (n : TreeNode) : bool :=
  match t_children n with
  | Some (_ :: _) => true
  | _ => false
  end.

(** [canDrillDown], on the [data] of the clicked bubble. *)
Definition canDrillDown (n : TreeNode) : bool := hasChildren n.

Definition handleBubbleClick (n : TreeNode) (st : UiState) : UiState :=
  if canDrillDown n
  then mkUi (focusName st) true (Some (t_name n))
  else st.

Definition overlayDrillDown (tree : TreeNode) (n : RadialPacker.PlacedBubble)
  (st : UiState) : UiState :=
  match findNodeByName tree (RadialPacker.name n) with
  | Some target =>
      if hasChildren target
      then mkUi (focusName st) (isOverlayOpen st) (Some (RadialPacker.name n))
      else st
  | None => st
  end.

Definition overlayDrillUp (tree : TreeNode) (st : UiState) : UiState :=
  if truthy (overlayFocusName st)
  then match overlayFocusName st with
       | Some s =>
           let p := findParentName tree s in
           if truthy p then mkUi (focusName st) (isOverlayOpen st) p
           else mkUi (focusName st) false (overlayFocusName st)
       | None => st
       end
  else st.

(** [setIsOverlayOpen(false)], the backdrop and the Close button. *)
Definition closeOverlay (st : UiState) : UiState :=
  mkUi (focusName st) false (overlayFocusName st).

(** [s || "root"] *)
Definition orRoot (s : option string) : string :=
  match s with
  | Some v => if truthy s then v else "root"
  | None => "root"
  end.

(** The inner [findParent] of [drillUp]. *)
Fixpoint findParent (focus : string) (current : TreeNode) (parent : option TreeNode) : option string :=
  if String.eqb (t_name current) focus
  then Some (orRoot (option_map t_name parent))
  else
    match t_children current with
    | Some cs => firstTruthy (fun c => findParent focus c (Some current)) cs
    | None => None
    end.

Definition drillUp (tree : TreeNode) (st : UiState) : UiState :=
  mkUi (orRoot (findParent (focusName st) tree None))
       (isOverlayOpen st) (overlayFocusName st).

(** The bubbles of the main view are the children of the focus node (the
    nodes of depth 1 of the hierarchy made from it); those of the overlay are
    the bubbles of its layout. *)
Inductive step (tree : TreeNode) : UiState -> UiState -> Prop :=
| step_click st n :
    In n (childrenOf (focusNode tree st)) ->
    step tree st (handleBubbleClick n st)
| step_down st n : step tree st (overlayDrillDown tree n st)
| step_up st : step tree st (overlayDrillUp tree st)
| step_close st : step tree st (closeOverlay st)
| step_main_up st : step tree st (drillUp tree st).

Inductive reachable (tree : TreeNode) : UiState -> Prop :=
| reach_initial : reachable tree initialState
| reach_step st st' : reachable tree st -> step tree st st' -> reachable tree st'.

(** *** Notions used to state the properties of the navigation *)

(** The nodes of a tree in preorder, the root first. *)
Definition subtree (t : TreeNode) : list TreeNode := t :: descendants t.

Definition named (nm : string) (t : TreeNode) : bool := String.eqb (t_name t) nm.

(** Every node of the list but the first is a child of the one before it. *)
Fixpoint chain (l : list TreeNode) : Prop :=
  match l with
  | a :: (b :: _) as rest => In b (childrenOf a) /\ chain rest
  | _ => True
  end.

(** The nodes from [n] down to the first node named [nm], in preorder. *)
Fixpoint trailTo (nm : string) (n : TreeNode) : option (list TreeNode) :=
  if String.eqb (t_name n) nm then Some [n]
  else
    match t_children n with
    | Some cs => option_map (cons n) (firstFound (fun c => trailTo nm c) cs)
    | None => None
    end.

Definition notRoot (x : string) : bool := negb (String.eqb x "root").

(** The two variables of the breadcrumb after a search that ended with the
    nodes [r]. *)
Definition crumbOf (trail : list string) (r : option (list TreeNode)) : Crumb :=
  match r with
  | Some ns => mkCrumb true (trail ++ map t_name ns)
  | None => mkCrumb false []
  end.

(** The state of the overlay: an overlay that is open has a focus name, and
    a truthy focus name is the name of a node that has a child. *)
Definition overlayOk (tree : TreeNode) (st : UiState) : Prop :=
  (isOverlayOpen st = true -> overlayFocusName st <> None) /\
  (truthy (overlayFocusName st) = true ->
   exists nd, overlayNode tree st = Some nd /\ hasChildren nd = true).

(** The tree built from the records [kusama], two of its nodes, and the
    state after a click on the bubble Kusama of the main view. *)
Definition styleNode : TreeNode := nodeOf (rec "Style" 3 (Some "Art"%string)) [].

Definition artNode : TreeNode := nodeOf (rec "Art" 2 (Some "Kusama"%string)) [styleNode].

Definition kusamaTree : TreeNode :=
  mkTreeNode "root" None None None None (Some [RadialPacker.kusamaFocus]).

Definition clicked : UiState := handleBubbleClick RadialPacker.kusamaFocus initialState.

(** The state after pressing the overlay's Up button [k] times. *)
Fixpoint pressUp (tree : TreeNode) (k : nat) (st : UiState) : UiState :=
  match k with
  | O => st
  | S k' => pressUp tree k' (overlayDrillUp tree st)
  end.

(** The number of nodes before the first node named [nm]. *)
Fixpoint before (nm : string) (l : list TreeNode) : nat :=
  match l with
  | [] => 0
  | x :: rest => if named nm x then 0 else S (before nm rest)
  end.

End Navigation.

(** ** Where the second loop hangs a record, read on the records *)

Module Attachment.
Import TreeBuilder.

(** The name of the record a record is pushed under; [None] stands for
    [roots].  This is the test of the second loop with [byName.get] read as
    a search of the input. *)
Definition attachment (items : list FlatItem) (it : FlatItem) : option string :=
  if (level it =? 1)%Z then None
  else if truthy (parent it)
       then match parent it with
            | Some pn =>
                if existsb (fun x => String.eqb (name x) pn) items
                then Some pn else None
            | None => None
            end
       else None.

Definition hangsUnder (items : list FlatItem) (k : option string) (it : FlatItem) : bool :=
  match attachment items it, k with
  | Some p, Some q => String.eqb p q
  | None, None => true
  | _, _ => false
  end.

(** A node of the returned tree: it is made from the object under its name,
    and its children are the nodes of the keys pushed under that name. *)
Definition wired (es : Store) (x : TreeNode) : Prop :=
  exists o,
    map_get (t_name x) es = Some o /\ asItem x = Some (item o) /\
    map t_name (childrenOf x) = kidsIn es es (t_name x).

(** The name an optional record carries. *)
Definition nameOf (r : option FlatItem) : string :=
  match r with
  | Some it => name it
  | None => ""
  end.

(** A record is the last one of its name. *)
Definition lastOfName (items : list FlatItem) (it : FlatItem) : Prop :=
  exists pre post,
    items = pre ++ it :: post /\ ~ In (name it) (map name post).

(** [climbs items j nm]: following the parent links from the record named
    [nm] for [j] steps ends at a record the second loop pushes to [roots]. *)
Fixpoint climbs (items : list FlatItem) (j : nat) (nm : string) : bool :=
  match find (fun it => String.eqb (name it) nm) items with
  | None => false
  | Some it =>
      match attachment items it, j with
      | None, O => true
      | Some p, S j' => climbs items j' p
      | _, _ => false
      end
  end.

(** The record the [Map] holds under [nm] when the first loop is over: the
    last record of that name, since every [byName.set] replaces the entry. *)
Definition survivor (items : list FlatItem) (nm : string) : option FlatItem :=
  find (fun it => String.eqb (name it) nm) (rev items).

(** [ascends items j nm]: following the parent links from the record the
    [Map] holds under [nm], each parent read through the [Map], ends after
    [j] steps at a record the second loop pushes to [roots]. *)
Fixpoint ascends (items : list FlatItem) (j : nat) (nm : string) : bool :=
  match survivor items nm with
  | None => false
  | Some it =>
      match attachment items it, j with
      | None, O => true
      | Some p, S j' => ascends items j' p
      | _, _ => false
      end
  end.

End Attachment.

(** ** The layout the component asks for *)

Module Viewport.
Import RadialPacker Navigation.
Local Open Scope R_scope.

(** [a || b] on numbers: 0 is the only falsy real. *)
Definition orElse (a b : R) : R := if Req_dec_T a 0 then b else a.

Section Sizing.
(** [w], [h]: the observed size of the container; [width], [height]: the
    props of the component. *)
Variables w h width height : R.

Definition vw : R := Rmax 320 (orElse w width).
Definition vh : R := Rmax 360 (orElse h height).

(** [Math.floor(Math.min(vw, vh) * 0.9)] *)
Definition overlaySide : R := IZR (Zfloor (Rmin vw vh * 0.9)).

(** [overlayLayout]: [None] is the [null] returned when there is no overlay
    node; otherwise the result of [computeBubblePackingLayout]. *)
Definition overlayLayout (tree : TreeNode) (st : UiState) : option (option Layout) :=
  match overlayNode tree st with
  | None => None
  | Some n => Some (computeBubblePackingLayout n overlaySide)
  end.
End Sizing.

End Viewport.

(** ** The depth-limited copy of [src/components/CircularPackingHierarchy.tsx] *)

Module DepthLimit.
Import Navigation.

(** [{ ...node }] with [children] set to [cs]. *)
Definition withChildren (node : TreeNode) (cs : list TreeNode) : TreeNode :=
  mkTreeNode (t_name node) (t_level node) (t_parent node) (t_source node)
             (t_value node) (Some cs).

(** [cloneDepthLimited]; [!node.children?.length] is [negb (hasChildren node)]. *)
Fixpoint cloneDepthLimited (node : TreeNode) (maxDepth : Z) : TreeNode :=
  if (maxDepth <=? 0)%Z || negb (hasChildren node)
  then withChildren node []
  else
    match t_children node with
    | Some cs => withChildren node (map (fun c => cloneDepthLimited c (maxDepth - 1)) cs)
    | None => withChildren node []
    end.

Definition weights : list Q := [1000%Q; 300%Q; 80%Q].

(** [assignDepthValues]: the function writes [value] into every node of the
    tree it is given; the tree is returned with the values written.  The
    component calls it on a fresh copy, no node of which is shared. *)
Fixpoint assignDepthValues (node : TreeNode) (depth : nat) : TreeNode :=
  mkTreeNode (t_name node) (t_level node) (t_parent node) (t_source node)
             (nth_error weights (Nat.min depth (List.length weights - 1)))
             (match t_children node with
              | Some cs => Some (map (fun c => assignDepthValues c (S depth)) cs)
              | None => None
              end).

(** [cloneDepthLimited(overlayNode, 2)] followed by [assignDepthValues]. *)
Definition limited (overlayNode : TreeNode) : TreeNode :=
  assignDepthValues (cloneDepthLimited overlayNode 2) 0.

(** The number of links of the longest chain below a node. *)
Fixpoint height (t : TreeNode) : nat :=
  match t_children t with
  | Some cs => fold_right (fun c m => Nat.max (S (height c)) m) 0%nat cs
  | None => 0%nat
  end.

End DepthLimit.

(** ** The edges of the finance graph: [buildGraphFromDataset] *)

Module FinanceGraph.
Local Open Scope string_scope.

(** A call [g.addUndirectedEdgeWithKey(key, a, b, ...)]. *)
Record Edge := mkEdge {
  e_key : string;
  e_source : string;
  e_target : string
}.

(** [a < b ? `${a}|${b}` : `${b}|${a}`]; strings compare by code unit. *)
Definition pairKey (a b : string) : string :=
  if String.ltb a b then a ++ "|" ++ b else b ++ "|" ++ a.

(** [`e:${i}:${u}`] *)
Definition edgeKey (i : nat) (u : string) : string :=
  "e:" ++ NilEmpty.string_of_uint (Nat.to_uint i) ++ ":" ++ u.

(** The variables of the loop over [ds.edges]: the set [seen], the counter
    [i] and the edges added to [g] so far. *)
Record EdgeLoop := mkEdgeLoop {
  seen : list string;
  counter : nat;
  added : list Edge
}.

(** [g.hasNode(k)]: the nodes of [g] are the keys of [ds.nodes]. *)
Definition hasNode (keys : list string) (k : string) : bool :=
  existsb (String.eqb k) keys.

(** Body of [for (const [a, b] of ds.edges)]. *)
Definition addEdge (keys : list string) (st : EdgeLoop) (e : string * string) : EdgeLoop :=
  let (a, b) := e in
  if negb (hasNode keys a) || negb (hasNode keys b) then st
  else
    let u := pairKey a b in
    if existsb (String.eqb u) (seen st) then st
    else mkEdgeLoop (seen st ++ [u]) (S (counter st))
                    (added st ++ [mkEdge (edgeKey (counter st) u) a b]).

Definition buildEdges (keys : list string) (edges : list (string * string)) : list Edge :=
  added (fold_left (addEdge keys) edges (mkEdgeLoop [] 0 [])).

(** [score && score > 0 ? 6 + Math.min(18, Math.log10(score * 1e6 + 10)) : 8];
    [None] is a missing score. *)
Definition nodeSize (score : option R) : R :=
  match score with
  | Some s =>
      if RadialPacker.Rltb 0 s
      then (6 + Rmin 18 (ln (s * 1000000 + 10) / ln 10))%R
      else 8%R
  | None => 8%R
  end.

(** The graph [g = new Graph({ type: "undirected" })]: its node keys and
    its edges, both in the order they were added.  Such a graph holds at
    most one edge between two nodes. *)
Record SimpleGraph := mkSimpleGraph {
  g_nodes : list string;
  g_edges : list Edge
}.

(** [g.addNode(key, ...)] throws when [g] has a node of that key. *)
Definition addNode (g : SimpleGraph) (k : string) : option SimpleGraph :=
  if hasNode (g_nodes g) k then None
  else Some (mkSimpleGraph (g_nodes g ++ [k]) (g_edges g)).

(** An edge of an undirected graph joins [a] and [b], in either
    direction. *)
Definition joins (a b : string) (e : Edge) : bool :=
  (String.eqb (e_source e) a && String.eqb (e_target e) b) ||
  (String.eqb (e_source e) b && String.eqb (e_target e) a).

(** [g.addUndirectedEdgeWithKey(key, a, b, ...)] throws when [a] or [b] is
    not a node of [g], when [g] has an edge of that key, and when an edge of
    [g] joins [a] and [b] already. *)
Definition addUndirectedEdgeWithKey (g : SimpleGraph) (key a b : string)
  : option SimpleGraph :=
  if negb (hasNode (g_nodes g) a) || negb (hasNode (g_nodes g) b) then None
  else if existsb (fun e => String.eqb (e_key e) key) (g_edges g) then None
  else if existsb (joins a b) (g_edges g) then None
  else Some (mkSimpleGraph (g_nodes g) (g_edges g ++ [mkEdge key a b])).

(** [for (const n of ds.nodes) g.addNode(n.key, ...)], over the keys. *)
Fixpoint addNodes (ks : list string) (g : SimpleGraph) : option SimpleGraph :=
  match ks with
  | [] => Some g
  | k :: rest =>
      match addNode g k with
      | Some g' => addNodes rest g'
      | None => None
      end
  end.

(** The variables of the loop over [ds.edges], with the graph itself. *)
Record GraphLoop := mkGraphLoop {
  gl_seen : list string;
  gl_counter : nat;
  gl_graph : SimpleGraph
}.

(** Body of [for (const [a, b] of ds.edges)], a throw of the graph passed
    on. *)
Definition edgeStep (st : GraphLoop) (e : string * string) : option GraphLoop :=
  let (a, b) := e in
  let g := gl_graph st in
  if negb (hasNode (g_nodes g) a) || negb (hasNode (g_nodes g) b) then Some st
  else
    let u := pairKey a b in
    if existsb (String.eqb u) (gl_seen st) then Some st
    else
      match addUndirectedEdgeWithKey g (edgeKey (gl_counter st) u) a b with
      | Some g' => Some (mkGraphLoop (gl_seen st ++ [u]) (S (gl_counter st)) g')
      | None => None
      end.

Fixpoint edgeLoop (edges : list (string * string)) (st : GraphLoop) : option GraphLoop :=
  match edges with
  | [] => Some st
  | e :: rest =>
      match edgeStep st e with
      | Some st' => edgeLoop rest st'
      | None => None
      end
  end.

(** [buildGraphFromDataset(ds)] as far as the nodes and edges of the
    returned graph go: [nodeKeys] are the keys of [ds.nodes] in order,
    [edges] is [ds.edges]; [None] is a throw.  The two layout passes that
    follow give the nodes coordinates and leave nodes and edges alone. *)
Definition buildGraphFromDataset (nodeKeys : list string) (edges : list (string * string))
  : option SimpleGraph :=
  match addNodes nodeKeys (mkSimpleGraph [] []) with
  | None => None
  | Some g =>
      match edgeLoop edges (mkGraphLoop [] 0 g) with
      | Some st => Some (gl_graph st)
      | None => None
      end
  end.

(** The [size] attribute [g.addNode] receives for a dataset node:
    [{ label, kind: tag, cluster, size, color, ...rest }], where [rest]
    holds every property of the node other than key, label, cluster, tag,
    score and color.  [own] is the node's own [size] property when it has
    one, a value of any kind [V]: spread after the computed [size], it
    replaces it. *)
Definition sizeAttr {V : Type} (score : option R) (own : option V) : R + V :=
  match own with
  | Some v => inr v
  | None => inl (nodeSize score)
  end.

(** *** Notions used to state the properties of the edge loop *)

(** Two edges join the same two nodes. *)
Definition sameEnds (a b a' b' : string) : Prop :=
  (a = a' /\ b = b') \/ (a = b' /\ b = a').


(** The keys given to the edges of the pairs [us], counted from [i]. *)
Fixpoint keysFrom (i : nat) (us : list string) : list string :=
  match us with
  | [] => []
  | u :: rest => edgeKey i u :: keysFrom (S i) rest
  end.

Definition pairOf (e : Edge) : string := pairKey (e_source e) (e_target e).

(** The character [:] does not occur in a string. *)
Fixpoint colonFree (s : string) : Prop :=
  match s with
  | EmptyString => True
  | String c rest => c <> ":"%char /\ colonFree rest
  end.

(** What the loop keeps true. *)
Definition loopOk (keys : list string) (st : EdgeLoop) : Prop :=
  seen st = map pairOf (added st) /\
  NoDup (seen st) /\
  counter st = List.length (added st) /\
  map e_key (added st) = keysFrom 0 (seen st) /\
  Forall (fun e => hasNode keys (e_source e) = true /\ hasNode keys (e_target e) = true)
         (added st).


End FinanceGraph.

(** * Properties of [nestFlatToTree] *)

Module TreeBuilderFacts.
Import TreeBuilder.

Lemma indexItems_throws (items : list FlatItem) :
  forall byName,
    (exists it, In it items /\ ~ levelOk it) ->
    exists who got, indexItems items byName = Throw (LevelOutOfRange who got).
Proof.
  induction items as [|it rest IH]; intros byName [bad [Hin Hbad]].
  - destruct Hin.
  - simpl. destruct ((level it <? 1) || (level it >? 6))%Z eqn:E.
    + eauto.
    + apply IH. destruct Hin as [->|Hin]; [|eauto].
      exfalso. apply Hbad. unfold levelOk.
      apply orb_false_iff in E. destruct E as [E1 E2].
      apply Z.ltb_ge in E1. rewrite Z.gtb_ltb in E2. apply Z.ltb_ge in E2. lia.
Qed.

(** With every level in range the first loop is a plain fold of [set]. *)
Lemma indexItems_ok (items : list FlatItem) :
  forall byName,
    Forall levelOk items ->
    indexItems items byName =
    Ok (fold_left (fun m it => map_set (name it) (mkObj it []) m) items byName).
Proof.
  induction items as [|it rest IH]; intros byName Hall; simpl.
  - reflexivity.
  - inversion Hall as [|? ? [H1 H6] Hrest]; subst.
    replace ((level it <? 1) || (level it >? 6))%Z with false.
    + apply IH; assumption.
    + symmetry. apply orb_false_iff. split.
      * apply Z.ltb_ge; lia.
      * rewrite Z.gtb_ltb. apply Z.ltb_ge; lia.
Qed.

(** C4. [nestFlatToTree] throws exactly when some record has a level below 1
    or above 6: it throws the level error for every such input and returns a
    graph for every input whose levels all lie in 1..6. *)
Theorem nestFlatToTree_throws_iff_level_out_of_range (items : list FlatItem) :
  ((exists it, In it items /\ ((level it < 1)%Z \/ (level it > 6)%Z)) <->
   (exists who got, nestFlatToTree items = Throw (LevelOutOfRange who got)))
  /\
  ((forall it, In it items -> (1 <= level it <= 6)%Z) <->
   (exists g, nestFlatToTree items = Ok g)).
Proof.
  assert (Hdec : Forall levelOk items \/ exists it, In it items /\ ~ levelOk it).
  { induction items as [|it rest IH].
    - left; constructor.
    - destruct IH as [IH|[bad [Hin Hbad]]].
      + destruct (Z_le_dec 1 (level it)) as [H1|H1];
          [destruct (Z_le_dec (level it) 6) as [H6|H6]|].
        * left; constructor; [split; assumption|assumption].
        * right; exists it; split; [left; reflexivity|unfold levelOk; lia].
        * right; exists it; split; [left; reflexivity|unfold levelOk; lia].
      + right; exists bad; split; [right; assumption|assumption]. }
  unfold nestFlatToTree.
  destruct Hdec as [Hall|Hbad].
  - rewrite (indexItems_ok items [] Hall). rewrite Forall_forall in Hall. split; split.
    + intros [it [Hin Hout]]. specialize (Hall it Hin). unfold levelOk in Hall. lia.
    + intros [who [got H]]. discriminate H.
    + intros _. eauto.
    + intros _ it Hin. exact (Hall it Hin).
  - destruct (indexItems_throws items [] Hbad) as [who [got Hthrow]]. rewrite Hthrow.
    destruct Hbad as [bad [Hin Hbad]]. split; split.
    + intros _. eauto.
    + intros _. exists bad. split; [assumption|]. unfold levelOk in Hbad. lia.
    + intros Hall. exfalso. apply Hbad. exact (Hall bad Hin).
    + intros [g H]. discriminate H.
Qed.

(** *** The [Map] operations *)

Lemma map_get_In {V : Type} (k : string) (m : JsMap V) (v : V) :
  map_get k m = Some v -> In (k, v) m.
Proof.
  induction m as [|[k' v'] rest IH]; simpl; [discriminate|].
  destruct (String.eqb_spec k' k) as [->|Hne].
  - intros [= ->]. left; reflexivity.
  - intros H. right. apply IH, H.
Qed.

Lemma map_get_not_In {V : Type} (k : string) (m : JsMap V) :
  ~ In k (map fst m) -> map_get k m = None.
Proof.
  induction m as [|[k' v'] rest IH]; simpl; [reflexivity|].
  intros Hnot. destruct (String.eqb_spec k' k) as [->|Hne].
  - exfalso. apply Hnot. left; reflexivity.
  - apply IH. intros Hin. apply Hnot. right; exact Hin.
Qed.

Lemma map_get_NoDup {V : Type} (m : JsMap V) (k : string) (v : V) :
  NoDup (map fst m) -> In (k, v) m -> map_get k m = Some v.
Proof.
  induction m as [|[k' v'] rest IH]; simpl; intros Hnd Hin; [destruct Hin|].
  inversion Hnd as [|? ? Hnotin Hnd']; subst.
  destruct Hin as [[= -> ->]|Hin].
  - rewrite String.eqb_refl. reflexivity.
  - destruct (String.eqb_spec k' k) as [->|Hne].
    + exfalso. apply Hnotin. apply (in_map fst) in Hin. exact Hin.
    + apply IH; assumption.
Qed.

Lemma map_get_Some_key {V : Type} (k : string) (m : JsMap V) (v : V) :
  map_get k m = Some v -> In k (map fst m).
Proof.
  intros H. apply map_get_In in H. apply (in_map fst) in H. exact H.
Qed.

Lemma map_has_In {V : Type} (k : string) (m : JsMap V) :
  map_has k m = true <-> In k (map fst m).
Proof.
  unfold map_has. split.
  - destruct (map_get k m) eqn:E; [|discriminate].
    intros _. eapply map_get_Some_key, E.
  - intros Hin. destruct (map_get k m) eqn:E; [reflexivity|].
    exfalso. revert E Hin. induction m as [|[k' v'] rest IH]; simpl; [tauto|].
    destruct (String.eqb_spec k' k) as [->|Hne]; [discriminate|].
    intros E [Heq|Hin]; [congruence|]. apply IH; assumption.
Qed.

Lemma map_has_same_keys {V W : Type} (k : string) (m : JsMap V) (m' : JsMap W) :
  map fst m = map fst m' -> map_has k m = map_has k m'.
Proof.
  intros Hk. destruct (map_has k m') eqn:E.
  - apply map_has_In. rewrite Hk. apply map_has_In, E.
  - destruct (map_has k m) eqn:E'; [|reflexivity].
    apply map_has_In in E'. rewrite Hk in E'. apply map_has_In in E'. congruence.
Qed.

Lemma map_set_keys {V : Type} (k : string) (v : V) (m : JsMap V) :
  map fst (map_set k v m) =
  if map_has k m then map fst m else map fst m ++ [k].
Proof.
  unfold map_has. induction m as [|[k' v'] rest IH]; simpl; [reflexivity|].
  destruct (String.eqb_spec k' k) as [->|Hne]; simpl; [reflexivity|].
  rewrite IH. destruct (map_get k rest); reflexivity.
Qed.

Lemma map_set_NoDup {V : Type} (k : string) (v : V) (m : JsMap V) :
  NoDup (map fst m) -> NoDup (map fst (map_set k v m)).
Proof.
  intros Hnd. rewrite map_set_keys. destruct (map_has k m) eqn:E; [assumption|].
  apply NoDup_app; [assumption|repeat constructor; intros []| ].
  intros x Hx [<-|[]]. apply map_has_In in Hx. congruence.
Qed.

Lemma map_set_In_key {V : Type} (k k' : string) (v : V) (m : JsMap V) :
  In k' (map fst (map_set k v m)) <-> k' = k \/ In k' (map fst m).
Proof.
  rewrite map_set_keys. destruct (map_has k m) eqn:E.
  - apply map_has_In in E. split; [tauto|]. intros [->|H]; assumption.
  - rewrite in_app_iff. simpl. intuition congruence.
Qed.

Lemma map_get_set_same {V : Type} (k : string) (v : V) (m : JsMap V) :
  map_get k (map_set k v m) = Some v.
Proof.
  induction m as [|[k' v'] rest IH]; simpl.
  - rewrite String.eqb_refl. reflexivity.
  - destruct (String.eqb_spec k' k) as [->|Hne]; simpl.
    + rewrite String.eqb_refl. reflexivity.
    + destruct (String.eqb_spec k' k); [congruence|]. exact IH.
Qed.

Lemma map_get_set_other {V : Type} (k k' : string) (v : V) (m : JsMap V) :
  k' <> k -> map_get k' (map_set k v m) = map_get k' m.
Proof.
  intros Hne. induction m as [|[k0 v0] rest IH]; simpl.
  - destruct (String.eqb_spec k k'); [congruence|reflexivity].
  - destruct (String.eqb_spec k0 k) as [->|Hne0]; simpl.
    + destruct (String.eqb_spec k k'); [congruence|reflexivity].
    + destruct (String.eqb_spec k0 k'); [reflexivity|exact IH].
Qed.

Lemma map_set_In_entry {V : Type} (k : string) (v : V) (m : JsMap V) (e : string * V) :
  In e (map_set k v m) -> e = (k, v) \/ In e m.
Proof.
  induction m as [|[k' v'] rest IH]; simpl.
  - intros [<-|[]]. left; reflexivity.
  - destruct (String.eqb_spec k' k) as [->|Hne]; simpl.
    + intros [<-|H]; [left; reflexivity|right; right; exact H].
    + intros [<-|H]; [right; left; reflexivity|].
      destruct (IH H) as [->|H']; [left; reflexivity|right; right; exact H'].
Qed.

(** *** The first loop *)

Lemma indexed_NoDup (items : list FlatItem) :
  forall byName, NoDup (map fst byName) -> NoDup (map fst (indexed items byName)).
Proof.
  induction items as [|it rest IH]; intros byName Hnd; simpl; [assumption|].
  apply IH, map_set_NoDup, Hnd.
Qed.

Lemma indexed_fresh (all items : list FlatItem) :
  forall byName,
    incl items all ->
    Forall (freshEntry all) byName ->
    Forall (freshEntry all) (indexed items byName).
Proof.
  induction items as [|it rest IH]; intros byName Hincl Hfresh; simpl; [assumption|].
  apply IH.
  - intros x Hx. apply Hincl. right; exact Hx.
  - apply Forall_forall. intros e He.
    destruct (map_set_In_entry _ _ _ _ He) as [->|Hin].
    + repeat split; simpl. apply Hincl. left; reflexivity.
    + rewrite Forall_forall in Hfresh. apply Hfresh, Hin.
Qed.

Lemma indexed_keys (items : list FlatItem) :
  forall byName k,
    In k (map fst (indexed items byName)) <->
    In k (map fst byName) \/ In k (map name items).
Proof.
  induction items as [|it rest IH]; intros byName k; simpl; [tauto|].
  rewrite IH, map_set_In_key. intuition congruence.
Qed.

(** Last write wins: the object under a name is made from the last record
    of that name. *)
Lemma indexed_last (pre post : list FlatItem) (r : FlatItem) :
  forall byName,
    ~ In (name r) (map name post) ->
    map_get (name r) (indexed (pre ++ r :: post) byName) = Some (mkObj r []).
Proof.
  intros byName Hlast. unfold indexed. rewrite fold_left_app. simpl.
  generalize (fold_left (fun m it => map_set (name it) (mkObj it []) m) pre byName).
  intros m.
  assert (H : map_get (name r) (map_set (name r) (mkObj r []) m) = Some (mkObj r []))
    by apply map_get_set_same.
  revert H. generalize (map_set (name r) (mkObj r []) m). clear m.
  induction post as [|it rest IH]; intros m H; simpl; [exact H|].
  apply IH.
  - intros Hin. apply Hlast. right; exact Hin.
  - rewrite map_get_set_other; [exact H|].
    intros Heq. apply Hlast. left. symmetry; exact Heq.
Qed.

(** With pairwise distinct names the store lists the records in input
    order. *)
Lemma indexed_distinct (items : list FlatItem) :
  forall byName,
    NoDup (map name items) ->
    (forall it, In it items -> ~ In (name it) (map fst byName)) ->
    indexed items byName = byName ++ map (fun it => (name it, mkObj it [])) items.
Proof.
  induction items as [|it rest IH]; intros byName Hnd Hfresh; simpl.
  - rewrite app_nil_r. reflexivity.
  - inversion Hnd as [|? ? Hnotin Hnd']; subst.
    assert (Hset : map_set (name it) (mkObj it []) byName = byName ++ [(name it, mkObj it [])]).
    { assert (Hk : ~ In (name it) (map fst byName)) by (apply Hfresh; left; reflexivity).
      clear - Hk. induction byName as [|[k v] m IHm]; simpl; [reflexivity|].
      destruct (String.eqb_spec k (name it)) as [->|Hne].
      - exfalso. apply Hk. left; reflexivity.
      - rewrite IHm; [reflexivity|]. intros H. apply Hk. right; exact H. }
    rewrite Hset, IH.
    + rewrite <- app_assoc. reflexivity.
    + assumption.
    + intros x Hx. rewrite map_app, in_app_iff. simpl.
      intros [H|[H|[]]].
      * apply (Hfresh x); [right; exact Hx|exact H].
      * apply Hnotin. rewrite H. apply in_map, Hx.
Qed.

(** *** The second loop *)

Lemma resolveParent_same_keys (h es : Store) (o : Obj) :
  map fst h = map fst es -> resolveParent h o = resolveParent es o.
Proof.
  intros Hk. unfold resolveParent.
  destruct (truthy (parent (item o))); [|reflexivity].
  destruct (parent (item o)) as [pn|]; [|reflexivity].
  rewrite (map_has_same_keys pn h es Hk). reflexivity.
Qed.

Lemma pushChild_keys (p k : string) (h : Store) :
  map fst (pushChild p k h) = map fst h.
Proof.
  induction h as [|[k' o] rest IH]; simpl; [reflexivity|].
  destruct (String.eqb k' p); simpl; [reflexivity|]. rewrite IH. reflexivity.
Qed.

Lemma kidsIn_cons (es l : Store) (e : string * Obj) (k : string) :
  kidsIn es (e :: l) k =
  if underKey es k e then fst e :: kidsIn es l k else kidsIn es l k.
Proof.
  unfold kidsIn. simpl. destruct (underKey es k e); reflexivity.
Qed.

Lemma pushChild_withKids (es l : Store) (e : string * Obj) (pn : string) (h : Store) :
  NoDup (map fst h) ->
  attachTo es (snd e) = Some pn ->
  map (withKids es l) (pushChild pn (fst e) h) = map (withKids es (e :: l)) h.
Proof.
  intros Hnd Hat.
  assert (Hother : forall k, k <> pn -> kidsIn es (e :: l) k = kidsIn es l k).
  { intros k Hne. rewrite kidsIn_cons. unfold underKey. rewrite Hat.
    destruct (String.eqb_spec pn k); [congruence|reflexivity]. }
  assert (Hsame : kidsIn es (e :: l) pn = fst e :: kidsIn es l pn).
  { rewrite kidsIn_cons. unfold underKey. rewrite Hat, String.eqb_refl. reflexivity. }
  induction h as [|[k' o] rest IH]; simpl; [reflexivity|].
  inversion Hnd as [|? ? Hnotin Hnd']; subst.
  destruct (String.eqb_spec k' pn) as [->|Hne]; simpl.
  - unfold withKids at 1 3. simpl. rewrite Hsame, <- app_assoc. simpl. f_equal.
    apply map_ext_in. intros [k o'] Hin. unfold withKids. simpl.
    rewrite Hother; [reflexivity|].
    intros ->. apply Hnotin. apply (in_map fst) in Hin. exact Hin.
  - unfold withKids at 1 3. simpl. rewrite (Hother k' Hne). f_equal.
    apply IH. exact Hnd'.
Qed.

Lemma link_fold (es : Store) :
  forall pending h rs,
    NoDup (map fst h) ->
    map fst h = map fst es ->
    fold_left linkNode pending (mkGraph h rs) =
    mkGraph (map (withKids es pending) h) (rs ++ rootsIn es pending).
Proof.
  induction pending as [|[k node] rest IH]; intros h rs Hnd Hk.
  - simpl. rewrite app_nil_r. f_equal.
    rewrite <- (map_id h) at 1. apply map_ext.
    intros [k [it cs]]. unfold withKids, kidsIn. simpl. rewrite app_nil_r. reflexivity.
  - cbn [fold_left].
    remember (linkNode (mkGraph h rs) (k, node)) as g1 eqn:Hg1.
    unfold linkNode in Hg1. cbn [heap roots] in Hg1.
    rewrite (resolveParent_same_keys h es node Hk) in Hg1.
    assert (Hroot : attachTo es node = None ->
                    mkGraph (map (withKids es rest) h) ((rs ++ [k]) ++ rootsIn es rest) =
                    mkGraph (map (withKids es ((k, node) :: rest)) h)
                            (rs ++ rootsIn es ((k, node) :: rest))).
    { intros Hat. f_equal.
      - apply map_ext. intros [k' o]. unfold withKids. simpl.
        rewrite kidsIn_cons. unfold underKey. simpl. rewrite Hat. reflexivity.
      - unfold rootsIn. simpl. unfold underRoot at 2. simpl. rewrite Hat.
        simpl. rewrite <- app_assoc. reflexivity. }
    destruct (level (item node) =? 1)%Z eqn:Elev.
    + subst g1. rewrite IH by assumption. apply Hroot.
      unfold attachTo. rewrite Elev. reflexivity.
    + destruct (resolveParent es node) as [pn|] eqn:Eres.
      * assert (Hat : attachTo es node = Some pn)
          by (unfold attachTo; rewrite Elev; exact Eres).
        subst g1. rewrite IH.
        -- f_equal.
           ++ apply (pushChild_withKids es rest (k, node) pn h Hnd Hat).
           ++ unfold rootsIn. simpl. unfold underRoot at 2. simpl. rewrite Hat.
              reflexivity.
        -- rewrite pushChild_keys. exact Hnd.
        -- rewrite pushChild_keys. exact Hk.
      * subst g1. rewrite IH by assumption. apply Hroot.
        unfold attachTo. rewrite Elev. exact Eres.
Qed.

(** The graph the second loop returns: every object has gained the keys of
    the nodes attached to it, in [Map] order, and [roots] lists the others. *)
Lemma linkAll_spec (es : Store) :
  NoDup (map fst es) ->
  linkAll es = mkGraph (map (withKids es es) es) (rootsIn es es).
Proof.
  intros Hnd. unfold linkAll. rewrite (link_fold es es es [] Hnd eq_refl).
  reflexivity.
Qed.

(** *** Depth of a node in the linked graph *)

(** Filtering a store keeps its keys distinct. *)
Lemma filter_keys_NoDup (keep : string * Obj -> bool) (m : Store) :
  NoDup (map_keys m) -> NoDup (map_keys (filter keep m)).
Proof.
  unfold map_keys. induction m as [|e m IH]; simpl; intros Hnd; [constructor|].
  inversion Hnd as [|? ? Hnotin Hnd']; subst.
  destruct (keep e); simpl; [|apply IH, Hnd'].
  constructor; [|apply IH, Hnd'].
  intros Hin. apply Hnotin. apply in_map_iff in Hin. destruct Hin as [e' [He' Hin]].
  apply filter_In in Hin. rewrite <- He'. apply in_map, Hin.
Qed.

Lemma NoDup_flat_map {A B : Type} (g : A -> list B) (F : list A) :
  NoDup F ->
  (forall a, In a F -> NoDup (g a)) ->
  (forall a a' b, In a F -> In a' F -> In b (g a) -> In b (g a') -> a = a') ->
  NoDup (flat_map g F).
Proof.
  induction F as [|a F IH]; simpl; intros Hnd Heach Hdisj; [constructor|].
  inversion Hnd as [|? ? Hnotin Hnd']; subst.
  apply NoDup_app.
  - apply Heach. left; reflexivity.
  - apply IH; [assumption| |].
    + intros x Hx. apply Heach. right; exact Hx.
    + intros x x' b Hx Hx'. apply Hdisj; right; assumption.
  - intros b Hb Hb'. apply in_flat_map in Hb'. destruct Hb' as [a' [Ha' Hb']].
    apply Hnotin.
    assert (Heq : a = a').
    { apply (Hdisj a a' b); [left; reflexivity|right; exact Ha'|exact Hb|exact Hb']. }
    rewrite Heq. exact Ha'.
Qed.

Section Linked.
Variable es : Store.
Hypothesis es_NoDup : NoDup (map fst es).

Local Abbreviation rts := (rootsIn es es).
Local Abbreviation kids := (kidsIn es es).

Lemma parentKey_entry (e : string * Obj) :
  In e es -> parentKey es (fst e) = attachTo es (snd e).
Proof.
  intros Hin. unfold parentKey. destruct e as [k o]. simpl.
  rewrite (map_get_NoDup es k o es_NoDup Hin). reflexivity.
Qed.

Lemma parentKey_Some_key (k p : string) :
  parentKey es k = Some p -> In k (map fst es) /\ In p (map fst es).
Proof.
  unfold parentKey. destruct (map_get k es) as [o|] eqn:E; [|discriminate].
  intros Hat. split; [eapply map_get_Some_key, E|].
  unfold attachTo in Hat. destruct (level (item o) =? 1)%Z; [discriminate|].
  unfold resolveParent in Hat.
  destruct (truthy (parent (item o))); [|discriminate].
  destruct (parent (item o)) as [pn|]; [|discriminate].
  destruct (map_has pn es) eqn:Eh; [|discriminate].
  injection Hat as <-. apply map_has_In, Eh.
Qed.

Lemma In_kids (c k : string) :
  In c (kids k) <-> In c (map fst es) /\ parentKey es c = Some k.
Proof.
  unfold kidsIn. rewrite in_map_iff. split.
  - intros [e [<- Hin]]. apply filter_In in Hin. destruct Hin as [Hin Hu].
    split; [apply in_map, Hin|]. rewrite (parentKey_entry e Hin).
    unfold underKey in Hu. destruct (attachTo es (snd e)) as [p|]; [|discriminate].
    apply String.eqb_eq in Hu. congruence.
  - intros [Hin Hp]. apply in_map_iff in Hin. destruct Hin as [e [<- Hin]].
    exists e. split; [reflexivity|]. apply filter_In. split; [exact Hin|].
    rewrite (parentKey_entry e Hin) in Hp. unfold underKey. rewrite Hp.
    apply String.eqb_refl.
Qed.

Lemma In_roots (c : string) :
  In c rts <-> In c (map fst es) /\ parentKey es c = None.
Proof.
  unfold rootsIn. rewrite in_map_iff. split.
  - intros [e [<- Hin]]. apply filter_In in Hin. destruct Hin as [Hin Hu].
    split; [apply in_map, Hin|]. rewrite (parentKey_entry e Hin).
    unfold underRoot in Hu. destruct (attachTo es (snd e)); [discriminate|reflexivity].
  - intros [Hin Hp]. apply in_map_iff in Hin. destruct Hin as [e [<- Hin]].
    exists e. split; [reflexivity|]. apply filter_In. split; [exact Hin|].
    rewrite (parentKey_entry e Hin) in Hp. unfold underRoot. rewrite Hp. reflexivity.
Qed.

Lemma kids_NoDup (k : string) : NoDup (kids k).
Proof. apply filter_keys_NoDup, es_NoDup. Qed.

Lemma roots_NoDup : NoDup rts.
Proof. apply filter_keys_NoDup, es_NoDup. Qed.

Lemma kids_flat_NoDup (F : list string) :
  NoDup F -> NoDup (flat_map kids F).
Proof.
  intros Hnd. apply NoDup_flat_map; [assumption| |].
  - intros k _. apply kids_NoDup.
  - intros k k' c _ _ Hc Hc'. apply In_kids in Hc, Hc'.
    destruct Hc as [_ Hc]. destruct Hc' as [_ Hc']. congruence.
Qed.

Lemma reach_key (F : list string) (j : nat) (k : string) :
  (forall x, In x F -> In x (map fst es)) ->
  reach es F j k = true -> In k (map fst es).
Proof.
  intros HF. destruct j as [|j]; simpl.
  - intros H. apply existsb_exists in H. destruct H as [x [Hx Heq]].
    apply String.eqb_eq in Heq. subst x. apply HF, Hx.
  - destruct (parentKey es k) as [p|] eqn:E; [|discriminate].
    intros _. apply (parentKey_Some_key k p E).
Qed.

(** A node has one depth below [roots]. *)
Lemma reach_roots_unique (j j' : nat) (k : string) :
  reach es rts j k = true -> reach es rts j' k = true -> j = j'.
Proof.
  revert j' k. induction j as [|j IH]; intros [|j'] k; simpl; intros H H'.
  - reflexivity.
  - apply existsb_exists in H. destruct H as [x [Hx Heq]].
    apply String.eqb_eq in Heq. subst x. apply In_roots in Hx.
    destruct Hx as [_ Hx]. rewrite Hx in H'. discriminate.
  - apply existsb_exists in H'. destruct H' as [x [Hx Heq]].
    apply String.eqb_eq in Heq. subst x. apply In_roots in Hx.
    destruct Hx as [_ Hx]. rewrite Hx in H. discriminate.
  - destruct (parentKey es k) as [p|]; [|discriminate].
    f_equal. apply (IH j' p); assumption.
Qed.

Lemma reach_step (F : list string) (j : nat) (k : string) :
  reach es F (S j) k = reach es (flat_map kids F) j k.
Proof.
  revert k. induction j as [|j IH]; intros k.
  - simpl. destruct (existsb (String.eqb k) (flat_map kids F)) eqn:E.
    + apply existsb_exists in E. destruct E as [x [Hx Heq]].
      apply String.eqb_eq in Heq. subst x. apply in_flat_map in Hx.
      destruct Hx as [p [Hp Hk]]. apply In_kids in Hk. destruct Hk as [_ Hk].
      rewrite Hk. apply existsb_exists. exists p. split; [exact Hp|apply String.eqb_refl].
    + destruct (parentKey es k) as [p|] eqn:Ep; [|reflexivity].
      destruct (existsb (String.eqb p) F) eqn:E'; [|reflexivity].
      apply existsb_exists in E'. destruct E' as [x [Hx Heq]].
      apply String.eqb_eq in Heq. subst x.
      assert (Hin : In k (flat_map kids F)).
      { apply in_flat_map. exists p. split; [exact Hx|]. apply In_kids.
        split; [apply (parentKey_Some_key k p Ep)|exact Ep]. }
      assert (Hex : existsb (String.eqb k) (flat_map kids F) = true).
      { apply existsb_exists. exists k. split; [exact Hin|apply String.eqb_refl]. }
      congruence.
  - change (reach es F (S (S j)) k) with
      (match parentKey es k with Some p => reach es F (S j) p | None => false end).
    change (reach es (flat_map kids F) (S j) k) with
      (match parentKey es k with
       | Some p => reach es (flat_map kids F) j p
       | None => false
       end).
    destruct (parentKey es k) as [p|]; [apply IH|reflexivity].
Qed.

Lemma reach_lift (F : list string) (n j : nat) (k : string) :
  (forall x, In x F -> reach es rts n x = true) ->
  reach es F j k = true -> reach es rts (j + n) k = true.
Proof.
  intros HF. revert k. induction j as [|j IH]; intros k; simpl.
  - intros H. apply existsb_exists in H. destruct H as [x [Hx Heq]].
    apply String.eqb_eq in Heq. subst x. apply HF, Hx.
  - destruct (parentKey es k) as [p|]; [apply IH|discriminate].
Qed.

Lemma upto_spec (f : nat) :
  forall n F,
    NoDup F ->
    (forall x, In x F -> reach es rts n x = true) ->
    NoDup (upto es f F) /\
    (forall k, In k (upto es f F) <-> exists j, j < f /\ reach es F j k = true).
Proof.
  induction f as [|f IH]; intros n F Hnd HF.
  - simpl. split; [constructor|]. intros k. split; [intros []|]. intros [j [Hj _]]. lia.
  - assert (HG : forall x, In x (flat_map kids F) -> reach es rts (S n) x = true).
    { intros x Hx. apply in_flat_map in Hx. destruct Hx as [p [Hp Hx]].
      apply In_kids in Hx. destruct Hx as [_ Hx]. simpl. rewrite Hx. apply HF, Hp. }
    destruct (IH (S n) (flat_map kids F) (kids_flat_NoDup F Hnd) HG) as [IHnd IHin].
    assert (Hmem : forall k, In k (upto es (S f) F) <->
                             exists j, j < S f /\ reach es F j k = true).
    { intros k. simpl. rewrite in_app_iff, IHin. split.
      - intros [Hk|[j [Hj Hr]]].
        + exists 0. split; [lia|]. simpl. apply existsb_exists.
          exists k. split; [exact Hk|apply String.eqb_refl].
        + exists (S j). split; [lia|]. rewrite reach_step. exact Hr.
      - intros [[|j] [Hj Hr]].
        + left. simpl in Hr. apply existsb_exists in Hr. destruct Hr as [x [Hx Heq]].
          apply String.eqb_eq in Heq. subst x. exact Hx.
        + right. exists j. split; [lia|]. rewrite <- reach_step. exact Hr. }
    split; [|exact Hmem].
    simpl. apply NoDup_app; [assumption|assumption|].
    intros k Hk Hk'. apply IHin in Hk'. destruct Hk' as [j [_ Hr]].
    apply (reach_lift _ (S n) j k HG) in Hr.
    pose proof (reach_roots_unique _ _ _ Hr (HF k Hk)). lia.
Qed.

Lemma lev_reach (n : nat) :
  forall F k, In k (lev es n F) -> reach es F n k = true.
Proof.
  induction n as [|n IH]; intros F k; simpl lev.
  - intros Hk. simpl. apply existsb_exists. exists k.
    split; [exact Hk|apply String.eqb_refl].
  - intros Hk. rewrite reach_step. apply IH, Hk.
Qed.

Lemma reach_lev (n : nat) :
  forall F k, reach es F n k = true -> In k (lev es n F).
Proof.
  induction n as [|n IH]; intros F k; simpl lev.
  - simpl. intros H. apply existsb_exists in H. destruct H as [x [Hx Heq]].
    apply String.eqb_eq in Heq. subst x. exact Hx.
  - rewrite reach_step. apply IH.
Qed.

Lemma lev_nil (n : nat) : lev es n [] = [].
Proof. induction n as [|n IH]; simpl; [reflexivity|exact IH]. Qed.

Lemma upto_length (f : nat) :
  forall F, lev es f F <> [] -> f < List.length (upto es (S f) F).
Proof.
  induction f as [|f IH]; intros F Hne.
  - simpl in *. rewrite app_nil_r. destruct F; [congruence|simpl; lia].
  - change (upto es (S (S f)) F) with (F ++ upto es (S f) (flat_map kids F)).
    rewrite length_app. simpl lev in Hne. specialize (IH _ Hne).
    destruct F as [|x F]; [|cbn [List.length]; lia].
    simpl in Hne. rewrite lev_nil in Hne. congruence.
Qed.

(** No node sits as many links below [roots] as the store has objects. *)
Lemma depth_bound (j : nat) (k : string) :
  reach es rts j k = true -> j < List.length es.
Proof.
  intros Hr.
  assert (Hne : lev es j rts <> []).
  { intros Hnil. apply reach_lev in Hr. rewrite Hnil in Hr. destruct Hr. }
  apply upto_length in Hne.
  assert (HR0 : forall x, In x rts -> reach es rts 0 x = true).
  { intros x Hx. simpl. apply existsb_exists. exists x.
    split; [exact Hx|apply String.eqb_refl]. }
  destruct (upto_spec (S j) 0 rts roots_NoDup HR0) as [Hnd Hin].
  assert (Hincl : incl (upto es (S j) rts) (map fst es)).
  { intros x Hx. apply Hin in Hx. destruct Hx as [i [_ Hx]].
    apply (reach_key rts i x); [|exact Hx].
    intros y Hy. apply In_roots in Hy. tauto. }
  pose proof (NoDup_incl_length Hnd Hincl) as Hlen.
  rewrite length_map in Hlen. lia.
Qed.

End Linked.

(** *** The returned root as a finite tree *)

Lemma descendants_node (n : string) (l : option Z) (p s : option string)
      (v : option Q) (cs : list TreeNode) :
  descendants (mkTreeNode n l p s v (Some cs)) = forestNodes cs.
Proof.
  unfold forestNodes. simpl.
  induction cs as [|c cs IH]; simpl; [reflexivity|]. rewrite IH. reflexivity.
Qed.

Lemma descendants_nodeOf (it : FlatItem) (cs : list TreeNode) :
  descendants (nodeOf it cs) = forestNodes cs.
Proof. unfold nodeOf. apply descendants_node. Qed.

Lemma asItem_nodeOf (it : FlatItem) (cs : list TreeNode) :
  asItem (nodeOf it cs) = Some it.
Proof. destruct it. reflexivity. Qed.

Section Reified.
Variable es : Store.
Hypothesis es_NoDup : NoDup (map fst es).
Hypothesis es_fresh : forall e, In e es -> children (snd e) = [].

Local Abbreviation rts := (rootsIn es es).
Local Abbreviation kids := (kidsIn es es).

Lemma map_get_withKids (l m : Store) (k : string) :
  map_get k (map (withKids es l) m) =
  option_map (fun o => mkObj (item o) (children o ++ kidsIn es l k)) (map_get k m).
Proof.
  induction m as [|[k' o] rest IH]; simpl; [reflexivity|].
  destruct (String.eqb_spec k' k) as [->|Hne]; [reflexivity|exact IH].
Qed.

Lemma heap_get (k : string) (o : Obj) :
  map_get k es = Some o ->
  map_get k (heap (linkAll es)) = Some (mkObj (item o) (kids k)).
Proof.
  intros Hget. rewrite (linkAll_spec es es_NoDup). simpl heap.
  rewrite map_get_withKids, Hget.
  pose proof (es_fresh (k, o) (map_get_In k es o Hget)) as Hch.
  simpl in Hch. simpl. rewrite Hch. reflexivity.
Qed.

Lemma upto_nil (f : nat) : upto es f [] = [].
Proof. induction f as [|f IH]; simpl; [reflexivity|exact IH]. Qed.

Lemma upto_app (f : nat) :
  forall A B, Permutation (upto es f (A ++ B)) (upto es f A ++ upto es f B).
Proof.
  induction f as [|f IH]; intros A B; simpl; [constructor|].
  rewrite flat_map_app, <- !app_assoc. apply Permutation_app_head.
  rewrite (IH (flat_map kids A) (flat_map kids B)).
  apply Permutation_app_swap_app.
Qed.

Lemma lev_app (n : nat) :
  forall A B, lev es n (A ++ B) = lev es n A ++ lev es n B.
Proof.
  induction n as [|n IH]; intros A B; simpl; [reflexivity|].
  rewrite flat_map_app. apply IH.
Qed.

Lemma reify_forest (f : nat) :
  forall F,
    incl F (map fst es) ->
    lev es f F = [] ->
    exists ts,
      mapM (reify f (heap (linkAll es))) F = Some ts /\
      Permutation (map asItem (forestNodes ts)) (map (keyItem es) (upto es f F)).
Proof.
  induction f as [|f IHf]; intros F Hincl Hlev.
  - simpl in Hlev. subst F. exists []. split; [reflexivity|constructor].
  - induction F as [|k F IHF].
    + exists []. split; [reflexivity|]. simpl. rewrite upto_nil. constructor.
    + simpl lev in Hlev. rewrite lev_app in Hlev.
      apply app_eq_nil in Hlev. destruct Hlev as [Hk HF].
      assert (Hkin : In k (map fst es)) by (apply Hincl; left; reflexivity).
      destruct (map_get k es) as [o|] eqn:Hget;
        [|apply map_has_In in Hkin; unfold map_has in Hkin; rewrite Hget in Hkin;
          discriminate].
      destruct (IHf (kids k)) as [cs [Hcs Pcs]].
      { intros c Hc. apply (In_kids es es_NoDup) in Hc. tauto. }
      { exact Hk. }
      destruct IHF as [ts [Hts Pts]].
      { intros x Hx. apply Hincl. right; exact Hx. }
      { exact HF. }
      exists (nodeOf (item o) cs :: ts). split.
      * cbn [mapM]. rewrite Hts. cbn [reify]. rewrite (heap_get k o Hget).
        cbn [children item]. rewrite Hcs. reflexivity.
      * unfold forestNodes. cbn [flat_map]. fold (forestNodes ts).
        rewrite descendants_nodeOf.
        cbn [app map]. rewrite asItem_nodeOf, map_app.
        cbn [upto]. cbn [flat_map app map].
        unfold keyItem at 1. rewrite Hget. cbn [option_map]. constructor.
        rewrite map_app.
        rewrite (Permutation_map (keyItem es) (upto_app f (kids k) (flat_map kids F))).
        rewrite map_app, Pcs, Pts. cbn [upto]. rewrite map_app.
        apply Permutation_app_swap_app.
Qed.

Lemma lev_length_nil : lev es (List.length es) rts = [].
Proof.
  destruct (lev es (List.length es) rts) as [|k l] eqn:E; [reflexivity|].
  exfalso.
  assert (Hk : In k (lev es (List.length es) rts)) by (rewrite E; left; reflexivity).
  apply (lev_reach es es_NoDup) in Hk.
  apply (depth_bound es es_NoDup) in Hk. lia.
Qed.

(** The root object always reads as a finite tree; its nodes are the
    objects whose parent links lead to [roots]. *)
Lemma rootOf_linkAll :
  exists ts,
    rootOf (linkAll es) = Some (mkTreeNode "root" None None None None (Some ts)) /\
    mapM (reify (List.length es) (heap (linkAll es))) rts = Some ts /\
    Permutation (map asItem (forestNodes ts))
                (map (keyItem es) (upto es (List.length es) rts)).
Proof.
  destruct (reify_forest (List.length es) rts) as [ts [Hts Pts]].
  - intros x Hx. apply (In_roots es es_NoDup) in Hx. tauto.
  - apply lev_length_nil.
  - exists ts. split; [|split; assumption].
    unfold rootOf, treeOf.
    replace (List.length (heap (linkAll es))) with (List.length es)
      by (rewrite (linkAll_spec es es_NoDup); simpl; rewrite length_map; reflexivity).
    replace (roots (linkAll es)) with rts
      by (rewrite (linkAll_spec es es_NoDup); reflexivity).
    rewrite Hts. reflexivity.
Qed.

Lemma keyItem_keys :
  map (keyItem es) (map fst es) = map (fun e => Some (item (snd e))) es.
Proof.
  rewrite map_map. apply map_ext_in. intros [k o] Hin. unfold keyItem. simpl.
  rewrite (map_get_NoDup es k o es_NoDup Hin). reflexivity.
Qed.

Lemma upto_all :
  (forall k, In k (map fst es) -> exists j, reach es rts j k = true) ->
  Permutation (upto es (List.length es) rts) (map fst es).
Proof.
  intros Hall.
  assert (HR0 : forall x, In x rts -> reach es rts 0 x = true).
  { intros x Hx. simpl. apply existsb_exists. exists x.
    split; [exact Hx|apply String.eqb_refl]. }
  destruct (upto_spec es es_NoDup (List.length es) 0 rts
                      (roots_NoDup es es_NoDup) HR0) as [Hnd Hin].
  apply NoDup_Permutation; [exact Hnd|exact es_NoDup|].
  intros k. rewrite Hin. split.
  - intros [j [_ Hr]]. apply (reach_key es rts j k); [|exact Hr].
    intros y Hy. apply (In_roots es es_NoDup) in Hy. tauto.
  - intros Hk. destruct (Hall k Hk) as [j Hr]. exists j. split; [|exact Hr].
    apply (depth_bound es es_NoDup j k Hr).
Qed.

(** A ranking that decreases along parent links leads every node to
    [roots]. *)
Lemma rank_reaches (rank : string -> nat) :
  (forall k p, parentKey es k = Some p -> rank p < rank k) ->
  forall k, In k (map fst es) -> exists j, reach es rts j k = true.
Proof.
  intros Hrank k. remember (rank k) as n eqn:Hn. revert k Hn.
  induction n as [n IH] using lt_wf_ind. intros k Hn Hk.
  destruct (parentKey es k) as [p|] eqn:Hp.
  - destruct (IH (rank p)) with (k := p) as [j Hj].
    + rewrite Hn. apply Hrank, Hp.
    + reflexivity.
    + apply (parentKey_Some_key es k p Hp).
    + exists (S j). simpl. rewrite Hp. exact Hj.
  - exists 0. simpl. apply existsb_exists. exists k.
    split; [|apply String.eqb_refl]. apply (In_roots es es_NoDup). tauto.
Qed.

End Reified.

(** *** From the input records to the tree *)

Lemma nestFlatToTree_ok (items : list FlatItem) :
  Forall levelOk items ->
  nestFlatToTree items = Ok (linkAll (indexed items [])).
Proof.
  intros Hall. unfold nestFlatToTree. rewrite (indexItems_ok items [] Hall).
  reflexivity.
Qed.

Lemma indexed_store (items : list FlatItem) :
  NoDup (map fst (indexed items [])) /\
  Forall (freshEntry items) (indexed items []).
Proof.
  split.
  - apply indexed_NoDup. constructor.
  - apply indexed_fresh; [apply incl_refl|constructor].
Qed.

(** Parent links of the store, read back on the records. *)
Lemma parentKey_indexed (items : list FlatItem) (k p : string) :
  parentKey (indexed items []) k = Some p ->
  exists it,
    In it items /\ name it = k /\ level it <> 1%Z /\ parent it = Some p /\
    p <> ""%string /\ In p (map name items).
Proof.
  destruct (indexed_store items) as [Hnd Hfresh].
  unfold parentKey. destruct (map_get k (indexed items [])) as [o|] eqn:Hget;
    [|discriminate].
  intros Hat. rewrite Forall_forall in Hfresh.
  destruct (Hfresh (k, o) (map_get_In _ _ _ Hget)) as [Hname [_ Hin]].
  simpl in Hname, Hin. exists (item o). split; [exact Hin|]. split; [exact Hname|].
  unfold attachTo in Hat. destruct (level (item o) =? 1)%Z eqn:Elev; [discriminate|].
  apply Z.eqb_neq in Elev. split; [exact Elev|].
  unfold resolveParent in Hat.
  destruct (truthy (parent (item o))) eqn:Etr; [|discriminate].
  destruct (parent (item o)) as [pn|]; [|discriminate].
  destruct (map_has pn (indexed items [])) eqn:Eh; [|discriminate].
  injection Hat as <-. split; [reflexivity|]. split.
  - intros ->. discriminate Etr.
  - apply map_has_In in Eh. apply indexed_keys in Eh. destruct Eh as [[]|Eh].
    exact Eh.
Qed.

(** With levels in range and acyclic parent links the tree holds one node
    per name, made from the last record of that name. *)
Lemma tree_of_records (items : list FlatItem) (rank : string -> nat) :
  Forall levelOk items ->
  ranked items rank ->
  exists ts,
    nestFlatToTree items = Ok (linkAll (indexed items [])) /\
    rootOf (linkAll (indexed items [])) =
      Some (mkTreeNode "root" None None None None (Some ts)) /\
    Permutation (map asItem (forestNodes ts))
                (map (fun e => Some (item (snd e))) (indexed items [])).
Proof.
  intros Hall Hrank. destruct (indexed_store items) as [Hnd Hfresh].
  assert (Hch : forall e, In e (indexed items []) -> children (snd e) = []).
  { intros e He. rewrite Forall_forall in Hfresh. apply (Hfresh e He). }
  destruct (rootOf_linkAll (indexed items []) Hnd Hch) as [ts [Hroot [_ Hperm]]].
  exists ts. split; [apply nestFlatToTree_ok, Hall|]. split; [exact Hroot|].
  rewrite Hperm, <- (keyItem_keys _ Hnd). apply Permutation_map.
  apply (upto_all _ Hnd).
  apply (rank_reaches _ Hnd rank).
  intros k p Hp. destruct (parentKey_indexed items k p Hp)
    as [it [Hin [<- [Hlev [Hpar [Hne Hpin]]]]]].
  apply (Hrank it p); assumption.
Qed.

Lemma mapM_In {A B : Type} (f : A -> option B) (l : list A) (bs : list B) (a : A) :
  mapM f l = Some bs -> In a l -> exists b, f a = Some b /\ In b bs.
Proof.
  revert bs. induction l as [|x l IH]; intros bs; simpl; [intros _ []|].
  destruct (f x) as [b|] eqn:Hx; [|discriminate].
  destruct (mapM f l) as [bs'|]; [|discriminate].
  intros [= <-] [->|Hin].
  - exists b. split; [exact Hx|left; reflexivity].
  - destruct (IH bs' eq_refl Hin) as [b' [Hb' Hin']].
    exists b'. split; [exact Hb'|right; exact Hin'].
Qed.

Lemma filter_by_key {A : Type} (g : A -> string) (l : list A) (x : A) :
  NoDup (map g l) -> In x l ->
  filter (fun y => String.eqb (g y) (g x)) l = [x].
Proof.
  induction l as [|a l IH]; simpl; intros Hnd Hin; [destruct Hin|].
  inversion Hnd as [|? ? Hnotin Hnd']; subst.
  destruct Hin as [->|Hin].
  - rewrite String.eqb_refl. f_equal.
    assert (Hnone : forall y, In y l -> String.eqb (g y) (g x) = false).
    { intros y Hy. apply String.eqb_neq. intros Heq. apply Hnotin.
      rewrite <- Heq. apply in_map, Hy. }
    clear - Hnone. induction l as [|b l IHl]; simpl; [reflexivity|].
    rewrite (Hnone b (or_introl eq_refl)). apply IHl.
    intros y Hy. apply Hnone. right; exact Hy.
  - destruct (String.eqb_spec (g a) (g x)) as [Heq|Hne].
    + exfalso. apply Hnotin. rewrite Heq. apply in_map, Hin.
    + apply IH; assumption.
Qed.

(** C5 (as stated, refuted). Two records of level 2 that name each other as
    parent pass the level check, yet neither is pushed to [roots]: the
    returned tree is the bare root, with 0 nodes below it for 2 records.
    Two records of the same name, both of level 1, yield one node. *)
Lemma cyclic_pair_loses_both_nodes :
  ((forall it, In it cyclicPair -> (1 <= level it <= 6)%Z) /\
   NoDup (map name cyclicPair) /\
   exists g t,
     nestFlatToTree cyclicPair = Ok g /\ rootOf g = Some t /\
     descendants t = [] /\
     List.length (descendants t) <> List.length cyclicPair)
  /\
  ((forall it, In it duplicatePair -> (1 <= level it <= 6)%Z) /\
   exists g t,
     nestFlatToTree duplicatePair = Ok g /\ rootOf g = Some t /\
     descendants t = [leafNode "A" 1 None] /\
     List.length (descendants t) <> List.length duplicatePair).
Proof.
  split; split.
  - intros it [<-|[<-|[]]]; simpl; lia.
  - split.
    + simpl. repeat constructor; simpl; intuition discriminate.
    + eexists. eexists. split; [reflexivity|]. split; [vm_compute; reflexivity|].
      split; [reflexivity|]. simpl. discriminate.
  - intros it [<-|[<-|[]]]; simpl; lia.
  - eexists. eexists. split; [reflexivity|]. split; [vm_compute; reflexivity|].
    split; [reflexivity|]. simpl. discriminate.
Qed.

(** C5 (amended). When every level lies in 1..6, the names are pairwise
    distinct and the parent links are acyclic, [nestFlatToTree] returns a
    tree under the synthetic root whose nodes are exactly the input records,
    one node per record; in particular it has as many nodes below the root
    as there are records. *)
Theorem nestFlatToTree_nodes_are_the_records
        (items : list FlatItem) (rank : string -> nat) :
  (forall it, In it items -> (1 <= level it <= 6)%Z) ->
  NoDup (map name items) ->
  ranked items rank ->
  exists g t,
    nestFlatToTree items = Ok g /\ rootOf g = Some t /\
    t_name t = "root"%string /\
    Permutation (map asItem (descendants t)) (map Some items) /\
    List.length (descendants t) = List.length items.
Proof.
  intros Hlev Hnd Hrank.
  assert (Hall : Forall levelOk items) by (apply Forall_forall; exact Hlev).
  destruct (tree_of_records items rank Hall Hrank) as [ts [Hok [Hroot Hperm]]].
  rewrite (indexed_distinct items [] Hnd) in Hperm by (intros it _ []).
  simpl app in Hperm. rewrite map_map in Hperm. simpl in Hperm.
  change (map (fun x : FlatItem => Some x) items) with (map Some items) in Hperm.
  eexists. eexists. split; [exact Hok|]. split; [exact Hroot|].
  split; [reflexivity|]. rewrite descendants_node. split; [exact Hperm|].
  apply Permutation_length in Hperm. rewrite !length_map in Hperm. exact Hperm.
Qed.

(** C5 (amended) at the four Kusama records, ranked by their levels. *)
Lemma nestFlatToTree_nodes_are_the_records_witness :
  (forall it, In it kusama -> (1 <= level it <= 6)%Z) /\
  NoDup (map name kusama) /\
  ranked kusama (levelRank kusama) /\
  exists g t,
    nestFlatToTree kusama = Ok g /\ rootOf g = Some t /\
    t_name t = "root"%string /\
    Permutation (map asItem (descendants t)) (map Some kusama) /\
    List.length (descendants t) = List.length kusama.
Proof.
  assert (H1 : forall it, In it kusama -> (1 <= level it <= 6)%Z).
  { intros it [<-|[<-|[<-|[<-|[]]]]]; simpl; lia. }
  assert (H2 : NoDup (map name kusama)).
  { simpl. repeat constructor; simpl; intuition discriminate. }
  assert (H3 : ranked kusama (levelRank kusama)).
  { intros it p [<-|[<-|[<-|[<-|[]]]]] Hl Hp _ _; simpl in Hl, Hp;
      try congruence; injection Hp as <-; vm_compute; lia. }
  split; [exact H1|]. split; [exact H2|]. split; [exact H3|].
  exact (nestFlatToTree_nodes_are_the_records kusama (levelRank kusama) H1 H2 H3).
Defined.

(** A node pushed to [roots] is a child of the returned root and carries
    the fields of the object under its key. *)
Lemma root_child (es : Store) (k : string) (o : Obj) :
  NoDup (map fst es) ->
  (forall e, In e es -> children (snd e) = []) ->
  map_get k es = Some o ->
  parentKey es k = None ->
  exists t nd,
    rootOf (linkAll es) = Some t /\ t_name t = "root"%string /\
    In nd (childrenOf t) /\ asItem nd = Some (item o).
Proof.
  intros Hnd Hch Hget Hpar.
  destruct (rootOf_linkAll es Hnd Hch) as [ts [Hroot [Hts _]]].
  assert (Hk : In k (rootsIn es es)).
  { apply (In_roots es Hnd). split; [eapply map_get_Some_key, Hget|exact Hpar]. }
  destruct (mapM_In _ _ _ k Hts Hk) as [nd [Hnode Hin]].
  exists (mkTreeNode "root" None None None None (Some ts)), nd.
  split; [exact Hroot|]. split; [reflexivity|]. split; [exact Hin|].
  destruct (List.length es) as [|f]; [discriminate Hnode|].
  simpl in Hnode. rewrite (heap_get es Hnd Hch k o Hget) in Hnode. simpl in Hnode.
  destruct (mapM (reify f (heap (linkAll es))) (kidsIn es es k)) as [cs|];
    [|discriminate].
  injection Hnode as <-. apply asItem_nodeOf.
Qed.

(** C6 (as stated, refuted). A record of level 7 whose parent names no
    record has a level above 1, yet [nestFlatToTree] throws on it.  And a
    record of level 2 with an unmatched parent whose name a later record
    repeats gets no node of its own: the node of that name hangs where the
    later record says, here under B, and the root has the single child B. *)
Lemma orphan_of_level_7_throws :
  (let r := rec "A" 7 (Some "Missing"%string) in
   In r [r] /\ (level r > 1)%Z /\
   (forall p, parent r = Some p -> ~ In p (map name [r])) /\
   nestFlatToTree [r] = Throw (LevelOutOfRange "A" 7) /\
   ~ exists g, nestFlatToTree [r] = Ok g)
  /\
  (let r := rec "A" 2 (Some "Missing"%string) in
   In r overwrittenOrphan /\ (level r > 1)%Z /\
   (forall it, In it overwrittenOrphan -> (1 <= level it <= 6)%Z) /\
   (forall p, parent r = Some p -> ~ In p (map name overwrittenOrphan)) /\
   exists g t,
     nestFlatToTree overwrittenOrphan = Ok g /\ rootOf g = Some t /\
     map t_name (childrenOf t) = ["B"%string] /\
     map asItem (descendants t) =
       [Some (rec "B" 1 None); Some (rec "A" 2 (Some "B"%string))]).
Proof.
  split.
  - simpl. split; [left; reflexivity|]. split; [lia|]. split.
    + intros p [= <-] [H|[]]. discriminate H.
    + split; [reflexivity|]. intros [g H]. discriminate H.
  - simpl. split; [left; reflexivity|]. split; [lia|]. split; [|split].
    + intros it [<-|[<-|[<-|[]]]]; simpl; lia.
    + intros p [= <-]. intuition discriminate.
    + eexists. eexists. split; [reflexivity|]. split; [vm_compute; reflexivity|].
      split; reflexivity.
Qed.

(** C6 (amended). In an input whose levels all lie in 1..6, a record of
    level above 1 whose parent names no record, and whose name no later
    record repeats, becomes a direct child of the synthetic root, carrying
    its own fields.  In particular the input [{name:"A", level:2,
    parent:"Missing"}] yields the root with the single child A, which has no
    children. *)
Theorem orphan_becomes_child_of_root :
  (forall (pre post : list FlatItem) (r : FlatItem),
      (forall it, In it (pre ++ r :: post) -> (1 <= level it <= 6)%Z) ->
      (level r > 1)%Z ->
      (forall p, parent r = Some p -> ~ In p (map name (pre ++ r :: post))) ->
      ~ In (name r) (map name post) ->
      exists g t nd,
        nestFlatToTree (pre ++ r :: post) = Ok g /\ rootOf g = Some t /\
        t_name t = "root"%string /\
        In nd (childrenOf t) /\ asItem nd = Some r)
  /\
  (exists g,
      nestFlatToTree orphanExample = Ok g /\
      rootOf g = Some (mkTreeNode "root" None None None None
                        (Some [leafNode "A" 2 (Some "Missing"%string)]))).
Proof.
  split.
  - intros pre post r Hlev Hr Hpar Hlast.
    set (items := pre ++ r :: post) in *.
    assert (Hall : Forall levelOk items) by (apply Forall_forall; exact Hlev).
    destruct (indexed_store items) as [Hnd Hfresh].
    assert (Hch : forall e, In e (indexed items []) -> children (snd e) = []).
    { intros e He. rewrite Forall_forall in Hfresh. apply (Hfresh e He). }
    assert (Hget : map_get (name r) (indexed items []) = Some (mkObj r []))
      by (apply indexed_last; exact Hlast).
    assert (Hroot : parentKey (indexed items []) (name r) = None).
    { destruct (parentKey (indexed items []) (name r)) as [p|] eqn:E; [|reflexivity].
      exfalso. unfold parentKey in E. rewrite Hget in E.
      unfold attachTo in E. simpl in E.
      destruct (level r =? 1)%Z; [discriminate|].
      unfold resolveParent in E. simpl in E.
      destruct (truthy (parent r)); [|discriminate].
      destruct (parent r) as [pn|] eqn:Ep; [|discriminate].
      destruct (map_has pn (indexed items [])) eqn:Eh; [|discriminate].
      apply map_has_In in Eh. apply indexed_keys in Eh. destruct Eh as [[]|Eh].
      exact (Hpar pn eq_refl Eh). }
    destruct (root_child _ _ _ Hnd Hch Hget Hroot) as [t [nd [Ht [Hn [Hin Has]]]]].
    exists (linkAll (indexed items [])), t, nd.
    split; [apply nestFlatToTree_ok, Hall|]. repeat split; assumption.
  - eexists. split; [reflexivity|]. vm_compute. reflexivity.
Qed.

(** C6 (amended) at the orphan A between the records Kusama and Bio. *)
Lemma orphan_becomes_child_of_root_witness :
  let pre := [rec "Kusama" 1 None] in
  let r := rec "A" 2 (Some "Missing"%string) in
  let post := [rec "Bio" 2 (Some "Kusama"%string)] in
  (forall it, In it (pre ++ r :: post) -> (1 <= level it <= 6)%Z) /\
  (level r > 1)%Z /\
  (forall p, parent r = Some p -> ~ In p (map name (pre ++ r :: post))) /\
  ~ In (name r) (map name post) /\
  exists g t nd,
    nestFlatToTree (pre ++ r :: post) = Ok g /\ rootOf g = Some t /\
    t_name t = "root"%string /\
    In nd (childrenOf t) /\ asItem nd = Some r.
Proof.
  intros pre r post.
  assert (H1 : forall it, In it (pre ++ r :: post) -> (1 <= level it <= 6)%Z).
  { intros it [<-|[<-|[<-|[]]]]; simpl; lia. }
  assert (H2 : (level r > 1)%Z) by (simpl; lia).
  assert (H3 : forall p, parent r = Some p -> ~ In p (map name (pre ++ r :: post))).
  { intros p [= <-]. simpl. intuition discriminate. }
  assert (H4 : ~ In (name r) (map name post)).
  { simpl. intuition discriminate. }
  split; [exact H1|]. split; [exact H2|]. split; [exact H3|]. split; [exact H4|].
  exact (proj1 orphan_becomes_child_of_root pre post r H1 H2 H3 H4).
Defined.

(** C8 (as stated, refuted). Here two records are named A, every level is
    in range, and the parent links form a cycle: the returned tree holds no
    node named A at all.  Two records named A of level 9 yield no tree.  And
    for two records named root, of level 1, the tree holds two nodes of that
    name: the synthetic root and the node of the second record. *)
Lemma cyclic_duplicate_has_no_node :
  ((forall it, In it cyclicDuplicate -> (1 <= level it <= 6)%Z) /\
   exists g t,
     nestFlatToTree cyclicDuplicate = Ok g /\ rootOf g = Some t /\
     filter (fun n => String.eqb (t_name n) "A") (descendants t) = [])
  /\
  nestFlatToTree outOfRangeDuplicate = Throw (LevelOutOfRange "A" 9)
  /\
  ((forall it, In it rootDuplicate -> (1 <= level it <= 6)%Z) /\
   exists g t nd,
     nestFlatToTree rootDuplicate = Ok g /\ rootOf g = Some t /\
     filter (fun n => String.eqb (t_name n) "root") (t :: descendants t) = [t; nd] /\
     asItem nd = Some (rec "root" 1 None)).
Proof.
  split; [split|split; [reflexivity|split]].
  - intros it [<-|[<-|[<-|[]]]]; simpl; lia.
  - eexists. eexists. split; [reflexivity|]. split; [vm_compute; reflexivity|].
    reflexivity.
  - intros it [<-|[<-|[]]]; simpl; lia.
  - eexists. eexists. eexists. split; [reflexivity|].
    split; [vm_compute; reflexivity|]. split; reflexivity.
Qed.

(** Whenever [nestFlatToTree] returns, the returned root reads as a finite
    tree: the objects on a cycle of parent links are not reachable from it. *)
Lemma nestFlatToTree_returns_a_tree (items : list FlatItem) :
  (forall it, In it items -> (1 <= level it <= 6)%Z) ->
  exists g t,
    nestFlatToTree items = Ok g /\ rootOf g = Some t /\ t_name t = "root"%string.
Proof.
  intros Hlev.
  assert (Hall : Forall levelOk items) by (apply Forall_forall; exact Hlev).
  destruct (indexed_store items) as [Hnd Hfresh].
  assert (Hch : forall e, In e (indexed items []) -> children (snd e) = []).
  { intros e He. rewrite Forall_forall in Hfresh. apply (Hfresh e He). }
  destruct (rootOf_linkAll (indexed items []) Hnd Hch) as [ts [Hroot _]].
  eexists. eexists. split; [apply nestFlatToTree_ok, Hall|].
  split; [exact Hroot|reflexivity].
Qed.

(** The trees built for the two sample foci of the layout properties. *)
Lemma kusama_tree :
  exists g,
    nestFlatToTree kusama = Ok g /\
    rootOf g = Some (mkTreeNode "root" None None None None
                       (Some [RadialPacker.kusamaFocus])).
Proof. eexists. split; [reflexivity|]. vm_compute. reflexivity. Qed.

Lemma clashing_tree :
  NoDup (map name clashingRecords) /\
  exists g,
    nestFlatToTree clashingRecords = Ok g /\
    rootOf g = Some (mkTreeNode "root" None None None None
                       (Some [RadialPacker.clashingFocus])).
Proof.
  split.
  - simpl. repeat constructor; simpl; intuition discriminate.
  - eexists. split; [reflexivity|]. vm_compute. reflexivity.
Qed.

End TreeBuilderFacts.

(** * Properties of [computeBubblePackingLayout] *)

Module RadialPackerFacts.
Import RadialPacker.
Local Open Scope R_scope.


Lemma mapM_total {A B : Type} (f : A -> option B) (l : list A) :
  (forall a, In a l -> exists b, f a = Some b) ->
  exists bs, mapM f l = Some bs /\ Forall2 (fun a b => f a = Some b) l bs.
Proof.
  induction l as [|a l IH]; intros Hall.
  - exists []. split; [reflexivity|constructor].
  - destruct (Hall a (or_introl eq_refl)) as [b Hb].
    destruct IH as [bs [Hbs Hall2]].
    { intros a' Ha'. apply Hall. right; exact Ha'. }
    exists (b :: bs). simpl. rewrite Hb, Hbs. split; [reflexivity|].
    constructor; assumption.
Qed.

Lemma findIndex_range {A : Type} (p : A -> bool) (l : list A) :
  (-1 <= findIndex p l < Z.of_nat (List.length l))%Z.
Proof.
  induction l as [|a l IH]; simpl List.length.
  - simpl. lia.
  - cbn [findIndex]. destruct (p a); [lia|].
    destruct (findIndex p l <? 0)%Z eqn:E; [lia|].
    apply Z.ltb_ge in E. lia.
Qed.

Lemma at_in_range {A : Type} (l : list A) (i : Z) :
  (0 <= i < Z.of_nat (List.length l))%Z -> exists a, at_ l i = Some a.
Proof.
  intros Hi. unfold at_.
  destruct (i <? 0)%Z eqn:E; [apply Z.ltb_lt in E; lia|].
  destruct (nth_error l (Z.to_nat i)) as [a|] eqn:En; [eauto|].
  apply nth_error_None in En. lia.
Qed.

Section LayoutFacts.
Variable focus : TreeNode.
Variable side : R.

Lemma placeChildren_length (l : list ChildInfo) :
forall theta, List.length (placeChildren focus side theta l) = List.length l.
Proof.
induction l as [|it l IH]; intros theta; simpl; [reflexivity|].
rewrite IH. reflexivity.
Qed.

Lemma placedChildren_length :
List.length (placedChildren focus side) = List.length (childrenOf focus).
Proof.
unfold placedChildren. rewrite placeChildren_length.
unfold childInfo, children. apply length_map.
Qed.

Lemma placeChildren_bubbles (l : list ChildInfo) :
forall theta,
  Forall2 (fun it ch =>
             id (bubble ch) = t_name (ci_node it) /\
             name (bubble ch) = t_name (ci_node it) /\
             depth (bubble ch) = 1%nat /\
             data (bubble ch) = ci_node it /\
             r (bubble ch) = ci_r it /\
             parentId (bubble ch) = Some (t_name focus))
          l (placeChildren focus side theta l).
Proof.
induction l as [|it l IH]; intros theta; simpl; constructor.
- simpl. repeat split.
- apply IH.
Qed.

Lemma placedChildren_data :
map (fun ch => data (bubble ch)) (placedChildren focus side) = childrenOf focus.
Proof.
unfold placedChildren, childInfo, children.
generalize 0. induction (childrenOf focus) as [|c l IH]; intros theta; simpl.
- reflexivity.
- f_equal. apply IH.
Qed.

Lemma placedChildren_id_name (ch : ChildPlaced) :
In ch (placedChildren focus side) ->
id (bubble ch) = t_name (data (bubble ch)) /\
name (bubble ch) = t_name (data (bubble ch)) /\
depth (bubble ch) = 1%nat /\
parentId (bubble ch) = Some (t_name focus).
Proof.
unfold placedChildren. generalize 0, (childInfo focus side).
intros theta l. revert theta.
induction l as [|it l IH]; intros theta; simpl; [intros []|].
intros [<-|Hin]; [simpl; repeat split|]. eapply IH, Hin.
Qed.

(** [neighborRingCap] reads no property of [undefined]. *)
Lemma neighborRingCap_total (ch : ChildPlaced) (rG : R) :
exists c, neighborRingCap focus side ch rG = Some c.
Proof.
unfold neighborRingCap.
destruct (childCount focus side <=? 1)%nat eqn:E; [eauto|].
apply Nat.leb_gt in E.
set (idx := findIndex _ _).
assert (Hidx : (-1 <= idx < Z.of_nat (childCount focus side))%Z)
  by apply findIndex_range.
destruct (at_in_range (placedChildren focus side)
            (Z.rem (idx - 1 + Z.of_nat (childCount focus side))
                   (Z.of_nat (childCount focus side)))) as [prev ->].
{ apply Z.rem_bound_pos; unfold childCount in *; lia. }
destruct (at_in_range (placedChildren focus side)
            (Z.rem (idx + 1) (Z.of_nat (childCount focus side)))) as [next ->].
{ apply Z.rem_bound_pos; unfold childCount in *; lia. }
eauto.
Qed.

Lemma grandRing_total (ch : ChildPlaced) (N : nat) :
exists rG ringG, grandRing focus side ch N = Some (rG, ringG).
Proof.
unfold grandRing.
destruct (neighborRingCap_total ch (minGrandR side)) as [c ->].
destruct c as [|m]; [eauto|].
destruct (Rltb m _ && Rltb 0 m); [|eauto].
match goal with
| |- context [neighborRingCap focus side ch ?v] =>
    destruct (neighborRingCap_total ch v) as [c' ->]
end.
eauto.
Qed.

(** The bubbles pushed for one child. *)
Lemma placeGrandchildren_shape (ch : ChildPlaced) :
exists block,
  placeGrandchildren focus side ch = Some block /\
  ((childrenOf (data (bubble ch)) = [] /\ block = []) \/
   (childrenOf (data (bubble ch)) <> [] /\
    exists rG ringG,
      grandRing focus side ch (List.length (childrenOf (data (bubble ch))))
      = Some (rG, ringG) /\
      block =
      arcBubbles ch rG ringG
        (angle ch -
         (INR (List.length (childrenOf (data (bubble ch)))) - 1)
         * ((2 * rG + gapG side) / ringG) / 2)
        ((2 * rG + gapG side) / ringG) 0
        (childrenOf (data (bubble ch))))).
Proof.
unfold placeGrandchildren.
destruct (childrenOf (data (bubble ch))) as [|g gs] eqn:E.
- exists []. split; [reflexivity|]. left. split; reflexivity.
- cbn [List.length].
  destruct (grandRing_total ch (S (List.length gs))) as [rG [ringG Hg]].
  rewrite Hg. eexists. split; [reflexivity|]. right. split; [discriminate|].
  exists rG, ringG. split; reflexivity.
Qed.

Lemma arcBubbles_spec (ch : ChildPlaced) (rG ringG t0 st : R) (gs : list TreeNode) :
forall i,
  Forall2 (fun g b =>
             id b = (id (bubble ch) ++ "::" ++ t_name g)%string /\
             name b = t_name g /\ depth b = 2%nat /\ data b = g /\
             r b = rG /\ parentId b = Some (id (bubble ch)))
          gs (arcBubbles ch rG ringG t0 st i gs).
Proof.
induction gs as [|g gs IH]; intros i; simpl; constructor.
- simpl. repeat split.
- apply IH.
Qed.

Lemma placeGrandchildren_block (ch : ChildPlaced) :
exists block, placeGrandchildren focus side ch = Some block /\ blockOf ch block.
Proof.
destruct (placeGrandchildren_shape ch) as [block [Hb [[Hnil ->]|[_ [rG [ringG [_ ->]]]]]]].
- exists []. split; [exact Hb|]. exists 0. rewrite Hnil. constructor.
- eexists. split; [exact Hb|]. exists rG. apply arcBubbles_spec.
Qed.

(** The layout is the focus bubble, the child bubbles, then one block of
  grandchild bubbles per child, in child order. *)
Lemma layout_shape :
exists blocks,
  computeBubblePackingLayout focus side =
  Some (mkLayout (parentPlaced focus side
                  :: map bubble (placedChildren focus side) ++ List.concat blocks)
                 side) /\
  Forall2 (fun ch block => placeGrandchildren focus side ch = Some block /\
                           blockOf ch block)
          (placedChildren focus side) blocks.
Proof.
destruct (mapM_total (placeGrandchildren focus side) (placedChildren focus side))
  as [blocks [Hm Hall]].
{ intros ch _. destruct (placeGrandchildren_block ch) as [b [Hb _]]. eauto. }
exists blocks. split.
- unfold computeBubblePackingLayout, placedGrandchildren. rewrite Hm. reflexivity.
- clear Hm. induction Hall as [|ch block l bs Hb Hall IH]; constructor; [|exact IH].
  split; [exact Hb|].
  destruct (placeGrandchildren_block ch) as [b [Hb' Hblock]]. congruence.
Qed.

End LayoutFacts.

(** *** Counting the bubbles *)

Lemma countDepth_app (d : nat) (l1 l2 : list PlacedBubble) :
  countDepth d (l1 ++ l2) = (countDepth d l1 + countDepth d l2)%nat.
Proof. unfold countDepth. rewrite filter_app, length_app. reflexivity. Qed.

Lemma countDepth_all (d d' : nat) (l : list PlacedBubble) :
  Forall (fun b => depth b = d') l ->
  countDepth d l = if Nat.eqb d' d then List.length l else 0%nat.
Proof.
  unfold countDepth. induction 1 as [|b l Hb Hall IH]; simpl.
  - destruct (Nat.eqb d' d); reflexivity.
  - rewrite Hb. destruct (Nat.eqb d' d); simpl; [f_equal|]; exact IH.
Qed.

Lemma blockOf_Forall (ch : ChildPlaced) (block : list PlacedBubble) :
  blockOf ch block ->
  List.length block = List.length (childrenOf (data (bubble ch))) /\
  Forall (fun b => depth b = 2%nat) block /\
  map id block =
  map (fun g => (id (bubble ch) ++ "::" ++ t_name g)%string)
      (childrenOf (data (bubble ch))).
Proof.
  intros [rG H]. induction H as [|g b gs bs Hb H IH]; simpl.
  - repeat split. constructor.
  - destruct IH as [IH1 [IH2 IH3]]. destruct Hb as [Hid [_ [Hd _]]].
    split; [f_equal; exact IH1|]. split; [constructor; assumption|].
    f_equal; assumption.
Qed.

Lemma blocks_facts (focus : TreeNode) (side : R) (pcs : list ChildPlaced)
      (blocks : list (list PlacedBubble)) :
  Forall2 (fun ch block => placeGrandchildren focus side ch = Some block /\
                           blockOf ch block) pcs blocks ->
  List.length (List.concat blocks) =
  list_sum (map (fun ch => List.length (childrenOf (data (bubble ch)))) pcs) /\
  Forall (fun b => depth b = 2%nat) (List.concat blocks) /\
  map id (List.concat blocks) =
  flat_map (fun ch => map (fun g => (id (bubble ch) ++ "::" ++ t_name g)%string)
                          (childrenOf (data (bubble ch)))) pcs.
Proof.
  induction 1 as [|ch block pcs blocks [_ Hb] H IH]; simpl.
  - repeat split. constructor.
  - destruct IH as [IH1 [IH2 IH3]].
    destruct (blockOf_Forall ch block Hb) as [H1 [H2 H3]].
    rewrite length_app, map_app, H1, IH1, H3, IH3. repeat split.
    apply Forall_app. split; assumption.
Qed.

Lemma children_depth (focus : TreeNode) (side : R) :
  Forall (fun b => depth b = 1%nat) (map bubble (placedChildren focus side)).
Proof.
  apply Forall_forall. intros b Hb. apply in_map_iff in Hb.
  destruct Hb as [ch [<- Hin]]. apply (placedChildren_id_name focus side ch Hin).
Qed.

(** C1. For every focus node and every canvas side the layout is returned
    and holds exactly 1 + |children| + (sum over the children of their
    numbers of children) bubbles: one of depth 0 (the focus), one of depth 1
    per child and one of depth 2 per grandchild. *)
Theorem layout_bubble_count (focus : TreeNode) (side : R) :
  exists lay,
    computeBubblePackingLayout focus side = Some lay /\
    List.length (nodes lay) =
      (1 + List.length (childrenOf focus) + grandchildCount focus)%nat /\
    countDepth 0 (nodes lay) = 1%nat /\
    countDepth 1 (nodes lay) = List.length (childrenOf focus) /\
    countDepth 2 (nodes lay) = grandchildCount focus.
Proof.
  destruct (layout_shape focus side) as [blocks [Hlay Hblocks]].
  destruct (blocks_facts focus side _ _ Hblocks) as [Hlen [Hd2 _]].
  pose proof (children_depth focus side) as Hd1.
  assert (Hg : List.length (List.concat blocks) = grandchildCount focus).
  { rewrite Hlen. unfold grandchildCount.
    rewrite <- (placedChildren_data focus side), map_map. reflexivity. }
  assert (Hc : List.length (map bubble (placedChildren focus side)) =
               List.length (childrenOf focus)).
  { rewrite length_map. apply placedChildren_length. }
  eexists. split; [exact Hlay|]. cbn [nodes].
  change (parentPlaced focus side :: map bubble (placedChildren focus side)
          ++ List.concat blocks)
    with ([parentPlaced focus side]
          ++ map bubble (placedChildren focus side) ++ List.concat blocks).
  rewrite !countDepth_app, !length_app.
  rewrite !(countDepth_all _ 1 _ Hd1), !(countDepth_all _ 2 _ Hd2).
  rewrite Hg, Hc. simpl. repeat split; lia.
Qed.

(** C10. The depth-2 bubbles come in blocks, one block per child in child
    order; the block of a child has one bubble per grandchild of that child,
    and all bubbles of a block have the same radius. *)
Theorem grandchildren_of_a_child_share_radius (focus : TreeNode) (side : R) :
  exists lay blocks,
    computeBubblePackingLayout focus side = Some lay /\
    nodes lay = parentPlaced focus side
                :: map bubble (placedChildren focus side) ++ List.concat blocks /\
    Forall2 (fun ch block =>
               placeGrandchildren focus side ch = Some block /\
               map data block = childrenOf (data (bubble ch)) /\
               exists rG,
                 Forall (fun b => r b = rG /\ depth b = 2%nat /\
                                  parentId b = Some (id (bubble ch))) block)
            (placedChildren focus side) blocks.
Proof.
  destruct (layout_shape focus side) as [blocks [Hlay Hblocks]].
  eexists. exists blocks. split; [exact Hlay|]. split; [reflexivity|].
  revert Hblocks. apply Forall2_impl.
  intros ch block [Hb [rG Hblock]].
  split; [exact Hb|]. split.
  - clear Hb. induction Hblock as [|g b gs l Hgb Hrest IHb]; simpl; [reflexivity|].
    destruct Hgb as [_ [_ [_ [Hdata _]]]]. rewrite Hdata, IHb. reflexivity.
  - exists rG. clear Hb. induction Hblock as [|g b gs l Hgb Hrest IHb]; constructor.
    + tauto.
    + exact IHb.
Qed.

(** *** Identifiers *)

Lemma append_length (s t : string) :
  String.length (s ++ t) = (String.length s + String.length t)%nat.
Proof. induction s as [|c s IH]; simpl; [reflexivity|]. rewrite IH. reflexivity. Qed.

Lemma append_inv_head (s t1 t2 : string) :
  (s ++ t1 = s ++ t2)%string -> t1 = t2.
Proof.
  induction s as [|c s IH]; simpl; intros H; [exact H|].
  injection H as H. apply IH, H.
Qed.

Lemma append_inv_tail (s1 s2 t : string) :
  (s1 ++ t = s2 ++ t)%string -> s1 = s2.
Proof.
  revert s2. induction s1 as [|c s1 IH]; intros [|c2 s2] H; simpl in H.
  - reflexivity.
  - exfalso. apply (f_equal String.length) in H. simpl in H.
    rewrite append_length in H. lia.
  - exfalso. apply (f_equal String.length) in H. simpl in H.
    rewrite append_length in H. lia.
  - injection H as -> H. f_equal. apply IH, H.
Qed.

Lemma Forall2_concat_In {A B : Type} (P : A -> list B -> Prop)
      (l : list A) (bs : list (list B)) (b : B) :
  Forall2 P l bs -> In b (List.concat bs) ->
  exists a block, In a l /\ P a block /\ In b block.
Proof.
  induction 1 as [|a block l bs Hab H IH]; simpl; [intros []|].
  rewrite in_app_iff. intros [Hb|Hb].
  - exists a, block. split; [left; reflexivity|]. split; assumption.
  - destruct (IH Hb) as [a' [block' [Ha' [HP Hin]]]].
    exists a', block'. split; [right; exact Ha'|]. split; assumption.
Qed.

Lemma Forall2_In_r {A B : Type} (P : A -> B -> Prop) (l : list A) (l' : list B) (b : B) :
  Forall2 P l l' -> In b l' -> exists a, In a l /\ P a b.
Proof.
  induction 1 as [|a b' l l' Hab H IH]; simpl; [intros []|].
  intros [<-|Hb].
  - exists a. split; [left; reflexivity|exact Hab].
  - destruct (IH Hb) as [a' [Ha' HP]]. exists a'. split; [right; exact Ha'|exact HP].
Qed.

(** The three kinds of bubbles of a layout and how each is identified. *)
Lemma node_cases (focus : TreeNode) (side : R) (lay : Layout) (b : PlacedBubble) :
  computeBubblePackingLayout focus side = Some lay ->
  In b (nodes lay) ->
  (b = parentPlaced focus side) \/
  (exists ch, In ch (placedChildren focus side) /\ b = bubble ch) \/
  (exists ch block g,
      In ch (placedChildren focus side) /\
      placeGrandchildren focus side ch = Some block /\ In b block /\
      In g (childrenOf (data (bubble ch))) /\
      id b = (id (bubble ch) ++ "::" ++ t_name g)%string /\
      name b = t_name g /\ depth b = 2%nat /\
      parentId b = Some (id (bubble ch))).
Proof.
  intros Hlay Hin.
  destruct (layout_shape focus side) as [blocks [Hlay' Hblocks]].
  rewrite Hlay in Hlay'. injection Hlay' as ->. cbn [nodes] in Hin.
  destruct Hin as [<-|Hin]; [left; reflexivity|].
  apply in_app_iff in Hin. destruct Hin as [Hin|Hin].
  - right; left. apply in_map_iff in Hin. destruct Hin as [ch [<- Hch]]. eauto.
  - right; right.
    destruct (Forall2_concat_In _ _ _ _ Hblocks Hin) as [ch [block [Hch [[Hb [rG Hblock]] Hbin]]]].
    destruct (Forall2_In_r _ _ _ _ Hblock Hbin) as [g [Hg [Hid [Hn [Hd [_ [_ Hp]]]]]]].
    exists ch, block, g. repeat split; assumption.
Qed.

(** C9 (amended). The id of the focus bubble and of a child bubble is the
    bare node name.  The id of a grandchild bubble is the id of its owning
    child, then "::", then the grandchild's name; its [parentId] is that
    child's id.  Hence two grandchild bubbles of the same name under
    children of different ids have different ids, and so have two
    grandchild bubbles of different names under one child. *)
Theorem bubble_ids (focus : TreeNode) (side : R) :
  exists lay,
    computeBubblePackingLayout focus side = Some lay /\
    (forall b, In b (nodes lay) -> (depth b = 0 \/ depth b = 1)%nat ->
               id b = name b) /\
    (forall b, In b (nodes lay) -> depth b = 2%nat ->
               exists c, In c (nodes lay) /\ depth c = 1%nat /\
                         parentId b = Some (id c) /\
                         id b = (id c ++ "::" ++ name b)%string) /\
    (forall b1 b2, In b1 (nodes lay) -> In b2 (nodes lay) ->
                   depth b1 = 2%nat -> depth b2 = 2%nat ->
                   name b1 = name b2 -> parentId b1 <> parentId b2 ->
                   id b1 <> id b2) /\
    (forall b1 b2, In b1 (nodes lay) -> In b2 (nodes lay) ->
                   depth b1 = 2%nat -> depth b2 = 2%nat ->
                   parentId b1 = parentId b2 -> name b1 <> name b2 ->
                   id b1 <> id b2).
Proof.
  destruct (layout_shape focus side) as [blocks [Hlay Hblocks]].
  assert (Hg : forall b, In b (nodes (mkLayout
                 (parentPlaced focus side
                  :: map bubble (placedChildren focus side) ++ List.concat blocks)
                 side)) ->
               depth b = 2%nat ->
               exists ch, In ch (placedChildren focus side) /\
                          parentId b = Some (id (bubble ch)) /\
                          id b = (id (bubble ch) ++ "::" ++ name b)%string).
  { intros b Hin Hd.
    destruct (node_cases focus side _ b Hlay Hin)
      as [->|[[ch [Hch ->]]|[ch [block [g [Hch [_ [_ [_ [Hid [Hn [_ Hp]]]]]]]]]]]].
    - discriminate Hd.
    - destruct (placedChildren_id_name focus side ch Hch) as [_ [_ [Hd1 _]]].
      rewrite Hd1 in Hd. discriminate Hd.
    - exists ch. rewrite Hn. repeat split; assumption. }
  eexists. split; [exact Hlay|]. split; [|split; [|split]].
  - intros b Hin Hd.
    destruct (node_cases focus side _ b Hlay Hin)
      as [->|[[ch [Hch ->]]|[ch [block [g [_ [_ [_ [_ [_ [_ [Hd2 _]]]]]]]]]]]].
    + reflexivity.
    + destruct (placedChildren_id_name focus side ch Hch) as [Hid [Hn _]]. congruence.
    + rewrite Hd2 in Hd. destruct Hd; discriminate.
  - intros b Hin Hd. destruct (Hg b Hin Hd) as [ch [Hch [Hp Hid]]].
    exists (bubble ch). split.
    + cbn [nodes]. right. apply in_app_iff. left. apply in_map, Hch.
    + split; [apply (placedChildren_id_name focus side ch Hch)|]. split; assumption.
  - intros b1 b2 H1 H2 Hd1 Hd2 Hn Hp Heq.
    destruct (Hg b1 H1 Hd1) as [c1 [_ [Hp1 Hid1]]].
    destruct (Hg b2 H2 Hd2) as [c2 [_ [Hp2 Hid2]]].
    apply Hp. rewrite Hp1, Hp2. f_equal.
    rewrite Hid1, Hid2, Hn in Heq. apply append_inv_tail in Heq. exact Heq.
  - intros b1 b2 H1 H2 Hd1 Hd2 Hp Hn Heq.
    destruct (Hg b1 H1 Hd1) as [c1 [_ [Hp1 Hid1]]].
    destruct (Hg b2 H2 Hd2) as [c2 [_ [Hp2 Hid2]]].
    apply Hn. rewrite Hp1, Hp2 in Hp. injection Hp as Hp.
    rewrite Hid1, Hid2, Hp in Heq.
    apply append_inv_head in Heq. apply append_inv_head in Heq. exact Heq.
Qed.

(** The ids of a layout, in output order. *)
Lemma layout_ids (focus : TreeNode) (side : R) :
  exists lay,
    computeBubblePackingLayout focus side = Some lay /\
    map id (nodes lay) =
    t_name focus
    :: map t_name (childrenOf focus)
    ++ flat_map (fun c => map (fun g => (t_name c ++ "::" ++ t_name g)%string)
                              (childrenOf c))
                (childrenOf focus).
Proof.
  destruct (layout_shape focus side) as [blocks [Hlay Hblocks]].
  destruct (blocks_facts focus side _ _ Hblocks) as [_ [_ Hids]].
  eexists. split; [exact Hlay|]. cbn [nodes map parentPlaced id]. f_equal.
  rewrite map_app, Hids, <- (placedChildren_data focus side), !map_map.
  f_equal.
  - apply map_ext_in. intros ch Hch.
    apply (placedChildren_id_name focus side ch Hch).
  - rewrite !flat_map_concat_map, map_map. f_equal.
    apply map_ext_in. intros ch Hch.
    destruct (placedChildren_id_name focus side ch Hch) as [-> _]. reflexivity.
Qed.

(** C9 (as stated, refuted). The child named "A::X" and the grandchild X of
    the child A both get the id "A::X". *)
Lemma child_and_grandchild_share_an_id :
  exists lay,
    computeBubblePackingLayout clashingFocus 600 = Some lay /\
    map id (nodes lay) = ["F"; "A"; "A::X"; "A::X"]%string /\
    ~ NoDup (map id (nodes lay)).
Proof.
  destruct (layout_ids clashingFocus 600) as [lay [Hlay Hids]].
  exists lay. split; [exact Hlay|]. simpl in Hids. split; [exact Hids|].
  rewrite Hids. intros Hnd.
  inversion Hnd as [|? ? _ Hnd1]; subst.
  inversion Hnd1 as [|? ? _ Hnd2]; subst.
  inversion Hnd2 as [|? ? Hnot _]; subst.
  apply Hnot. left; reflexivity.
Qed.

(** *** Numeric facts *)

Lemma clamp_ge_min (v lo hi : R) : lo <= clamp v lo hi.
Proof. unfold clamp. apply Rmax_l. Qed.

Lemma clamp_le_max (v lo hi : R) : lo <= hi -> clamp v lo hi <= hi.
Proof.
  intros H. unfold clamp. apply Rmax_lub; [exact H|apply Rmin_l].
Qed.

Lemma PI_gt_3 : 3 < PI.
Proof. pose proof PI2_3_2. lra. Qed.

Lemma fold_max_ge_init (l : list ChildInfo) :
  forall m, m <= fold_left (fun m it => Rmax m (ci_r it)) l m.
Proof.
  induction l as [|it l IH]; intros m; simpl; [lra|].
  eapply Rle_trans; [apply (Rmax_l m (ci_r it))|apply IH].
Qed.

Lemma fold_max_ge_each (l : list ChildInfo) :
  forall m it, In it l -> ci_r it <= fold_left (fun m it => Rmax m (ci_r it)) l m.
Proof.
  induction l as [|a l IH]; intros m it; simpl; [intros []|].
  intros [->|Hin].
  - eapply Rle_trans; [apply (Rmax_r m (ci_r it))|apply fold_max_ge_init].
  - apply IH, Hin.
Qed.

Lemma orZero_id (v : R) : orZero v = v.
Proof. unfold orZero. destruct (Req_dec_T v 0) as [->|_]; reflexivity. Qed.

Lemma rParent_ge (side : R) : 40 <= rParent side.
Proof. apply clamp_ge_min. Qed.

Lemma gapC_ge (side : R) : 6 <= gapC side.
Proof. apply clamp_ge_min. Qed.

Lemma gapG_ge (side : R) : 4 <= gapG side.
Proof. apply clamp_ge_min. Qed.

Lemma minGrandR_ge (side : R) : 13 <= minGrandR side.
Proof. apply clamp_ge_min. Qed.

Lemma arcSpan_pos : 0 < arcSpan.
Proof. unfold arcSpan. pose proof PI_gt_3. lra. Qed.

Lemma baseRing_ge (focus : TreeNode) (side : R) : 68 <= baseRing focus side.
Proof.
  unfold baseRing. rewrite orZero_id.
  pose proof (rParent_ge side).
  pose proof (fold_max_ge_init (childInfo focus side) 0). lra.
Qed.

Lemma ringR_ge (focus : TreeNode) (side : R) : 68 <= ringR focus side.
Proof.
  unfold ringR. eapply Rle_trans; [apply baseRing_ge|apply Rmax_l].
Qed.

Lemma ringCirc_pos (focus : TreeNode) (side : R) : 0 < ringCirc focus side.
Proof.
  unfold ringCirc. pose proof PI_gt_3. pose proof (ringR_ge focus side). nra.
Qed.

Lemma ringGminFor_pos (side : R) (ch : ChildPlaced) (N : nat) (rG : R) :
  (0 < N)%nat -> 0 < rG -> 0 < ringGminFor side ch N rG.
Proof.
  intros HN HrG. unfold ringGminFor.
  eapply Rlt_le_trans; [|apply Rmax_l].
  pose proof (gapG_ge side). pose proof arcSpan_pos.
  assert (HNr : 1 <= INR N) by (apply (le_INR 1); lia).
  apply Rdiv_lt_0_compat; [nra|assumption].
Qed.

(** The ring of the grandchildren: the radius [rG] is at least 6 and the
    ring radius is the lower bound [ringGmin] computed for it. *)
Lemma grandRing_spec (focus : TreeNode) (side : R) (ch : ChildPlaced) (N : nat)
      (rG ringG : R) :
  (0 < N)%nat ->
  grandRing focus side ch N = Some (rG, ringG) ->
  6 <= rG /\ ringG = ringGminFor side ch N rG /\ 0 < ringG.
Proof.
  intros HN. unfold grandRing.
  assert (Hfinal : forall rG0 ringGmax,
             6 <= rG0 ->
             Some (rG0,
                   match ringGmax with
                   | Infinity => Rmax (ringGminFor side ch N rG0) 0
                   | Finite m => Rmin (Rmax (ringGminFor side ch N rG0) 0)
                                      (Rmax m (ringGminFor side ch N rG0))
                   end) = Some (rG, ringG) ->
             6 <= rG /\ ringG = ringGminFor side ch N rG /\ 0 < ringG).
  { intros rG0 cap H6 [= <- <-].
    assert (Hpos : 0 < ringGminFor side ch N rG0)
      by (apply ringGminFor_pos; [exact HN|lra]).
    split; [exact H6|].
    assert (E : Rmax (ringGminFor side ch N rG0) 0 = ringGminFor side ch N rG0)
      by (apply Rmax_left; lra).
    destruct cap as [|m]; rewrite E; [split; [reflexivity|exact Hpos]|].
    rewrite Rmin_left by apply Rmax_r. split; [reflexivity|exact Hpos]. }
  pose proof (minGrandR_ge side) as H13.
  destruct (neighborRingCap focus side ch (minGrandR side)) as [[|m]|];
    [apply (Hfinal _ Infinity); lra| |discriminate].
  destruct (Rltb m (ringGminFor side ch N (minGrandR side)) && Rltb 0 m).
  - destruct (neighborRingCap focus side ch _) as [cap|]; [|discriminate].
    apply (Hfinal _ cap). apply Rmax_l.
  - apply (Hfinal _ (Finite m)). lra.
Qed.

(** C7. For every focus node and every canvas side >= 0 the layout is
    returned (no property of [undefined] is read); every divisor of the
    routine is positive: 2*PI, the circumference of the child ring, the arc
    span, and for each child with grandchildren the first lower bound
    [ringGmin] and the final ring radius [ringG]; a focus without children
    yields the focus bubble alone; a child without grandchildren gets no
    depth-2 bubble. *)
Theorem layout_total_and_divisors_positive (focus : TreeNode) (side : R) :
  0 <= side ->
  (exists lay, computeBubblePackingLayout focus side = Some lay) /\
  0 < 2 * PI /\
  0 < ringCirc focus side /\
  0 < arcSpan /\
  (forall ch N,
      In ch (placedChildren focus side) -> (0 < N)%nat ->
      0 < ringGminFor side ch N (minGrandR side) /\
      exists rG ringG,
        grandRing focus side ch N = Some (rG, ringG) /\ 0 < ringG) /\
  (childrenOf focus = [] ->
   computeBubblePackingLayout focus side =
   Some (mkLayout [parentPlaced focus side] side)) /\
  (forall ch,
      In ch (placedChildren focus side) ->
      childrenOf (data (bubble ch)) = [] ->
      placeGrandchildren focus side ch = Some []).
Proof.
  intros _. split; [|split; [|split; [|split; [|split; [|split]]]]].
  - destruct (layout_shape focus side) as [blocks [Hlay _]]. eauto.
  - pose proof PI_gt_3. lra.
  - apply ringCirc_pos.
  - apply arcSpan_pos.
  - intros ch N _ HN. split.
    + apply ringGminFor_pos; [exact HN|]. pose proof (minGrandR_ge side). lra.
    + destruct (grandRing_total focus side ch N) as [rG [ringG Hg]].
      exists rG, ringG. split; [exact Hg|].
      apply (grandRing_spec focus side ch N rG ringG HN Hg).
  - intros Hnil. unfold computeBubblePackingLayout, placedGrandchildren,
      placedChildren, childInfo, children. rewrite Hnil. reflexivity.
  - intros ch _ Hnil. unfold placeGrandchildren. rewrite Hnil. reflexivity.
Qed.

(** C7 at the Kusama focus on a canvas of side 0. *)
Lemma layout_total_and_divisors_positive_witness :
  0 <= 0 /\
  ((exists lay, computeBubblePackingLayout kusamaFocus 0 = Some lay) /\
   0 < 2 * PI /\
   0 < ringCirc kusamaFocus 0 /\
   0 < arcSpan /\
   (forall ch N,
       In ch (placedChildren kusamaFocus 0) -> (0 < N)%nat ->
       0 < ringGminFor 0 ch N (minGrandR 0) /\
       exists rG ringG,
         grandRing kusamaFocus 0 ch N = Some (rG, ringG) /\ 0 < ringG) /\
   (childrenOf kusamaFocus = [] ->
    computeBubblePackingLayout kusamaFocus 0 =
    Some (mkLayout [parentPlaced kusamaFocus 0] 0)) /\
   (forall ch,
       In ch (placedChildren kusamaFocus 0) ->
       childrenOf (data (bubble ch)) = [] ->
       placeGrandchildren kusamaFocus 0 ch = Some [])).
Proof.
  assert (H : 0 <= 0) by lra.
  split; [exact H|]. exact (layout_total_and_divisors_positive kusamaFocus 0 H).
Defined.

(** *** Geometry of the grandchild arcs *)

Lemma placedChildren_on_ring (focus : TreeNode) (side : R) (ch : ChildPlaced) :
  In ch (placedChildren focus side) ->
  x (bubble ch) = cx side + ringR focus side * cos (angle ch) /\
  y (bubble ch) = cy side + ringR focus side * sin (angle ch).
Proof.
  unfold placedChildren. generalize 0, (childInfo focus side).
  intros theta l. revert theta.
  induction l as [|it l IH]; intros theta; simpl; [intros []|].
  intros [<-|Hin]; [simpl; split; reflexivity|]. eapply IH, Hin.
Qed.

Lemma arcBubbles_In (ch : ChildPlaced) (rG ringG t0 st : R) (gs : list TreeNode)
      (b : PlacedBubble) :
  forall i0,
    In b (arcBubbles ch rG ringG t0 st i0 gs) ->
    exists i,
      (i0 <= i < i0 + List.length gs)%nat /\
      x b = x (bubble ch) + ringG * cos (t0 + INR i * st) /\
      y b = y (bubble ch) + ringG * sin (t0 + INR i * st).
Proof.
  induction gs as [|g gs IH]; intros i0; simpl; [intros []|].
  intros [<-|Hin].
  - exists i0. simpl. split; [lia|]. split; reflexivity.
  - destruct (IH (S i0) Hin) as [i [Hi Hxy]]. exists i. split; [lia|exact Hxy].
Qed.

(** A point at distance [rho] from a point of the ring, in a direction less
    than a quarter turn away from the outward one, is farther from the
    centre than the ring. *)
Lemma outward_is_farther (R0 rho alpha theta : R) :
  0 < R0 -> 0 < rho -> Rabs (theta - alpha) < PI / 2 ->
  R0 * R0 <
  (R0 * cos alpha + rho * cos theta) * (R0 * cos alpha + rho * cos theta)
  + (R0 * sin alpha + rho * sin theta) * (R0 * sin alpha + rho * sin theta).
Proof.
  intros HR Hrho Hang.
  assert (Hcos : 0 < cos (theta - alpha)).
  { apply Rabs_def2 in Hang. apply cos_gt_0; lra. }
  rewrite cos_minus in Hcos.
  pose proof (sin2_cos2 alpha) as Ha. pose proof (sin2_cos2 theta) as Ht.
  unfold Rsqr in Ha, Ht.
  set (ca := cos alpha) in *. set (sa := sin alpha) in *.
  set (ct := cos theta) in *. set (st := sin theta) in *.
  replace ((R0 * ca + rho * ct) * (R0 * ca + rho * ct)
           + (R0 * sa + rho * st) * (R0 * sa + rho * st))
    with (R0 * R0 * (sa * sa + ca * ca) + rho * rho * (st * st + ct * ct)
          + 2 * (R0 * rho) * (ct * ca + st * sa)) by ring.
  rewrite Ha, Ht.
  assert (0 < R0 * rho) by (apply Rmult_lt_0_compat; assumption).
  assert (0 < rho * rho) by (apply Rmult_lt_0_compat; assumption).
  assert (0 < (R0 * rho) * (ct * ca + st * sa))
    by (apply Rmult_lt_0_compat; assumption).
  lra.
Qed.

Lemma hypot_ring (R0 alpha : R) :
  0 <= R0 -> hypot (R0 * cos alpha) (R0 * sin alpha) = R0.
Proof.
  intros HR. unfold hypot.
  replace (R0 * cos alpha * (R0 * cos alpha) + R0 * sin alpha * (R0 * sin alpha))
    with (R0 * R0 * ((sin alpha)² + (cos alpha)²)) by (unfold Rsqr; ring).
  rewrite sin2_cos2, Rmult_1_r. apply sqrt_square, HR.
Qed.

(** C3. For every focus node and every positive canvas side, each depth-2
    bubble sits at some distance [ringG > 0] from the centre of its owning
    child, in a direction [theta] that differs by less than half the
    150-degree span from the direction [alpha] in which the child lies from
    the canvas centre; it is farther from the canvas centre than the child
    and does not lie strictly between the canvas centre and the child. *)
Theorem grandchildren_on_outward_arc (focus : TreeNode) (side : R) :
  0 < side ->
  exists lay,
    computeBubblePackingLayout focus side = Some lay /\
    forall g, In g (nodes lay) -> depth g = 2%nat ->
      exists c ringG theta alpha,
        In c (nodes lay) /\ depth c = 1%nat /\ parentId g = Some (id c) /\
        0 < ringR focus side /\ 0 < ringG /\
        x c = cx side + ringR focus side * cos alpha /\
        y c = cy side + ringR focus side * sin alpha /\
        x g = x c + ringG * cos theta /\
        y g = y c + ringG * sin theta /\
        Rabs (theta - alpha) < (150 * PI / 180) / 2 /\
        hypot (x c - cx side) (y c - cy side)
        < hypot (x g - cx side) (y g - cy side) /\
        ~ strictlyBetween (cx side) (cy side) (x c) (y c) (x g) (y g).
Proof.
  intros _.
  destruct (layout_shape focus side) as [blocks [Hlay Hblocks]].
  eexists. split; [exact Hlay|]. intros g Hin Hd.
  destruct (node_cases focus side _ g Hlay Hin)
    as [->|[[ch [Hch ->]]|[ch [block [gn [Hch [Hpg [Hgin [_ [_ [_ [_ Hpar]]]]]]]]]]]].
  { discriminate Hd. }
  { destruct (placedChildren_id_name focus side ch Hch) as [_ [_ [Hd1 _]]].
    rewrite Hd1 in Hd. discriminate Hd. }
  destruct (placeGrandchildren_shape focus side ch)
    as [block' [Hpg' [[_ ->]|[Hne [rG [ringG [Hring ->]]]]]]];
    rewrite Hpg in Hpg'; injection Hpg' as ->; [destruct Hgin|].
  set (N := List.length (childrenOf (data (bubble ch)))) in *.
  assert (HN : (0 < N)%nat).
  { unfold N. destruct (childrenOf (data (bubble ch))); [congruence|simpl; lia]. }
  destruct (grandRing_spec focus side ch N rG ringG HN Hring) as [H6 [HringG Hpos]].
  set (st := (2 * rG + gapG side) / ringG) in *.
  destruct (arcBubbles_In _ _ _ _ _ _ _ _ Hgin) as [i [Hi [Hx Hy]]].
  set (theta := angle ch - (INR N - 1) * st / 2 + INR i * st) in *.
  destruct (placedChildren_on_ring focus side ch Hch) as [Hcx Hcy].
  pose proof (ringR_ge focus side) as HR.
  (* the angular step times the number of grandchildren fits the arc *)
  assert (Hst : 0 < st /\ INR N * st <= arcSpan).
  { pose proof (gapG_ge side) as Hgap. pose proof arcSpan_pos as Harc.
    assert (Hnum : 0 < 2 * rG + gapG side) by lra.
    split; [apply Rdiv_lt_0_compat; assumption|].
    assert (Hge : INR N * (2 * rG + gapG side) / arcSpan <= ringG).
    { rewrite HringG. unfold ringGminFor. apply Rmax_l. }
    assert (HA : INR N * (2 * rG + gapG side) <= ringG * arcSpan).
    { replace (INR N * (2 * rG + gapG side))
        with (INR N * (2 * rG + gapG side) / arcSpan * arcSpan) by (field; lra).
      apply Rmult_le_compat_r; lra. }
    assert (HB : INR N * st * ringG = INR N * (2 * rG + gapG side))
      by (unfold st; field; lra).
    apply Rmult_le_reg_r with ringG; [exact Hpos|lra]. }
  destruct Hst as [Hst0 HstN].
  assert (Hi0 : 0 <= INR i) by apply pos_INR.
  assert (HiN : INR i <= INR N - 1).
  { assert (H : (i + 1 <= N)%nat) by (unfold N; lia).
    apply le_INR in H. rewrite plus_INR in H. simpl in H. lra. }
  assert (Hang : Rabs (theta - angle ch) < (150 * PI / 180) / 2).
  { unfold arcSpan in HstN. apply Rabs_def1; unfold theta; nra. }
  assert (Hquarter : Rabs (theta - angle ch) < PI / 2).
  { pose proof PI_gt_3. lra. }
  assert (Hfar : ringR focus side * ringR focus side <
                 (x g - cx side) * (x g - cx side) + (y g - cy side) * (y g - cy side)).
  { rewrite Hx, Hy, Hcx, Hcy.
    replace (cx side + ringR focus side * cos (angle ch) + ringG * cos theta - cx side)
      with (ringR focus side * cos (angle ch) + ringG * cos theta) by ring.
    replace (cy side + ringR focus side * sin (angle ch) + ringG * sin theta - cy side)
      with (ringR focus side * sin (angle ch) + ringG * sin theta) by ring.
    apply outward_is_farther; [lra|exact Hpos|exact Hquarter]. }
  assert (Hc : hypot (x (bubble ch) - cx side) (y (bubble ch) - cy side)
               = ringR focus side).
  { rewrite Hcx, Hcy.
    replace (cx side + ringR focus side * cos (angle ch) - cx side)
      with (ringR focus side * cos (angle ch)) by ring.
    replace (cy side + ringR focus side * sin (angle ch) - cy side)
      with (ringR focus side * sin (angle ch)) by ring.
    apply hypot_ring. lra. }
  exists (bubble ch), ringG, theta, (angle ch).
  split; [cbn [nodes]; right; apply in_app_iff; left; apply in_map, Hch|].
  split; [apply (placedChildren_id_name focus side ch Hch)|].
  split; [exact Hpar|]. split; [lra|]. split; [exact Hpos|].
  split; [exact Hcx|]. split; [exact Hcy|]. split; [exact Hx|]. split; [exact Hy|].
  split; [exact Hang|]. split.
  - rewrite Hc. unfold hypot.
    rewrite <- (sqrt_square (ringR focus side)) at 1 by lra.
    apply sqrt_lt_1_alt. split; [nra|exact Hfar].
  - intros [t [Ht [Hgx Hgy]]].
    assert (Hsq : (x (bubble ch) - cx side) * (x (bubble ch) - cx side)
                  + (y (bubble ch) - cy side) * (y (bubble ch) - cy side)
                  = ringR focus side * ringR focus side).
    { unfold hypot in Hc. apply sqrt_lem_0 in Hc; [lra|nra|lra]. }
    replace (x g - cx side) with (t * (x (bubble ch) - cx side)) in Hfar
      by (rewrite Hgx; ring).
    replace (y g - cy side) with (t * (y (bubble ch) - cy side)) in Hfar
      by (rewrite Hgy; ring).
    assert (Ht2 : t * t < 1) by nra.
    assert (Hr2 : 0 < ringR focus side * ringR focus side) by nra.
    nra.
Qed.

(** C3 at the Kusama focus on a canvas of side 600. *)
Lemma grandchildren_on_outward_arc_witness :
  0 < 600 /\
  exists lay,
    computeBubblePackingLayout kusamaFocus 600 = Some lay /\
    forall g, In g (nodes lay) -> depth g = 2%nat ->
      exists c ringG theta alpha,
        In c (nodes lay) /\ depth c = 1%nat /\ parentId g = Some (id c) /\
        0 < ringR kusamaFocus 600 /\ 0 < ringG /\
        x c = cx 600 + ringR kusamaFocus 600 * cos alpha /\
        y c = cy 600 + ringR kusamaFocus 600 * sin alpha /\
        x g = x c + ringG * cos theta /\
        y g = y c + ringG * sin theta /\
        Rabs (theta - alpha) < (150 * PI / 180) / 2 /\
        hypot (x c - cx 600) (y c - cy 600)
        < hypot (x g - cx 600) (y g - cy 600) /\
        ~ strictlyBetween (cx 600) (cy 600) (x c) (y c) (x g) (y g).
Proof.
  assert (H : 0 < 600) by lra.
  split; [exact H|]. exact (grandchildren_on_outward_arc kusamaFocus 600 H).
Defined.

(** *** The child ring *)

Lemma clamp_at_max (v lo hi : R) : lo <= hi -> hi <= v -> clamp v lo hi = hi.
Proof.
  intros H1 H2. unfold clamp. rewrite Rmin_left by exact H2.
  apply Rmax_right, H1.
Qed.

Lemma sin_poly (a : R) :
  0 <= a -> a <= PI -> sin a <= a - a ^ 3 / 6 + a ^ 5 / 120.
Proof.
  intros H0 H1. destruct (sin_bound a 0 H0 H1) as [_ H].
  unfold sin_approx, sin_term in H. simpl in H. lra.
Qed.

(** The chord between two points of a circle of radius [R0]. *)
Lemma chord (R0 u v : R) :
  0 <= R0 -> 0 <= (v - u) / 2 <= PI ->
  hypot (R0 * cos u - R0 * cos v) (R0 * sin u - R0 * sin v)
  = 2 * R0 * sin ((v - u) / 2).
Proof.
  intros HR Hh. unfold hypot.
  assert (Hs : 0 <= sin ((v - u) / 2)) by (apply sin_ge_0; lra).
  rewrite <- (sqrt_square (2 * R0 * sin ((v - u) / 2))) by nra.
  f_equal.
  pose proof (cos_minus v u) as Hc.
  replace (v - u) with (2 * ((v - u) / 2)) in Hc at 1 by field.
  rewrite cos_2a_sin in Hc.
  pose proof (sin2_cos2 u) as Hu. pose proof (sin2_cos2 v) as Hv.
  unfold Rsqr in Hu, Hv.
  set (s := sin ((v - u) / 2)) in *.
  set (cu := cos u) in *. set (su := sin u) in *.
  set (cv := cos v) in *. set (sv := sin v) in *.
  replace ((R0 * cu - R0 * cv) * (R0 * cu - R0 * cv)
           + (R0 * su - R0 * sv) * (R0 * su - R0 * sv))
    with (R0 * R0 * ((su * su + cu * cu) + (sv * sv + cv * cv)
                     - 2 * (cv * cu + sv * su))) by ring.
  rewrite Hu, Hv, <- Hc. ring.
Qed.

Lemma FOP_with_Forall {A : Type} (P : A -> A -> Prop) (Q : A -> Prop) (l : list A) :
  ForallOrdPairs P l -> Forall Q l ->
  ForallOrdPairs (fun a b => P a b /\ Q a /\ Q b) l.
Proof.
  induction 1 as [|a l Ha Hl IH]; intros HQ; [constructor|].
  inversion HQ as [|? ? Hqa Hql]; subst.
  constructor; [|apply IH, Hql].
  rewrite Forall_forall in *. intros b Hb. split; [apply Ha, Hb|].
  split; [exact Hqa|apply Hql, Hb].
Qed.

Lemma FOP_impl {A : Type} (P P' : A -> A -> Prop) (l : list A) :
  (forall a b, P a b -> P' a b) -> ForallOrdPairs P l -> ForallOrdPairs P' l.
Proof.
  intros Himp. induction 1 as [|a l Ha Hl IH]; constructor; [|exact IH].
  revert Ha. apply Forall_impl. intros b. apply Himp.
Qed.

Lemma circumferenceNeeded_sum (focus : TreeNode) (side : R) :
  circumferenceNeeded focus side = sumArc side (childInfo focus side).
Proof.
  unfold circumferenceNeeded, sumArc.
  assert (H : forall l a,
             fold_left (fun acc it => acc + (2 * ci_r it + gapC side)) l a =
             a + fold_right (fun it acc => 2 * ci_r it + gapC side + acc) 0 l).
  { induction l as [|it l IH]; intros a; simpl; [lra|]. rewrite IH. lra. }
  rewrite H. lra.
Qed.

Lemma sumArc_nonneg (side : R) (l : list ChildInfo) :
  Forall (fun it => 0 <= ci_r it) l -> 0 <= sumArc side l.
Proof.
  pose proof (gapC_ge side). induction 1 as [|it l Hit Hl IH]; simpl; lra.
Qed.

Lemma childInfo_r_nonneg (focus : TreeNode) (side : R) :
  0 <= side -> Forall (fun it => 0 <= ci_r it) (childInfo focus side).
Proof.
  intros Hs. unfold childInfo. apply Forall_forall. intros it Hin.
  apply in_map_iff in Hin. destruct Hin as [c [<- _]]. simpl.
  eapply Rle_trans; [|apply clamp_ge_min]. lra.
Qed.

Lemma clamp_inside (v lo hi : R) : lo <= v -> v <= hi -> clamp v lo hi = v.
Proof.
  intros H1 H2. unfold clamp. rewrite Rmin_right by exact H2.
  apply Rmax_right, H1.
Qed.

(** With exactly two children, the distance between the two child centres
    is the chord of the ring under the arc [r1 + r2 + gapC]. *)
Lemma two_children_distance (focus : TreeNode) (side : R) (c1 c2 : TreeNode) :
  0 <= side ->
  childrenOf focus = [c1; c2] ->
  exists lay b1 b2,
    computeBubblePackingLayout focus side = Some lay /\
    nth_error (nodes lay) 1 = Some b1 /\ nth_error (nodes lay) 2 = Some b2 /\
    depth b1 = 1%nat /\ depth b2 = 1%nat /\
    r b1 = clamp (side * 0.06 + INR (List.length (childrenOf c1)) * (side * 0.005))
                 (side * 0.05) (side * 0.12) /\
    r b2 = clamp (side * 0.06 + INR (List.length (childrenOf c2)) * (side * 0.005))
                 (side * 0.05) (side * 0.12) /\
    hypot (x b1 - x b2) (y b1 - y b2)
    = 2 * ringR focus side
      * sin ((r b1 + r b2 + gapC side) / (2 * ringR focus side)).
Proof.
  intros Hside Hcs.
  destruct (layout_shape focus side) as [blocks [Hlay _]].
  pose proof (ringR_ge focus side) as HR. pose proof PI_gt_3 as Hpi.
  pose proof (gapC_ge side) as Hgap.
  pose proof (childInfo_r_nonneg focus side Hside) as Hnn.
  assert (Hfit : circumferenceNeeded focus side <= 2 * PI * ringR focus side).
  { assert (H : circumferenceNeeded focus side / (2 * PI) <= ringR focus side)
      by apply Rmax_r.
    replace (circumferenceNeeded focus side)
      with (circumferenceNeeded focus side / (2 * PI) * (2 * PI)) by (field; lra).
    nra. }
  revert Hlay Hnn Hfit.
  unfold placedChildren, circumferenceNeeded, childInfo, children. rewrite Hcs.
  cbn [map placeChildren fold_left ci_r ci_node bubble].
  set (r1 := clamp (side * 0.06 + INR (List.length (childrenOf c1)) * (side * 0.005))
                   (side * 0.05) (side * 0.12)).
  set (r2 := clamp (side * 0.06 + INR (List.length (childrenOf c2)) * (side * 0.005))
                   (side * 0.05) (side * 0.12)).
  intros Hlay Hnn Hfit.
  inversion Hnn as [|? ? H1 Hnn']; subst. inversion Hnn' as [|? ? H2 _]; subst.
  cbn [ci_r] in H1, H2. fold r1 in H1. fold r2 in H2.
  eexists. eexists. eexists. split; [exact Hlay|].
  cbn [nodes app nth_error]. split; [reflexivity|]. split; [reflexivity|].
  cbn [depth r x y]. split; [reflexivity|]. split; [reflexivity|].
  split; [reflexivity|]. split; [reflexivity|].
  set (u := 0 + (2 * r1 + gapC side) / ringCirc focus side * 2 * PI / 2).
  set (v := 0 + (2 * r1 + gapC side) / ringCirc focus side * 2 * PI
            + (2 * r2 + gapC side) / ringCirc focus side * 2 * PI / 2).
  replace (cx side + ringR focus side * cos u - (cx side + ringR focus side * cos v))
    with (ringR focus side * cos u - ringR focus side * cos v) by ring.
  replace (cy side + ringR focus side * sin u - (cy side + ringR focus side * sin v))
    with (ringR focus side * sin u - ringR focus side * sin v) by ring.
  assert (Hhalf : (v - u) / 2 = (r1 + r2 + gapC side) / (2 * ringR focus side)).
  { unfold u, v, ringCirc. field. lra. }
  assert (Hlo : 0 <= (r1 + r2 + gapC side) / (2 * ringR focus side)).
  { apply Rmult_le_pos; [lra|]. apply Rlt_le, Rinv_0_lt_compat. lra. }
  assert (Hhi : (r1 + r2 + gapC side) / (2 * ringR focus side) <= PI).
  { apply Rmult_le_reg_r with (2 * ringR focus side); [lra|].
    replace ((r1 + r2 + gapC side) / (2 * ringR focus side) * (2 * ringR focus side))
      with (r1 + r2 + gapC side) by (field; lra).
    nra. }
  rewrite chord by (rewrite ?Hhalf; lra).
  rewrite Hhalf. reflexivity.
Qed.

Lemma crowded_values :
  rParent 2000 = 120 /\ gapC 2000 = 16 /\
  clamp (2000 * 0.06 + INR 12 * (2000 * 0.005)) (2000 * 0.05) (2000 * 0.12) = 240.
Proof.
  split; [|split].
  - unfold rParent. apply clamp_at_max; lra.
  - unfold gapC. apply clamp_at_max; lra.
  - replace (INR 12) with 12 by (simpl; lra). rewrite clamp_at_max; lra.
Qed.

Lemma crowded_ringR : ringR crowdedFocus 2000 = 388.
Proof.
  destruct crowded_values as [HrP [Hgap Hr]].
  unfold ringR, baseRing, circumferenceNeeded, childInfo, children.
  rewrite orZero_id. cbn [crowdedFocus plainNode childrenOf t_children map
                          List.length fold_left ci_r].
  rewrite HrP, Hgap, Hr.
  rewrite (Rmax_right 0 240) by lra. rewrite (Rmax_left 240 240) by lra.
  rewrite Rmax_left; [lra|]. pose proof PI_gt_3.
  apply Rmult_le_reg_r with (2 * PI); [lra|].
  replace ((0 + (2 * 240 + 16) + (2 * 240 + 16)) / (2 * PI) * (2 * PI))
    with 992 by (field; lra).
  nra.
Qed.

(** C2 (as stated, refuted). On a canvas of side 2000, two children with
    twelve grandchildren each have radius 240 and sit on a ring of radius
    388; their centres are closer than the sum of their radii by more than
    10. *)
Lemma crowded_children_overlap :
  exists lay b1 b2,
    computeBubblePackingLayout crowdedFocus 2000 = Some lay /\
    nth_error (nodes lay) 1 = Some b1 /\ nth_error (nodes lay) 2 = Some b2 /\
    depth b1 = 1%nat /\ depth b2 = 1%nat /\
    r b1 = 240 /\ r b2 = 240 /\
    hypot (x b1 - x b2) (y b1 - y b2) + 10 < r b1 + r b2.
Proof.
  destruct crowded_values as [_ [Hgap Hr]].
  destruct (two_children_distance crowdedFocus 2000 _ _ ltac:(lra) eq_refl)
    as [lay [b1 [b2 [Hlay [Hn1 [Hn2 [Hd1 [Hd2 [Hr1 [Hr2 Hdist]]]]]]]]]].
  cbn [plainNode childrenOf t_children map List.length] in Hr1, Hr2.
  rewrite Hr in Hr1, Hr2.
  exists lay, b1, b2. repeat (split; [assumption|]).
  rewrite Hdist, Hr1, Hr2, Hgap, crowded_ringR.
  replace ((240 + 240 + 16) / (2 * 388)) with (62 / 97) by field.
  pose proof PI_gt_3.
  assert (Hs : sin (62 / 97) <= 62 / 97 - (62 / 97) ^ 3 / 6 + (62 / 97) ^ 5 / 120)
    by (apply sin_poly; lra).
  lra.
Qed.

Lemma crowded_values_1000 :
  rParent 1000 = 120 /\ gapC 1000 = 8 /\
  clamp (1000 * 0.06 + INR 12 * (1000 * 0.005)) (1000 * 0.05) (1000 * 0.12) = 120.
Proof.
  split; [|split].
  - unfold rParent. apply clamp_at_max; lra.
  - unfold gapC. rewrite clamp_inside; lra.
  - replace (INR 12) with 12 by (simpl; lra). rewrite clamp_at_max; lra.
Qed.

Lemma crowded_ringR_1000 : ringR crowdedFocus 1000 = 268.
Proof.
  destruct crowded_values_1000 as [HrP [Hgap Hr]].
  unfold ringR, baseRing, circumferenceNeeded, childInfo, children.
  rewrite orZero_id. cbn [crowdedFocus plainNode childrenOf t_children map
                          List.length fold_left ci_r].
  rewrite HrP, Hgap, Hr.
  rewrite (Rmax_right 0 120) by lra. rewrite (Rmax_left 120 120) by lra.
  rewrite Rmax_left; [lra|]. pose proof PI_gt_3.
  apply Rmult_le_reg_r with (2 * PI); [lra|].
  replace ((0 + (2 * 120 + 8) + (2 * 120 + 8)) / (2 * PI) * (2 * PI))
    with 496 by (field; lra).
  nra.
Qed.

(** The same two children already overlap on a canvas of side 1000: radius
    120 on a ring of radius 268, centres less than 239.3 apart. *)
Lemma crowded_children_overlap_1000 :
  exists lay b1 b2,
    computeBubblePackingLayout crowdedFocus 1000 = Some lay /\
    nth_error (nodes lay) 1 = Some b1 /\ nth_error (nodes lay) 2 = Some b2 /\
    depth b1 = 1%nat /\ depth b2 = 1%nat /\
    r b1 = 120 /\ r b2 = 120 /\
    hypot (x b1 - x b2) (y b1 - y b2) + 0.7 < r b1 + r b2.
Proof.
  destruct crowded_values_1000 as [_ [Hgap Hr]].
  destruct (two_children_distance crowdedFocus 1000 _ _ ltac:(lra) eq_refl)
    as [lay [b1 [b2 [Hlay [Hn1 [Hn2 [Hd1 [Hd2 [Hr1 [Hr2 Hdist]]]]]]]]]].
  cbn [plainNode childrenOf t_children map List.length] in Hr1, Hr2.
  rewrite Hr in Hr1, Hr2.
  exists lay, b1, b2. repeat (split; [assumption|]).
  rewrite Hdist, Hr1, Hr2, Hgap, crowded_ringR_1000.
  replace ((120 + 120 + 8) / (2 * 268)) with (31 / 67) by field.
  pose proof PI_gt_3.
  assert (Hs : sin (31 / 67) <= 31 / 67 - (31 / 67) ^ 3 / 6 + (31 / 67) ^ 5 / 120)
    by (apply sin_poly; lra).
  lra.
Qed.

(** The sweep of [theta] over the ring, in arc length. *)
Lemma placeChildren_sweep (focus : TreeNode) (side : R) (l : list ChildInfo) :
  Forall (fun it => 0 <= ci_r it) l ->
  forall theta,
    Forall (fun ch =>
              theta * ringR focus side + arcOf side ch / 2
              <= angle ch * ringR focus side /\
              angle ch * ringR focus side + arcOf side ch / 2
              <= theta * ringR focus side + sumArc side l)
           (placeChildren focus side theta l) /\
    ForallOrdPairs (fun ci cj =>
                      r (bubble ci) + r (bubble cj) + gapC side
                      <= ringR focus side * (angle cj - angle ci))
                   (placeChildren focus side theta l).
Proof.
  pose proof (ringR_ge focus side) as HR. pose proof PI_gt_3 as Hpi.
  pose proof (gapC_ge side) as Hgap.
  induction 1 as [|it l Hit Hl IH]; intros theta.
  - simpl. split; constructor.
  - cbn [placeChildren].
    set (arcLen := 2 * ci_r it + gapC side).
    assert (Harc : 0 <= arcLen) by (unfold arcLen; lra).
    set (delta := arcLen / ringCirc focus side * 2 * PI).
    assert (Hdelta : delta * ringR focus side = arcLen).
    { unfold delta, ringCirc. field. lra. }
    destruct (IH (theta + delta)) as [IHb IHp].
    pose proof (sumArc_nonneg side l Hl) as Hsum.
    assert (Htail : Forall (fun ch =>
                theta * ringR focus side + arcLen + arcOf side ch / 2
                <= angle ch * ringR focus side /\
                angle ch * ringR focus side + arcOf side ch / 2
                <= theta * ringR focus side + arcLen + sumArc side l)
              (placeChildren focus side (theta + delta) l)).
    { revert IHb. apply Forall_impl. intros ch [H1 H2].
      rewrite Rmult_plus_distr_r, Hdelta in H1, H2. split; lra. }
    split.
    + constructor.
      * unfold arcOf. cbn [angle bubble r sumArc fold_right]. fold (sumArc side l).
        fold arcLen. rewrite Rmult_plus_distr_r.
        replace (delta / 2 * ringR focus side) with (arcLen / 2) by lra.
        split; lra.
      * revert Htail. apply Forall_impl. intros ch [H1 H2].
        cbn [sumArc fold_right]. fold (sumArc side l). fold arcLen.
        unfold arcOf in *. rewrite Forall_forall in Hl.
        split; lra.
    + constructor; [|exact IHp].
      revert Htail. apply Forall_impl. intros ch [H1 _].
      cbn [angle bubble r]. unfold arcOf in H1.
      rewrite Rmult_minus_distr_l, Rmult_plus_distr_l.
      replace (ringR focus side * (delta / 2)) with (arcLen / 2) by lra.
      unfold arcLen in *. lra.
Qed.

Lemma placedChildren_r (focus : TreeNode) (side : R) (ch : ChildPlaced) :
  In ch (placedChildren focus side) ->
  exists it, In it (childInfo focus side) /\ r (bubble ch) = ci_r it.
Proof.
  intros Hin. unfold placedChildren in Hin.
  destruct (Forall2_In_r _ _ _ _ (placeChildren_bubbles focus side _ 0) Hin)
    as [it [Hit [_ [_ [_ [_ [Hr _]]]]]]].
  exists it. split; assumption.
Qed.

Lemma filter_depth_1 (focus : TreeNode) (side : R) (blocks : list (list PlacedBubble)) :
  Forall (fun b => depth b = 2%nat) (List.concat blocks) ->
  filter (fun b => Nat.eqb (depth b) 1)
         (parentPlaced focus side
          :: map bubble (placedChildren focus side) ++ List.concat blocks)
  = map bubble (placedChildren focus side).
Proof.
  intros H2. cbn [filter parentPlaced depth Nat.eqb]. rewrite filter_app.
  assert (E1 : forall l, Forall (fun b => depth b = 1%nat) l ->
                         filter (fun b => Nat.eqb (depth b) 1) l = l).
  { induction 1 as [|b l Hb Hl IH]; simpl; [reflexivity|].
    rewrite Hb, IH. reflexivity. }
  assert (E2 : forall l, Forall (fun b => depth b = 2%nat) l ->
                         filter (fun b => Nat.eqb (depth b) 1) l = []).
  { induction 1 as [|b l Hb Hl IH]; simpl; [reflexivity|].
    rewrite Hb, IH. reflexivity. }
  rewrite (E1 _ (children_depth focus side)), (E2 _ H2), app_nil_r. reflexivity.
Qed.

(** C2 (amended). For every focus node and every positive canvas side: the
    depth-1 bubbles are the placed children, each centred on the ring of
    radius [ringR] around the canvas centre; none overlaps the focus bubble
    (the centres are at least the two radii plus 28 apart); and any two of
    them are separated along the ring: the arc of the ring between their
    centres, in either direction, is at least the sum of their radii plus
    the gap [gapC].  (The straight-line distance of two children is not
    bounded below by the sum of their radii.) *)
Theorem children_clear_focus_and_keep_arc_distance (focus : TreeNode) (side : R) :
  0 < side ->
  exists lay,
    computeBubblePackingLayout focus side = Some lay /\
    filter (fun b => Nat.eqb (depth b) 1) (nodes lay)
    = map bubble (placedChildren focus side) /\
    (forall ch,
        In ch (placedChildren focus side) ->
        x (bubble ch) = cx side + ringR focus side * cos (angle ch) /\
        y (bubble ch) = cy side + ringR focus side * sin (angle ch) /\
        r (parentPlaced focus side) + r (bubble ch) + 28
        <= hypot (x (bubble ch) - x (parentPlaced focus side))
                 (y (bubble ch) - y (parentPlaced focus side))) /\
    ForallOrdPairs
      (fun ci cj =>
         r (bubble ci) + r (bubble cj) + gapC side
         <= ringR focus side * (angle cj - angle ci) /\
         r (bubble ci) + r (bubble cj) + gapC side
         <= ringR focus side * (2 * PI - (angle cj - angle ci)))
      (placedChildren focus side).
Proof.
  intros Hside.
  destruct (layout_shape focus side) as [blocks [Hlay Hblocks]].
  destruct (blocks_facts focus side _ _ Hblocks) as [_ [Hd2 _]].
  pose proof (ringR_ge focus side) as HR. pose proof PI_gt_3 as Hpi.
  eexists. split; [exact Hlay|]. split; [apply filter_depth_1, Hd2|]. split.
  - intros ch Hch. destruct (placedChildren_on_ring focus side ch Hch) as [Hx Hy].
    split; [exact Hx|]. split; [exact Hy|].
    cbn [parentPlaced r x y]. rewrite Hx, Hy.
    replace (cx side + ringR focus side * cos (angle ch) - cx side)
      with (ringR focus side * cos (angle ch)) by ring.
    replace (cy side + ringR focus side * sin (angle ch) - cy side)
      with (ringR focus side * sin (angle ch)) by ring.
    rewrite hypot_ring by lra.
    destruct (placedChildren_r focus side ch Hch) as [it [Hit ->]].
    eapply Rle_trans; [|apply Rmax_l]. unfold baseRing. rewrite orZero_id.
    pose proof (fold_max_ge_each (childInfo focus side) 0 it Hit). lra.
  - assert (Hnn : Forall (fun it => 0 <= ci_r it) (childInfo focus side))
      by (apply childInfo_r_nonneg; lra).
    destruct (placeChildren_sweep focus side _ Hnn 0) as [Hb Hp].
    fold (placedChildren focus side) in Hb, Hp.
    assert (Hfit : sumArc side (childInfo focus side) <= 2 * PI * ringR focus side).
    { rewrite <- circumferenceNeeded_sum.
      assert (H : circumferenceNeeded focus side / (2 * PI) <= ringR focus side)
        by apply Rmax_r.
      replace (circumferenceNeeded focus side)
        with (circumferenceNeeded focus side / (2 * PI) * (2 * PI)) by (field; lra).
      nra. }
    eapply FOP_impl; [|apply (FOP_with_Forall _ _ _ Hp Hb)].
    intros ci cj [Hsep [[Hi1 Hi2] [Hj1 Hj2]]]. split; [exact Hsep|].
    unfold arcOf in *. nra.
Qed.

(** C2 (amended) at the Kusama focus on a canvas of side 600. *)
Lemma children_clear_focus_and_keep_arc_distance_witness :
  0 < 600 /\
  exists lay,
    computeBubblePackingLayout kusamaFocus 600 = Some lay /\
    filter (fun b => Nat.eqb (depth b) 1) (nodes lay)
    = map bubble (placedChildren kusamaFocus 600) /\
    (forall ch,
        In ch (placedChildren kusamaFocus 600) ->
        x (bubble ch) = cx 600 + ringR kusamaFocus 600 * cos (angle ch) /\
        y (bubble ch) = cy 600 + ringR kusamaFocus 600 * sin (angle ch) /\
        r (parentPlaced kusamaFocus 600) + r (bubble ch) + 28
        <= hypot (x (bubble ch) - x (parentPlaced kusamaFocus 600))
                 (y (bubble ch) - y (parentPlaced kusamaFocus 600))) /\
    ForallOrdPairs
      (fun ci cj =>
         r (bubble ci) + r (bubble cj) + gapC 600
         <= ringR kusamaFocus 600 * (angle cj - angle ci) /\
         r (bubble ci) + r (bubble cj) + gapC 600
         <= ringR kusamaFocus 600 * (2 * PI - (angle cj - angle ci)))
      (placedChildren kusamaFocus 600).
Proof.
  assert (H : 0 < 600) by lra.
  split; [exact H|].
  exact (children_clear_focus_and_keep_arc_distance kusamaFocus 600 H).
Defined.

End RadialPackerFacts.

(** * Properties of the navigation *)

Module NavigationFacts.
Import TreeBuilder Navigation.

(** Induction on a tree, with the property available for every child. *)
Lemma tree_children_ind (P : TreeNode -> Prop) :
  (forall t, (forall c, In c (childrenOf t) -> P c) -> P t) ->
  forall t, P t.
Proof.
  intros step. fix IH 1. intros [n l p s v cs]. apply step.
  unfold childrenOf. cbn [t_children].
  destruct cs as [cs|]; [|intros c []].
  induction cs as [|c cs IHcs]; intros x Hx; [destruct Hx|].
  destruct Hx as [<-|Hin]; [apply IH | apply IHcs, Hin].
Qed.

Lemma descendants_children t : descendants t = forestNodes (childrenOf t).
Proof.
  destruct t as [n l p s v [cs|]]; [|reflexivity].
  unfold childrenOf. cbn [t_children descendants].
  induction cs as [|c cs IHcs]; [reflexivity|].
  rewrite IHcs. reflexivity.
Qed.

Lemma subtree_children t : subtree t = t :: forestNodes (childrenOf t).
Proof. unfold subtree. now rewrite descendants_children. Qed.

Lemma forestNodes_cons c cs : forestNodes (c :: cs) = subtree c ++ forestNodes cs.
Proof. reflexivity. Qed.

Lemma child_in_subtree t c : In c (childrenOf t) -> In c (descendants t).
Proof.
  rewrite descendants_children. intros Hin. unfold forestNodes.
  apply in_flat_map. exists c. split; [exact Hin | now left].
Qed.

Lemma subtree_trans t c x :
  In c (childrenOf t) -> In x (subtree c) -> In x (descendants t).
Proof.
  rewrite descendants_children. intros Hin Hx. unfold forestNodes.
  apply in_flat_map. exists c. split; [exact Hin | exact Hx].
Qed.

Lemma findNodeByName_eq t nm :
  findNodeByName t nm =
  if named nm t then Some t
  else firstFound (fun c => findNodeByName c nm) (childrenOf t).
Proof.
  destruct t as [n l p s v [cs|]]; unfold named, childrenOf; cbn;
    destruct (String.eqb n nm); reflexivity.
Qed.

Lemma dfs_eq target cur par :
  dfs target cur par =
  if named target cur then option_map t_name par
  else firstTruthy (fun c => dfs target c (Some cur)) (childrenOf cur).
Proof.
  destruct cur as [n l p s v [cs|]]; unfold named, childrenOf; cbn;
    destruct (String.eqb n target); reflexivity.
Qed.

Lemma find_app_split (p : TreeNode -> bool) l1 l2 :
  find p (l1 ++ l2) = match find p l1 with Some x => Some x | None => find p l2 end.
Proof.
  induction l1 as [|a l1 IH]; [reflexivity|]. cbn. destruct (p a); [reflexivity | exact IH].
Qed.

Lemma firstFound_forest nm cs :
  (forall c, In c cs -> findNodeByName c nm = find (named nm) (subtree c)) ->
  firstFound (fun c => findNodeByName c nm) cs = find (named nm) (forestNodes cs).
Proof.
  induction cs as [|c cs IH]; intros Hcs; [reflexivity|].
  rewrite forestNodes_cons, find_app_split. cbn [firstFound].
  rewrite (Hcs c (or_introl eq_refl)).
  destruct (find (named nm) (subtree c)); [reflexivity|].
  apply IH. intros x Hx. apply Hcs. now right.
Qed.

Lemma findNodeByName_first_in_preorder_aux t nm :
  findNodeByName t nm = find (named nm) (subtree t).
Proof.
  induction t as [t IH] using tree_children_ind.
  rewrite findNodeByName_eq, subtree_children. cbn [find].
  destruct (named nm t); [reflexivity|].
  apply firstFound_forest. exact IH.
Qed.

(** X1. [findNodeByName] returns the first node, in preorder from the root,
    whose name is the name asked for: a node it returns is a node of the
    tree and has that name, and it returns [null] exactly when no node of
    the tree has the name. *)
Theorem findNodeByName_first_in_preorder (root : TreeNode) (nm : string) :
  findNodeByName root nm = find (named nm) (subtree root) /\
  (forall nd, findNodeByName root nm = Some nd ->
              In nd (subtree root) /\ t_name nd = nm) /\
  (findNodeByName root nm = None <-> ~ In nm (map t_name (subtree root))).
Proof.
  assert (E : findNodeByName root nm = find (named nm) (subtree root)).
  { induction root as [t IH] using tree_children_ind.
    rewrite findNodeByName_eq, subtree_children. cbn [find].
    destruct (named nm t); [reflexivity|].
    apply firstFound_forest. exact IH. }
  split; [exact E|]. rewrite E. split.
  - intros nd H. apply find_some in H. destruct H as [Hin Hn].
    split; [exact Hin | now apply String.eqb_eq].
  - split.
    + intros Hnone Hin. apply in_map_iff in Hin. destruct Hin as (x & Hx & Hin).
      assert (H := find_none _ _ Hnone x Hin). unfold named in H.
      apply String.eqb_neq in H. contradiction.
    + intros Hno. destruct (find (named nm) (subtree root)) as [x|] eqn:Hf;
        [|reflexivity].
      apply find_some in Hf. destruct Hf as [Hin Hn]. exfalso. apply Hno.
      unfold named in Hn. apply String.eqb_eq in Hn. rewrite <- Hn.
      now apply in_map.
Qed.

Lemma forestNodes_app a b : forestNodes (a ++ b) = forestNodes a ++ forestNodes b.
Proof. unfold forestNodes. apply flat_map_app. Qed.

Lemma truthy_Some s : truthy (Some s) = negb (String.eqb s "").
Proof. destruct s; reflexivity. Qed.

Lemma truthy_nonempty r : truthy r = true -> exists s, r = Some s /\ s <> ""%string.
Proof.
  destruct r as [s|]; [|discriminate]. intros H. exists s. split; [reflexivity|].
  intros ->. discriminate.
Qed.

Lemma firstTruthy_truthy {A} (f : A -> option string) l s :
  firstTruthy f l = Some s -> truthy (Some s) = true.
Proof.
  induction l as [|c l IH]; [discriminate|]. cbn [firstTruthy].
  destruct (truthy (f c)) eqn:E; [|exact IH]. intros Hr. now rewrite <- Hr.
Qed.

Lemma firstTruthy_pick {A} (f : A -> option string) l s :
  firstTruthy f l = Some s ->
  exists pre c post, l = pre ++ c :: post /\ f c = Some s.
Proof.
  induction l as [|c l IH]; [discriminate|]. cbn [firstTruthy].
  destruct (truthy (f c)) eqn:E.
  - intros Hr. exists [], c, l. split; [reflexivity | exact Hr].
  - intros Hr. destruct (IH Hr) as (pre & c' & post & -> & Hc).
    exists (c :: pre), c', post. split; [reflexivity | exact Hc].
Qed.

Lemma firstTruthy_only {A} (f : A -> option string) pre c post :
  (forall x, In x pre -> f x = None) ->
  (forall x, In x post -> f x = None) ->
  firstTruthy f (pre ++ c :: post) = if truthy (f c) then f c else None.
Proof.
  intros Hpre Hpost. induction pre as [|a pre IH].
  - cbn [app firstTruthy]. destruct (truthy (f c)); [reflexivity|].
    clear - Hpost. induction post as [|b post IH]; [reflexivity|].
    cbn [firstTruthy]. rewrite (Hpost b (or_introl eq_refl)). cbn [truthy].
    apply IH. intros x Hx. apply Hpost. now right.
  - cbn [app firstTruthy]. rewrite (Hpre a (or_introl eq_refl)). cbn [truthy].
    apply IH. intros x Hx. apply Hpre. now right.
Qed.

Lemma firstTruthy_none {A} (f : A -> option string) l :
  (forall x, In x l -> f x = None) -> firstTruthy f l = None.
Proof.
  induction l as [|a l IH]; intros H; [reflexivity|].
  cbn [firstTruthy]. rewrite (H a (or_introl eq_refl)). cbn [truthy].
  apply IH. intros x Hx. apply H. now right.
Qed.

(** What a non-null result of the inner [dfs] is: the name of the node
    above [cur] when [cur] has the name, else the name of a node [q] of the
    tree below [cur] that has a child [c] of the name; [q] comes before [c]
    in preorder. *)
Lemma dfs_sound target cur :
  forall par s,
    dfs target cur par = Some s ->
    (named target cur = true /\ option_map t_name par = Some s) \/
    (named target cur = false /\ s <> ""%string /\
     exists l1 q l2 c l3,
       subtree cur = l1 ++ q :: l2 ++ c :: l3 /\ In c (childrenOf q) /\
       t_name q = s /\ named target c = true).
Proof.
  induction cur as [t IH] using tree_children_ind. intros par s.
  rewrite dfs_eq. destruct (named target t) eqn:Ht.
  - intros Hs. now left.
  - intros Hs. right. split; [reflexivity|].
    destruct (truthy_nonempty _ (firstTruthy_truthy _ _ _ Hs)) as (s' & [= <-] & Hne).
    split; [exact Hne|].
    destruct (firstTruthy_pick _ _ _ Hs) as (pre & c0 & post & Hcs & Hc0).
    assert (Hin : In c0 (childrenOf t)) by (rewrite Hcs; apply in_elt).
    rewrite subtree_children, Hcs, forestNodes_app, forestNodes_cons.
    destruct (IH c0 Hin _ _ Hc0) as [[Hn Hp] | (Hn & _ & l1 & q & l2 & c & l3 & Hsub & Hch & Hq & Hc)].
    + cbn [option_map] in Hp. injection Hp as Hp.
      exists [], t, (forestNodes pre), c0, (descendants c0 ++ forestNodes post).
      split; [|split; [exact Hin | split; [exact Hp | exact Hn]]].
      reflexivity.
    + exists (t :: forestNodes pre ++ l1), q, l2, c, (l3 ++ forestNodes post).
      split; [|split; [exact Hch | split; [exact Hq | exact Hc]]].
      rewrite Hsub. cbn [app]. f_equal. rewrite <- !app_assoc. cbn [app].
      f_equal. f_equal. now rewrite <- app_assoc.
Qed.

(** X3. A non-null result of [findParentName] is never the empty string;
    it is the name of a node of the tree that has a child of the target
    name, and the root itself does not have the target name. *)
Theorem findParentName_names_a_parent (root : TreeNode) (targetName p : string) :
  findParentName root targetName = Some p ->
  p <> ""%string /\ t_name root <> targetName /\
  exists q c,
    In q (subtree root) /\ In c (childrenOf q) /\
    t_name q = p /\ t_name c = targetName.
Proof.
  unfold findParentName. intros H.
  destruct (dfs_sound _ _ _ _ H) as [[_ Hp] | (Hn & Hne & l1 & q & l2 & c & l3 & Hsub & Hch & Hq & Hc)];
    [discriminate|].
  split; [exact Hne|]. split.
  - intros E. unfold named in Hn. apply String.eqb_neq in Hn. auto.
  - exists q, c.
    split; [|split; [exact Hch | split; [exact Hq | now apply String.eqb_eq]]].
    rewrite Hsub. apply in_elt.
Qed.

(** X3 at the node Style of the Kusama tree. *)
Lemma findParentName_names_a_parent_witness :
  findParentName kusamaTree "Style" = Some "Art"%string /\
  ("Art"%string <> ""%string /\ t_name kusamaTree <> "Style"%string /\
   exists q c,
     In q (subtree kusamaTree) /\ In c (childrenOf q) /\
     t_name q = "Art"%string /\ t_name c = "Style"%string).
Proof.
  assert (H : findParentName kusamaTree "Style" = Some "Art"%string) by reflexivity.
  split; [exact H|].
  exact (findParentName_names_a_parent kusamaTree "Style" "Art" H).
Defined.

Lemma names_apart (l1 l2 : list string) :
  NoDup (l1 ++ l2) -> forall a, In a l1 -> ~ In a l2.
Proof.
  induction l1 as [|b l1 IH]; intros Hnd a Ha; [destruct Ha|].
  cbn [app] in Hnd. inversion Hnd as [|? ? Hb Hnd']; subst.
  destruct Ha as [<-|Ha].
  - intros Hin. apply Hb. apply in_or_app. now right.
  - now apply IH.
Qed.

(** Distinct names in a tree: the subtrees of the children keep distinct
    names, and no name of one occurs in the node or under another child. *)
Lemma distinct_names_below t pre c0 post :
  childrenOf t = pre ++ c0 :: post ->
  NoDup (map t_name (subtree t)) ->
  NoDup (map t_name (subtree c0)) /\
  (forall x, In x (subtree c0) -> t_name x <> t_name t) /\
  (forall x y, In x (subtree c0) -> In y (forestNodes pre) -> t_name x <> t_name y) /\
  (forall x y, In x (subtree c0) -> In y (forestNodes post) -> t_name x <> t_name y).
Proof.
  intros Hcs. rewrite subtree_children, Hcs, forestNodes_app, forestNodes_cons.
  rewrite map_cons, !map_app. intros Hnd.
  apply NoDup_cons_iff in Hnd. destruct Hnd as [Ht Hnd'].
  assert (Hmid := NoDup_app_remove_l _ _ Hnd').
  split; [exact (NoDup_app_remove_r _ _ Hmid)|]. split; [|split].
  - intros x Hx E. apply Ht. rewrite <- E. apply in_or_app. right.
    apply in_or_app. left. now apply in_map.
  - intros x y Hx Hy E.
    apply (names_apart _ _ Hnd' (t_name y)); [now apply in_map|].
    rewrite <- E. apply in_or_app. left. now apply in_map.
  - intros x y Hx Hy E.
    apply (names_apart _ _ Hmid (t_name x)); [now apply in_map|].
    rewrite E. now apply in_map.
Qed.

Lemma dfs_absent target cur :
  (forall x, In x (subtree cur) -> named target x = false) ->
  forall par, dfs target cur par = None.
Proof.
  induction cur as [t IH] using tree_children_ind. intros Habs par.
  rewrite dfs_eq, (Habs t (or_introl eq_refl)).
  apply firstTruthy_none. intros c Hc. apply (IH c Hc).
  intros x Hx. apply Habs. right. exact (subtree_trans _ _ _ Hc Hx).
Qed.

Lemma absent_in_forest target cs cur :
  (forall y, In y (forestNodes cs) -> target <> t_name y) ->
  forall x, In x cs -> dfs target x (Some cur) = None.
Proof.
  intros Hno x Hx. apply dfs_absent. intros y Hy.
  unfold named. apply String.eqb_neq. intros E. apply (Hno y); [|now symmetry].
  unfold forestNodes. apply in_flat_map. exists x. split; assumption.
Qed.

(** With distinct names the inner [dfs] yields the name of the node the
    target hangs under, unless that name is empty. *)
Lemma subtree_child_closed t :
  forall q c, In q (subtree t) -> In c (childrenOf q) -> In c (descendants t).
Proof.
  induction t as [t IH] using tree_children_ind. intros q c [<-|Hq] Hc.
  - now apply child_in_subtree.
  - rewrite descendants_children in Hq. unfold forestNodes in Hq.
    apply in_flat_map in Hq. destruct Hq as (k & Hk & Hqk).
    apply (subtree_trans _ k); [exact Hk|]. right. exact (IH k Hk q c Hqk Hc).
Qed.

Lemma dfs_exact cur :
  NoDup (map t_name (subtree cur)) ->
  forall q c par,
    In q (subtree cur) -> In c (childrenOf q) ->
    dfs (t_name c) cur par =
    if String.eqb (t_name q) "" then None else Some (t_name q).
Proof.
  induction cur as [t IH] using tree_children_ind.
  intros Hnd q c par Hq Hc.
  assert (Hct : In c (descendants t)) by exact (subtree_child_closed _ _ _ Hq Hc).
  assert (Hnt : named (t_name c) t = false).
  { unfold named. apply String.eqb_neq. intros E.
    unfold subtree in Hnd. cbn [map] in Hnd. inversion Hnd as [|? ? Ht _]; subst.
    apply Ht. rewrite E. now apply in_map. }
  rewrite dfs_eq, Hnt.
  destruct Hq as [<-|Hq].
  - destruct (in_split _ _ Hc) as (pre & post & Hcs).
    destruct (distinct_names_below _ _ _ _ Hcs Hnd) as (_ & _ & Hpre & Hpost).
    rewrite Hcs, firstTruthy_only.
    + rewrite dfs_eq. unfold named at 1 2. rewrite String.eqb_refl. cbn [option_map].
      rewrite truthy_Some. now destruct (String.eqb (t_name t) "").
    + apply absent_in_forest. intros y Hy. apply Hpre; [now left | exact Hy].
    + apply absent_in_forest. intros y Hy. apply Hpost; [now left | exact Hy].
  - rewrite descendants_children in Hq. unfold forestNodes in Hq.
    apply in_flat_map in Hq. destruct Hq as (k & Hk & Hqk).
    destruct (in_split _ _ Hk) as (pre & post & Hcs).
    destruct (distinct_names_below _ _ _ _ Hcs Hnd) as (Hndk & _ & Hpre & Hpost).
    assert (Hck : In c (subtree k)) by (right; exact (subtree_child_closed _ _ _ Hqk Hc)).
    rewrite Hcs, firstTruthy_only.
    + rewrite (IH k Hk Hndk q c (Some t) Hqk Hc).
      destruct (String.eqb (t_name q) "") eqn:E; [reflexivity|].
      rewrite truthy_Some, E. reflexivity.
    + apply absent_in_forest. intros y Hy. apply Hpre; [exact Hck | exact Hy].
    + apply absent_in_forest. intros y Hy. apply Hpost; [exact Hck | exact Hy].
Qed.

(** *** The breadcrumb *)

Lemma crumbDfs_eq focus n trail st :
  crumbDfs focus n trail st =
  if named focus n then mkCrumb true (path st ++ trail ++ [t_name n])
  else untilFound (fun c => crumbDfs focus c (trail ++ [t_name n])) (childrenOf n) st.
Proof.
  destruct n as [k l p s v [cs|]]; unfold named, childrenOf; cbn;
    destruct (String.eqb k focus); reflexivity.
Qed.

Lemma trailTo_eq nm n :
  trailTo nm n =
  if named nm n then Some [n]
  else option_map (cons n) (firstFound (fun c => trailTo nm c) (childrenOf n)).
Proof.
  destruct n as [k l p s v [cs|]]; unfold named, childrenOf; cbn;
    destruct (String.eqb k nm); reflexivity.
Qed.

Lemma untilFound_found {A} (f : A -> Crumb -> Crumb) l st :
  found st = true -> untilFound f l st = st.
Proof. intros H. destruct l; cbn [untilFound]; [reflexivity | now rewrite H]. Qed.

Lemma untilFound_trail focus trail cs :
  (forall c, In c cs ->
     crumbDfs focus c trail (mkCrumb false []) = crumbOf trail (trailTo focus c)) ->
  untilFound (fun c => crumbDfs focus c trail) cs (mkCrumb false []) =
  crumbOf trail (firstFound (fun c => trailTo focus c) cs).
Proof.
  induction cs as [|c cs IH]; intros Hcs; [reflexivity|].
  cbn [untilFound firstFound found]. rewrite (Hcs c (or_introl eq_refl)).
  destruct (trailTo focus c) as [ns|].
  - now apply untilFound_found.
  - apply IH. intros x Hx. apply Hcs. now right.
Qed.

(** The two variables after [dfs(n, trail)], started with [found = false]
    and an empty [path]. *)
Lemma crumbDfs_trail focus n :
  forall trail,
    crumbDfs focus n trail (mkCrumb false []) = crumbOf trail (trailTo focus n).
Proof.
  induction n as [t IH] using tree_children_ind. intros trail.
  rewrite crumbDfs_eq, trailTo_eq. destruct (named focus t); [reflexivity|].
  rewrite untilFound_trail by (intros c Hc; apply (IH c Hc)).
  destruct (firstFound (fun c => trailTo focus c) (childrenOf t)) as [ns|];
    [|reflexivity].
  cbn [option_map crumbOf map]. f_equal. now rewrite <- app_assoc.
Qed.

Lemma last_of_cons (a : TreeNode) l d d' : last (a :: l) d = last (a :: l) d'.
Proof.
  revert a. induction l as [|b l IH]; intros a; [reflexivity|].
  change (last (b :: l) d = last (b :: l) d'). apply IH.
Qed.

Lemma firstFound_trail nm cs :
  (forall c, In c cs ->
     match trailTo nm c with
     | Some l => exists ns, l = c :: ns /\ chain l /\
                            findNodeByName c nm = Some (last l c)
     | None => findNodeByName c nm = None
     end) ->
  match firstFound (fun c => trailTo nm c) cs with
  | Some l => exists c ns, In c cs /\ l = c :: ns /\ chain l /\
                firstFound (fun c => findNodeByName c nm) cs = Some (last l c)
  | None => firstFound (fun c => findNodeByName c nm) cs = None
  end.
Proof.
  induction cs as [|c cs IH]; intros Hcs; [reflexivity|].
  cbn [firstFound]. assert (Hc := Hcs c (or_introl eq_refl)).
  destruct (trailTo nm c) as [l|].
  - destruct Hc as (ns & -> & Hch & Hf). exists c, ns.
    split; [now left|]. split; [reflexivity|]. split; [exact Hch|].
    now rewrite Hf.
  - rewrite Hc.
    assert (IH' := IH (fun x Hx => Hcs x (or_intror Hx))).
    destruct (firstFound (fun c0 => trailTo nm c0) cs) as [l|]; [|exact IH'].
    destruct IH' as (c' & ns & Hin & -> & Hch & Hf). exists c', ns.
    split; [now right|]. split; [reflexivity|]. split; assumption.
Qed.

(** [trailTo] ends at the node [findNodeByName] returns. *)
Lemma trailTo_spec nm n :
  match trailTo nm n with
  | Some l => exists ns, l = n :: ns /\ chain l /\
                         findNodeByName n nm = Some (last l n)
  | None => findNodeByName n nm = None
  end.
Proof.
  induction n as [t IH] using tree_children_ind.
  rewrite trailTo_eq, findNodeByName_eq. destruct (named nm t).
  - exists []. repeat split.
  - assert (H := firstFound_trail nm (childrenOf t) IH).
    destruct (firstFound (fun c => trailTo nm c) (childrenOf t)) as [l|];
      [|exact H].
    destruct H as (c & ns & Hin & -> & Hch & Hf). cbn [option_map].
    exists (c :: ns). split; [reflexivity|]. split; [split; assumption|].
    rewrite Hf. f_equal. change (last (c :: ns) c = last (c :: ns) t).
    apply last_of_cons.
Qed.

(** X5. The breadcrumb is empty when [findNodeByName] finds no node of the
    focus name; otherwise it lists the names along the chain of children
    from the root to the node [findNodeByName] returns, with the entries
    equal to "root" filtered out. *)
Theorem breadcrumb_leads_to_the_focus_node (tree : TreeNode) (focus : string) :
  match findNodeByName tree focus with
  | None => breadcrumb tree focus = []
  | Some nd =>
      exists ns,
        chain (tree :: ns) /\ last (tree :: ns) tree = nd /\
        breadcrumb tree focus = filter notRoot (map t_name (tree :: ns))
  end.
Proof.
  unfold breadcrumb. rewrite crumbDfs_trail.
  assert (H := trailTo_spec focus tree).
  destruct (trailTo focus tree) as [l|].
  - destruct H as (ns & -> & Hch & ->). exists ns.
    split; [exact Hch|]. split; reflexivity.
  - rewrite H. reflexivity.
Qed.

(** *** The focus state *)

Lemma find_the_named (l : list TreeNode) n :
  NoDup (map t_name l) -> In n l -> find (named (t_name n)) l = Some n.
Proof.
  induction l as [|x l IH]; intros Hnd Hin; [destruct Hin|].
  cbn [map] in Hnd. apply NoDup_cons_iff in Hnd. destruct Hnd as [Hx Hnd].
  cbn [find]. destruct Hin as [->|Hin].
  - unfold named. now rewrite String.eqb_refl.
  - destruct (named (t_name n) x) eqn:E.
    + exfalso. apply Hx. unfold named in E. apply String.eqb_eq in E.
      rewrite E. now apply in_map.
    + now apply IH.
Qed.

Lemma findNodeByName_finds tree n :
  NoDup (map t_name (subtree tree)) -> In n (subtree tree) ->
  findNodeByName tree (t_name n) = Some n.
Proof.
  intros Hnd Hin. rewrite findNodeByName_first_in_preorder_aux.
  now apply find_the_named.
Qed.

(** X4. In a tree whose node names are pairwise distinct, [findParentName]
    called with the name of a child [c] of a node [q] returns the name of
    [q], and [findNodeByName] on that name returns [q] itself; when the name
    of [q] is the empty string [findParentName] returns [null]. *)
Theorem findParentName_of_a_child (root q c : TreeNode) :
  NoDup (map t_name (subtree root)) ->
  In q (subtree root) -> In c (childrenOf q) ->
  findParentName root (t_name c) =
  (if String.eqb (t_name q) "" then None else Some (t_name q)) /\
  (t_name q <> ""%string ->
   exists p, findParentName root (t_name c) = Some p /\
             findNodeByName root p = Some q).
Proof.
  intros Hnd Hq Hc.
  assert (E : findParentName root (t_name c) =
              if String.eqb (t_name q) "" then None else Some (t_name q))
    by (unfold findParentName; now apply dfs_exact).
  split; [exact E|]. intros Hne. exists (t_name q). split.
  - rewrite E. destruct (String.eqb_spec (t_name q) ""); [contradiction | reflexivity].
  - now apply findNodeByName_finds.
Qed.

(** X4 at the child Style of the node Art of the Kusama tree. *)
Lemma findParentName_of_a_child_witness :
  NoDup (map t_name (subtree kusamaTree)) /\
  In artNode (subtree kusamaTree) /\ In styleNode (childrenOf artNode) /\
  (findParentName kusamaTree (t_name styleNode) =
   (if String.eqb (t_name artNode) "" then None else Some (t_name artNode)) /\
   (t_name artNode <> ""%string ->
    exists p, findParentName kusamaTree (t_name styleNode) = Some p /\
              findNodeByName kusamaTree p = Some artNode)).
Proof.
  assert (H1 : NoDup (map t_name (subtree kusamaTree)))
    by (cbn; repeat constructor; cbn; intuition discriminate).
  assert (H2 : In artNode (subtree kusamaTree)) by (do 3 right; left; reflexivity).
  assert (H3 : In styleNode (childrenOf artNode)) by (left; reflexivity).
  split; [exact H1|]. split; [exact H2|]. split; [exact H3|].
  exact (findParentName_of_a_child kusamaTree artNode styleNode H1 H2 H3).
Defined.

Lemma findNodeByName_In tree nm nd :
  findNodeByName tree nm = Some nd -> In nd (subtree tree) /\ t_name nd = nm.
Proof.
  rewrite findNodeByName_first_in_preorder_aux. intros H.
  apply find_some in H. destruct H as [Hin Hn]. split; [exact Hin|].
  now apply String.eqb_eq.
Qed.

Lemma focusNode_In tree st : In (focusNode tree st) (subtree tree).
Proof.
  unfold focusNode. destruct (findNodeByName tree (focusName st)) as [n|] eqn:E.
  - now apply findNodeByName_In in E.
  - now left.
Qed.

Lemma hasChildren_child q c : In c (childrenOf q) -> hasChildren q = true.
Proof.
  unfold childrenOf, hasChildren. destruct (t_children q) as [[|x l]|]; intros H;
    [destruct H | reflexivity | destruct H].
Qed.

Lemma findParent_root tree nm :
  t_name tree = nm -> findParent nm tree None = Some "root"%string.
Proof.
  intros <-. destruct tree as [k l p s v cs]. cbn [findParent t_name].
  now rewrite String.eqb_refl.
Qed.

(** X6. When the root of the tree is named "root" (as the root returned by
    [nestFlatToTree] is), the focus name of the main view is "root" in every
    state the handlers can reach: the focus node is the root and the
    breadcrumb is empty. *)
Theorem main_focus_stays_at_root (tree : TreeNode) (st : UiState) :
  t_name tree = "root"%string ->
  reachable tree st ->
  focusName st = "root"%string /\ focusNode tree st = tree /\
  breadcrumb tree (focusName st) = [].
Proof.
  intros Hroot Hreach.
  assert (Hfocus : focusName st = "root"%string).
  { induction Hreach as [|st st' _ IH Hstep]; [reflexivity|].
    destruct Hstep as [st n _ | st n | st | st | st].
    - unfold handleBubbleClick. now destruct (canDrillDown n).
    - unfold overlayDrillDown.
      destruct (findNodeByName tree (RadialPacker.name n)) as [t|]; [|exact IH].
      now destruct (hasChildren t).
    - unfold overlayDrillUp. destruct (truthy (overlayFocusName st)); [|exact IH].
      destruct (overlayFocusName st) as [s|]; [|exact IH].
      now destruct (truthy (findParentName tree s)).
    - exact IH.
    - unfold drillUp. cbn [focusName]. rewrite IH, (findParent_root _ _ Hroot).
      reflexivity. }
  assert (Hfind : findNodeByName tree (focusName st) = Some tree).
  { rewrite Hfocus, findNodeByName_eq. unfold named.
    now rewrite Hroot. }
  split; [exact Hfocus|]. split.
  - unfold focusNode. now rewrite Hfind.
  - unfold breadcrumb. rewrite crumbDfs_trail, trailTo_eq. unfold named.
    rewrite Hfocus, Hroot. cbn. rewrite Hroot. reflexivity.
Qed.

(** X6 in the state after a click on the bubble Kusama. *)
Lemma main_focus_stays_at_root_witness :
  t_name kusamaTree = "root"%string /\
  reachable kusamaTree clicked /\
  (focusName clicked = "root"%string /\ focusNode kusamaTree clicked = kusamaTree /\
   breadcrumb kusamaTree (focusName clicked) = []).
Proof.
  assert (H1 : t_name kusamaTree = "root"%string) by reflexivity.
  assert (H2 : reachable kusamaTree clicked).
  { apply (reach_step kusamaTree initialState); [apply reach_initial|].
    apply step_click. left. reflexivity. }
  split; [exact H1|]. split; [exact H2|].
  exact (main_focus_stays_at_root kusamaTree clicked H1 H2).
Defined.

Lemma overlayOk_set tree st open nm nd :
  findNodeByName tree nm = Some nd -> hasChildren nd = true ->
  overlayOk tree (mkUi (focusName st) open (Some nm)).
Proof.
  intros Hf Hc. split; [discriminate|]. cbn [overlayFocusName]. intros Ht.
  exists nd. unfold overlayNode. cbn [overlayFocusName]. rewrite Ht.
  split; assumption.
Qed.

Lemma overlayOk_step tree st st' :
  NoDup (map t_name (subtree tree)) ->
  overlayOk tree st -> step tree st st' -> overlayOk tree st'.
Proof.
  intros Hnd Hok Hstep. destruct Hstep as [st n Hin | st n | st | st | st].
  - unfold handleBubbleClick. destruct (canDrillDown n) eqn:Hc; [|exact Hok].
    apply (overlayOk_set tree st true (t_name n) n); [|exact Hc].
    apply findNodeByName_finds; [exact Hnd|]. right.
    exact (subtree_child_closed _ _ _ (focusNode_In tree st) Hin).
  - unfold overlayDrillDown.
    destruct (findNodeByName tree (RadialPacker.name n)) as [t|] eqn:Hf; [|exact Hok].
    destruct (hasChildren t) eqn:Hc; [|exact Hok].
    exact (overlayOk_set tree st _ _ t Hf Hc).
  - unfold overlayDrillUp. destruct (truthy (overlayFocusName st)) eqn:Ht; [|exact Hok].
    destruct (overlayFocusName st) as [s|] eqn:Hs; [|exact Hok].
    destruct (truthy (findParentName tree s)) eqn:Hp.
    + destruct (truthy_nonempty _ Hp) as (p & Hpe & _). rewrite Hpe.
      unfold findParentName in Hpe.
      destruct (dfs_sound _ _ _ _ Hpe)
        as [[_ Hx] | (_ & _ & l1 & q & l2 & c & l3 & Hsub & Hch & Hq & _)];
        [discriminate|].
      apply (overlayOk_set tree st _ p q); [|exact (hasChildren_child _ _ Hch)].
      rewrite <- Hq. apply findNodeByName_finds; [exact Hnd|].
      rewrite Hsub. apply in_elt.
    + split; [discriminate|]. destruct Hok as [_ Hok]. rewrite Hs in Hok.
      cbn [overlayFocusName]. intros _. unfold overlayNode in *.
      cbn [overlayFocusName]. rewrite Hs in Hok. exact (Hok Ht).
  - destruct Hok as [_ Hok]. split; [discriminate|]. exact Hok.
  - exact Hok.
Qed.

(** X7. In a tree with pairwise distinct node names, every state reachable
    by clicks on the bubbles shown, drill-downs, drill-ups and closings
    satisfies: an open overlay has a focus name, and a truthy focus name is
    the name of a node of the tree that has at least one child. *)
Theorem overlay_focus_has_children (tree : TreeNode) (st : UiState) :
  NoDup (map t_name (subtree tree)) ->
  reachable tree st ->
  (isOverlayOpen st = true -> overlayFocusName st <> None) /\
  (truthy (overlayFocusName st) = true ->
   exists nd, overlayNode tree st = Some nd /\ hasChildren nd = true).
Proof.
  intros Hnd Hreach. change (overlayOk tree st).
  induction Hreach as [|st st' _ IH Hstep].
  - split; discriminate.
  - exact (overlayOk_step tree st st' Hnd IH Hstep).
Qed.

(** X7 in the state after a click on the bubble Kusama. *)
Lemma overlay_focus_has_children_witness :
  NoDup (map t_name (subtree kusamaTree)) /\
  reachable kusamaTree clicked /\
  ((isOverlayOpen clicked = true -> overlayFocusName clicked <> None) /\
   (truthy (overlayFocusName clicked) = true ->
    exists nd, overlayNode kusamaTree clicked = Some nd /\ hasChildren nd = true)).
Proof.
  assert (H1 : NoDup (map t_name (subtree kusamaTree)))
    by (cbn; repeat constructor; cbn; intuition discriminate).
  assert (H2 : reachable kusamaTree clicked).
  { apply (reach_step kusamaTree initialState); [apply reach_initial|].
    apply step_click. left. reflexivity. }
  split; [exact H1|]. split; [exact H2|].
  exact (overlay_focus_has_children kusamaTree clicked H1 H2).
Defined.

(** *** Pressing Up *)

Lemma before_skip nm l1 l2 :
  (forall x, In x l1 -> named nm x = false) ->
  before nm (l1 ++ l2) = List.length l1 + before nm l2.
Proof.
  induction l1 as [|a l1 IH]; intros H; [reflexivity|].
  cbn [app before List.length]. rewrite (H a (or_introl eq_refl)).
  rewrite IH; [reflexivity|]. intros x Hx. apply H. now right.
Qed.

Lemma before_stop nm l1 x l2 :
  named nm x = true -> before nm (l1 ++ x :: l2) <= List.length l1.
Proof.
  intros Hx. induction l1 as [|a l1 IH]; cbn [app before List.length].
  - now rewrite Hx.
  - destruct (named nm a); lia.
Qed.

(** With distinct names the parent's name comes strictly earlier in
    preorder than the target's. *)
Lemma parent_comes_before tree nm p :
  NoDup (map t_name (subtree tree)) ->
  findParentName tree nm = Some p ->
  before p (subtree tree) < before nm (subtree tree).
Proof.
  intros Hnd Hp. unfold findParentName in Hp.
  destruct (dfs_sound _ _ _ _ Hp)
    as [[_ Hx] | (_ & _ & l1 & q & l2 & c & l3 & Hsub & _ & Hq & Hc)];
    [discriminate|].
  rewrite Hsub in Hnd |- *.
  assert (Hqn : named p q = true) by (unfold named; rewrite Hq; apply String.eqb_refl).
  apply Nat.le_lt_trans with (List.length l1); [now apply before_stop|].
  replace (l1 ++ q :: l2 ++ c :: l3) with ((l1 ++ q :: l2) ++ c :: l3) in Hnd |- *
    by (rewrite <- app_assoc; reflexivity).
  rewrite before_skip.
  - rewrite length_app. cbn [List.length]. lia.
  - intros x Hx. unfold named. apply String.eqb_neq. intros E.
    rewrite map_app in Hnd. apply (names_apart _ _ Hnd (t_name x)).
    + now apply in_map.
    + cbn [map]. left. unfold named in Hc. apply String.eqb_eq in Hc. congruence.
Qed.

Lemma findParentName_truthy tree nm :
  truthy (findParentName tree nm) = false -> findParentName tree nm = None.
Proof.
  unfold findParentName. destruct (dfs nm tree None) as [s|] eqn:E; [|reflexivity].
  destruct (dfs_sound _ _ _ _ E) as [[_ Hx] | (_ & Hne & _)]; [discriminate|].
  rewrite truthy_Some. destruct (String.eqb_spec s ""); [contradiction | discriminate].
Qed.

Lemma pressUp_closes tree :
  NoDup (map t_name (subtree tree)) ->
  forall m st nm,
    overlayFocusName st = Some nm -> nm <> ""%string ->
    before nm (subtree tree) <= m ->
    exists k, k <= m /\ isOverlayOpen (pressUp tree (S k) st) = false.
Proof.
  intros Hnd. induction m as [|m IH]; intros st nm Hs Hne Hm.
  - exists 0. split; [lia|]. cbn [pressUp]. unfold overlayDrillUp.
    rewrite Hs, truthy_Some. destruct (String.eqb_spec nm ""); [contradiction|].
    cbn [negb]. destruct (truthy (findParentName tree nm)) eqn:Hp; [|reflexivity].
    destruct (truthy_nonempty _ Hp) as (p & Hpe & _).
    assert (H := parent_comes_before tree nm p Hnd Hpe). lia.
  - destruct (truthy (findParentName tree nm)) eqn:Hp.
    + destruct (truthy_nonempty _ Hp) as (p & Hpe & Hpne).
      assert (H := parent_comes_before tree nm p Hnd Hpe).
      destruct (IH (mkUi (focusName st) (isOverlayOpen st) (Some p)) p eq_refl Hpne)
        as (k & Hk & Hclosed); [lia|].
      exists (S k). split; [lia|].
      change (pressUp tree (S (S k)) st)
        with (pressUp tree (S k) (overlayDrillUp tree st)).
      unfold overlayDrillUp at 1.
      rewrite Hs, truthy_Some. destruct (String.eqb_spec nm ""); [contradiction|].
      cbn [negb]. rewrite Hp, Hpe. exact Hclosed.
    + exists 0. split; [lia|]. cbn [pressUp]. unfold overlayDrillUp.
      rewrite Hs, truthy_Some. destruct (String.eqb_spec nm ""); [contradiction|].
      cbn [negb]. now rewrite Hp.
Qed.

(** X8. In a tree with pairwise distinct node names, pressing the Up button
    of the overlay again and again closes the overlay: from any state with a
    truthy overlay focus name, at most as many presses as the tree has nodes
    set [isOverlayOpen] to false. *)
Theorem pressing_up_closes_the_overlay (tree : TreeNode) (st : UiState) :
  NoDup (map t_name (subtree tree)) ->
  truthy (overlayFocusName st) = true ->
  exists k,
    k <= List.length (descendants tree) /\
    isOverlayOpen (pressUp tree (S k) st) = false.
Proof.
  intros Hnd Ht. destruct (truthy_nonempty _ Ht) as (nm & Hs & Hne).
  destruct (String.eqb_spec (t_name tree) nm) as [E|E].
  - exists 0. split; [lia|]. cbn [pressUp]. unfold overlayDrillUp.
    rewrite Ht, Hs. unfold findParentName. rewrite dfs_eq. unfold named.
    rewrite <- E, String.eqb_refl. reflexivity.
  - apply String.eqb_neq in E.
    destruct (find (named nm) (descendants tree)) as [x|] eqn:Hf.
    + apply (pressUp_closes tree Hnd _ st nm Hs Hne).
      unfold subtree. cbn [before]. unfold named at 1. rewrite E.
      clear - Hf. induction (descendants tree) as [|a l IH]; [discriminate|].
      cbn [find] in Hf. cbn [before List.length].
      destruct (named nm a); [lia|]. specialize (IH Hf). lia.
    + exists 0. split; [lia|]. cbn [pressUp]. unfold overlayDrillUp.
      rewrite Ht, Hs. unfold findParentName. rewrite dfs_absent; [reflexivity|].
      intros y [<-|Hy]; [exact E|]. exact (find_none _ _ Hf y Hy).
Qed.

(** X8 from the state after a click on the bubble Kusama. *)
Lemma pressing_up_closes_the_overlay_witness :
  NoDup (map t_name (subtree kusamaTree)) /\
  truthy (overlayFocusName clicked) = true /\
  exists k,
    k <= List.length (descendants kusamaTree) /\
    isOverlayOpen (pressUp kusamaTree (S k) clicked) = false.
Proof.
  assert (H1 : NoDup (map t_name (subtree kusamaTree)))
    by (cbn; repeat constructor; cbn; intuition discriminate).
  assert (H2 : truthy (overlayFocusName clicked) = true) by reflexivity.
  split; [exact H1|]. split; [exact H2|].
  exact (pressing_up_closes_the_overlay kusamaTree clicked H1 H2).
Defined.

End NavigationFacts.

(** * More properties of [nestFlatToTree] *)

Module AttachmentFacts.
Import TreeBuilder TreeBuilderFacts Navigation NavigationFacts Attachment.

(** X9. [nestFlatToTree] throws the level error for the name and level of
    the first record, in input order, whose level is below 1 or above 6:
    the records before it are in range and no later record is looked at. *)
Theorem nestFlatToTree_reports_the_first_bad_level
        (items : list FlatItem) (who : string) (got : Z) :
  nestFlatToTree items = Throw (LevelOutOfRange who got) <->
  exists pre it post,
    items = pre ++ it :: post /\
    (forall x, In x pre -> (1 <= level x <= 6)%Z) /\
    ((level it < 1)%Z \/ (level it > 6)%Z) /\
    who = name it /\ got = level it.
Proof.
  unfold nestFlatToTree.
  assert (H : forall byName,
             indexItems items byName = Throw (LevelOutOfRange who got) <->
             exists pre it post,
               items = pre ++ it :: post /\
               (forall x, In x pre -> (1 <= level x <= 6)%Z) /\
               ((level it < 1)%Z \/ (level it > 6)%Z) /\
               who = name it /\ got = level it).
  { induction items as [|a rest IH]; intros byName.
    - cbn [indexItems]. split; [discriminate|].
      intros (pre & it & post & E & _). destruct pre; discriminate.
    - cbn [indexItems].
      destruct ((level a <? 1) || (level a >? 6))%Z eqn:E.
      + assert (Hbad : (level a < 1)%Z \/ (level a > 6)%Z).
        { apply orb_true_iff in E. destruct E as [E|E];
            [left; now apply Z.ltb_lt | right; now apply Z.gtb_gt]. }
        split.
        * intros [= <- <-]. exists [], a, rest.
          split; [reflexivity|]. split; [intros x []|]. split; [exact Hbad|].
          split; reflexivity.
        * intros (pre & it & post & Hitems & Hpre & _ & -> & ->).
          destruct pre as [|b pre].
          -- cbn [app] in Hitems. injection Hitems as <- _. reflexivity.
          -- cbn [app] in Hitems. injection Hitems as <- _.
             specialize (Hpre a (or_introl eq_refl)). lia.
      + assert (Hok : (1 <= level a <= 6)%Z).
        { apply orb_false_iff in E. destruct E as [E1 E2].
          apply Z.ltb_ge in E1. rewrite Z.gtb_ltb in E2. apply Z.ltb_ge in E2. lia. }
        rewrite IH. split.
        * intros (pre & it & post & -> & Hpre & Hit & Hw & Hg).
          exists (a :: pre), it, post. split; [reflexivity|].
          split; [|split; [exact Hit | split; assumption]].
          intros x [<-|Hx]; [exact Hok | now apply Hpre].
        * intros (pre & it & post & Hitems & Hpre & Hit & Hw & Hg).
          destruct pre as [|b pre].
          -- cbn [app] in Hitems. injection Hitems as -> _. lia.
          -- cbn [app] in Hitems. injection Hitems as _ ->.
             exists pre, it, post. split; [reflexivity|].
             split; [|split; [exact Hit | split; assumption]].
             intros x Hx. apply Hpre. now right. }
  specialize (H []). destruct (indexItems items []) as [m|e].
  - split; [discriminate|]. intros Hex. apply H in Hex. discriminate.
  - rewrite <- H. split; intros [= ->]; reflexivity.
Qed.

(** *** The shape of the returned tree *)

Lemma mapM_each {A B : Type} (f : A -> option B) (l : list A) (bs : list B) :
  mapM f l = Some bs -> Forall2 (fun a b => f a = Some b) l bs.
Proof.
  revert bs. induction l as [|a l IH]; intros bs; cbn [mapM].
  - intros [= <-]. constructor.
  - destruct (f a) as [b|] eqn:Ha; [|discriminate].
    destruct (mapM f l) as [bs'|]; [|discriminate].
    intros [= <-]. constructor; [exact Ha | now apply IH].
Qed.

Section Wired.
Variable es : Store.
Hypothesis es_NoDup : NoDup (map fst es).
Hypothesis es_fresh : forall e, In e es -> children (snd e) = [].
Hypothesis es_named : forall e, In e es -> name (item (snd e)) = fst e.

Lemma heap_get_inv (k : string) (o' : Obj) :
  map_get k (heap (linkAll es)) = Some o' ->
  exists o, map_get k es = Some o /\ o' = mkObj (item o) (kidsIn es es k).
Proof.
  destruct (map_get k es) as [o|] eqn:Hget.
  - rewrite (heap_get es es_NoDup es_fresh k o Hget). intros [= <-]. now exists o.
  - rewrite (linkAll_spec es es_NoDup). cbn [heap].
    rewrite (map_get_withKids es es es k), Hget. discriminate.
Qed.

Lemma reify_wired (f : nat) :
  forall k nd,
    reify f (heap (linkAll es)) k = Some nd ->
    t_name nd = k /\ Forall (wired es) (subtree nd).
Proof.
  induction f as [|f IH]; intros k nd; cbn [reify]; [discriminate|].
  destruct (map_get k (heap (linkAll es))) as [o'|] eqn:Hh; [|discriminate].
  destruct (heap_get_inv k o' Hh) as (o & Hget & ->). cbn [children item].
  destruct (mapM (reify f (heap (linkAll es))) (kidsIn es es k)) as [cs|] eqn:Hcs;
    [|discriminate].
  intros [= <-].
  assert (Hname : name (item o) = k)
    by exact (es_named (k, o) (map_get_In k es o Hget)).
  apply mapM_each in Hcs.
  assert (Hkids : map t_name cs = kidsIn es es k /\ Forall (wired es) (forestNodes cs)).
  { clear Hh Hget. induction Hcs as [|kc c ks cs Hc _ IHcs].
    - split; [reflexivity | constructor].
    - destruct (IH kc c Hc) as [Hn Hw]. destruct IHcs as [Hns Hws].
      split; [cbn [map]; now rewrite Hn, Hns|].
      rewrite forestNodes_cons. apply Forall_app. split; assumption. }
  destruct Hkids as [Hns Hws]. split; [exact Hname|].
  rewrite subtree_children. constructor; [|exact Hws].
  exists o. cbn [t_name nodeOf]. rewrite Hname. split; [exact Hget|].
  split; [apply asItem_nodeOf | exact Hns].
Qed.

(** The returned root: its children are the keys pushed to [roots], and
    every node below it is wired. *)
Lemma root_wired :
  exists ts,
    rootOf (linkAll es) = Some (mkTreeNode "root" None None None None (Some ts)) /\
    map t_name ts = rootsIn es es /\
    Forall (wired es) (forestNodes ts) /\
    Permutation (map t_name (forestNodes ts)) (upto es (List.length es) (rootsIn es es)).
Proof.
  destruct (rootOf_linkAll es es_NoDup es_fresh) as (ts & Hroot & Hts & Hperm).
  exists ts. split; [exact Hroot|].
  apply mapM_each in Hts.
  assert (H : map t_name ts = rootsIn es es /\ Forall (wired es) (forestNodes ts)).
  { clear Hroot Hperm. induction Hts as [|kc c ks cs Hc _ IHcs].
    - split; [reflexivity | constructor].
    - destruct (reify_wired _ kc c Hc) as [Hn Hw]. destruct IHcs as [Hns Hws].
      split; [cbn [map]; now rewrite Hn, Hns|].
      rewrite forestNodes_cons. apply Forall_app. split; assumption. }
  destruct H as [Hns Hws]. split; [exact Hns|]. split; [exact Hws|].
  assert (Hleft : map t_name (forestNodes ts) = map nameOf (map asItem (forestNodes ts))).
  { rewrite map_map. apply map_ext_in. intros x Hx.
    rewrite Forall_forall in Hws. destruct (Hws x Hx) as (o & _ & Ho & _).
    unfold asItem in *. destruct (t_level x); [reflexivity | discriminate]. }
  rewrite Hleft, (Permutation_map nameOf Hperm), map_map.
  assert (Hright : map (fun k => nameOf (keyItem es k)) (upto es (List.length es) (rootsIn es es))
                   = upto es (List.length es) (rootsIn es es)).
  { rewrite <- (map_id (upto es (List.length es) (rootsIn es es))) at 2.
    apply map_ext_in. intros k Hk.
    assert (HR0 : forall x, In x (rootsIn es es) -> reach es (rootsIn es es) 0 x = true).
    { intros x Hx. cbn [reach]. apply existsb_exists. exists x.
      split; [exact Hx | apply String.eqb_refl]. }
    destruct (upto_spec es es_NoDup (List.length es) 0 (rootsIn es es)
                        (roots_NoDup es es_NoDup) HR0) as [_ Hin].
    apply Hin in Hk. destruct Hk as (j & _ & Hr).
    assert (Hkey : In k (map fst es)).
    { apply (reach_key es (rootsIn es es) j k); [|exact Hr].
      intros y Hy. apply (In_roots es es_NoDup) in Hy. tauto. }
    apply map_has_In in Hkey. unfold map_has in Hkey. unfold keyItem.
    destruct (map_get k es) as [o|] eqn:Hget; [|discriminate].
    cbn [option_map nameOf]. exact (es_named (k, o) (map_get_In k es o Hget)). }
  rewrite Hright. reflexivity.
Qed.

Lemma upto_roots_NoDup :
  NoDup (upto es (List.length es) (rootsIn es es)) /\
  incl (upto es (List.length es) (rootsIn es es)) (map fst es).
Proof.
  assert (HR0 : forall x, In x (rootsIn es es) -> reach es (rootsIn es es) 0 x = true).
  { intros x Hx. cbn [reach]. apply existsb_exists. exists x.
    split; [exact Hx | apply String.eqb_refl]. }
  destruct (upto_spec es es_NoDup (List.length es) 0 (rootsIn es es)
                      (roots_NoDup es es_NoDup) HR0) as [Hnd Hin].
  split; [exact Hnd|]. intros k Hk. apply Hin in Hk. destruct Hk as (j & _ & Hr).
  apply (reach_key es (rootsIn es es) j k); [|exact Hr].
  intros y Hy. apply (In_roots es es_NoDup) in Hy. tauto.
Qed.

End Wired.

(** *** From the records to the shape *)

Lemma indexed_get_last (items : list FlatItem) (k : string) (o : Obj) :
  map_get k (indexed items []) = Some o ->
  lastOfName items (item o) /\ name (item o) = k /\ children o = [].
Proof.
  revert o. induction items as [|a l IH] using rev_ind; intros o.
  - discriminate.
  - unfold indexed. rewrite fold_left_app. cbn [fold_left].
    fold (indexed l []).
    destruct (String.eqb_spec (name a) k) as [E|E].
    + rewrite <- E, map_get_set_same. intros [= <-]. cbn [item children].
      split; [|split; reflexivity]. exists l, []. split; [reflexivity | intros []].
    + rewrite map_get_set_other by (intros E'; now apply E). intros Hget.
      destruct (IH o Hget) as ((pre & post & Hl & Hlast) & Hname & Hch).
      split; [|split; assumption].
      exists pre, (post ++ [a]). split.
      * rewrite Hl, <- app_assoc. reflexivity.
      * rewrite map_app, in_app_iff. cbn [map In]. rewrite Hname.
        intros [H|[H|[]]]; [apply Hlast; now rewrite Hname | now apply E].
Qed.

Lemma indexed_facts (items : list FlatItem) :
  NoDup (map fst (indexed items [])) /\
  (forall e, In e (indexed items []) -> children (snd e) = []) /\
  (forall e, In e (indexed items []) -> name (item (snd e)) = fst e).
Proof.
  destruct (indexed_store items) as [Hnd Hfresh]. rewrite Forall_forall in Hfresh.
  split; [exact Hnd|]. split; intros e He; apply (Hfresh e He).
Qed.

Lemma indexed_length (items : list FlatItem) :
  List.length (indexed items []) <= List.length items.
Proof.
  destruct (indexed_facts items) as (Hnd & _).
  rewrite <- (length_map fst (indexed items [])), <- (length_map name items).
  apply NoDup_incl_length; [exact Hnd|].
  intros k Hk. apply indexed_keys in Hk. destruct Hk as [[]|Hk]. exact Hk.
Qed.

(** X10. For every input whose levels lie in 1..6 the returned tree never
    has two nodes of one name below the root, every node carries the fields
    of the last record of its name, and there are at most as many nodes as
    records; when no record is named "root" the names of all nodes, the
    root included, are pairwise distinct. *)
Theorem nestFlatToTree_one_node_per_name (items : list FlatItem) :
  (forall it, In it items -> (1 <= level it <= 6)%Z) ->
  exists g t,
    nestFlatToTree items = Ok g /\ rootOf g = Some t /\
    t_name t = "root"%string /\
    NoDup (map t_name (descendants t)) /\
    (forall nd, In nd (descendants t) ->
       exists it, asItem nd = Some it /\ lastOfName items it) /\
    List.length (descendants t) <= List.length items /\
    (~ In "root"%string (map name items) -> NoDup (map t_name (subtree t))).
Proof.
  intros Hlev.
  assert (Hall : Forall levelOk items) by (apply Forall_forall; exact Hlev).
  destruct (indexed_facts items) as (Hnd & Hfresh & Hnamed).
  destruct (root_wired _ Hnd Hfresh Hnamed) as (ts & Hroot & _ & Hw & Hperm).
  destruct (upto_roots_NoDup _ Hnd) as [Hund Hincl].
  exists (linkAll (indexed items [])). eexists.
  split; [apply nestFlatToTree_ok, Hall|]. split; [exact Hroot|].
  split; [reflexivity|]. rewrite descendants_node.
  assert (Hnames : NoDup (map t_name (forestNodes ts))).
  { apply (Permutation_NoDup (Permutation_sym Hperm)). exact Hund. }
  split; [exact Hnames|]. split; [|split].
  - intros nd Hin. rewrite Forall_forall in Hw.
    destruct (Hw nd Hin) as (o & Hget & Has & _). exists (item o).
    split; [exact Has|]. now apply indexed_get_last in Hget.
  - assert (H1 : List.length (forestNodes ts) =
                 List.length (upto (indexed items []) (List.length (indexed items []))
                                   (rootsIn (indexed items []) (indexed items []))))
      by (rewrite <- (Permutation_length Hperm); symmetry; apply length_map).
    assert (H2 := NoDup_incl_length Hund Hincl). rewrite length_map in H2.
    assert (H3 := indexed_length items). lia.
  - intros Hno. unfold subtree. rewrite descendants_node. cbn [map t_name].
    constructor; [|exact Hnames].
    intros Hin. apply Hno.
    apply (Permutation_in _ Hperm) in Hin. apply Hincl in Hin.
    apply indexed_keys in Hin. destruct Hin as [[]|Hin]. exact Hin.
Qed.

(** X10 at the records [kusama]. *)
Lemma nestFlatToTree_one_node_per_name_witness :
  (forall it, In it kusama -> (1 <= level it <= 6)%Z) /\
  exists g t,
    nestFlatToTree kusama = Ok g /\ rootOf g = Some t /\
    t_name t = "root"%string /\
    NoDup (map t_name (descendants t)) /\
    (forall nd, In nd (descendants t) ->
       exists it, asItem nd = Some it /\ lastOfName kusama it) /\
    List.length (descendants t) <= List.length kusama /\
    (~ In "root"%string (map name kusama) -> NoDup (map t_name (subtree t))).
Proof.
  assert (H1 : forall it, In it kusama -> (1 <= level it <= 6)%Z)
    by (intros x [<-|[<-|[<-|[<-|[]]]]]; cbn; lia).
  split; [exact H1|].
  exact (nestFlatToTree_one_node_per_name kusama H1).
Defined.

(** *** Distinct names: the store lists the records *)

Lemma map_has_indexed (items : list FlatItem) (pn : string) :
  map_has pn (indexed items []) = existsb (fun x => String.eqb (name x) pn) items.
Proof.
  destruct (existsb (fun x => String.eqb (name x) pn) items) eqn:E.
  - apply map_has_In. apply indexed_keys. right.
    apply existsb_exists in E. destruct E as (x & Hx & Hn).
    apply String.eqb_eq in Hn. rewrite <- Hn. now apply in_map.
  - destruct (map_has pn (indexed items [])) eqn:Eh; [|reflexivity].
    apply map_has_In in Eh. apply indexed_keys in Eh. destruct Eh as [[]|Eh].
    apply in_map_iff in Eh. destruct Eh as (x & Hn & Hx).
    assert (Ht : existsb (fun x => String.eqb (name x) pn) items = true).
    { apply existsb_exists. exists x. split; [exact Hx | now apply String.eqb_eq]. }
    congruence.
Qed.

Lemma attachTo_indexed (items : list FlatItem) (it : FlatItem) :
  attachTo (indexed items []) (mkObj it []) = attachment items it.
Proof.
  unfold attachTo, attachment, resolveParent. cbn [item].
  destruct (level it =? 1)%Z; [reflexivity|].
  destruct (truthy (parent it)); [|reflexivity].
  destruct (parent it) as [pn|]; [|reflexivity].
  now rewrite map_has_indexed.
Qed.

Lemma kidsIn_indexed (items : list FlatItem) (k : string) :
  NoDup (map name items) ->
  kidsIn (indexed items []) (indexed items []) k =
  map name (filter (hangsUnder items (Some k)) items).
Proof.
  intros Hnd. unfold kidsIn.
  rewrite (indexed_distinct items [] Hnd) at 2 by (intros it _ []).
  cbn [app]. induction items as [|a l IH] in |- * at 2 4; [reflexivity|].
  cbn [map filter]. unfold underKey at 1, hangsUnder at 1. cbn [snd].
  rewrite attachTo_indexed.
  destruct (attachment items a) as [p|]; [|exact IH].
  destruct (String.eqb p k); [cbn [map fst]; now rewrite IH | exact IH].
Qed.

Lemma rootsIn_indexed (items : list FlatItem) :
  NoDup (map name items) ->
  rootsIn (indexed items []) (indexed items []) =
  map name (filter (hangsUnder items None) items).
Proof.
  intros Hnd. unfold rootsIn.
  rewrite (indexed_distinct items [] Hnd) at 2 by (intros it _ []).
  cbn [app]. induction items as [|a l IH] in |- * at 2 4; [reflexivity|].
  cbn [map filter]. unfold underRoot at 1, hangsUnder at 1. cbn [snd].
  rewrite attachTo_indexed.
  destruct (attachment items a) as [p|]; [exact IH | cbn [map fst]; now rewrite IH].
Qed.

(** X11. With levels in 1..6 and pairwise distinct names, the children of
    the root are the records of level 1 and those whose parent is missing,
    empty or names no record, in input order; the children of any other node
    are the records of another level whose parent is the node's name, in
    input order. *)
Theorem children_follow_the_input_order (items : list FlatItem) :
  (forall it, In it items -> (1 <= level it <= 6)%Z) ->
  NoDup (map name items) ->
  exists g t,
    nestFlatToTree items = Ok g /\ rootOf g = Some t /\
    map t_name (childrenOf t) = map name (filter (hangsUnder items None) items) /\
    (forall nd, In nd (descendants t) ->
       map t_name (childrenOf nd) =
       map name (filter (hangsUnder items (Some (t_name nd))) items)).
Proof.
  intros Hlev Hnd.
  assert (Hall : Forall levelOk items) by (apply Forall_forall; exact Hlev).
  destruct (indexed_facts items) as (Hk & Hfresh & Hnamed).
  destruct (root_wired _ Hk Hfresh Hnamed) as (ts & Hroot & Hts & Hw & _).
  exists (linkAll (indexed items [])). eexists.
  split; [apply nestFlatToTree_ok, Hall|]. split; [exact Hroot|]. split.
  - unfold childrenOf. cbn [t_children]. rewrite Hts. now apply rootsIn_indexed.
  - rewrite descendants_node. intros nd Hin. rewrite Forall_forall in Hw.
    destruct (Hw nd Hin) as (o & _ & _ & Hch). rewrite Hch.
    now apply kidsIn_indexed.
Qed.

(** X11 at the records [kusama]. *)
Lemma children_follow_the_input_order_witness :
  (forall it, In it kusama -> (1 <= level it <= 6)%Z) /\
  NoDup (map name kusama) /\
  exists g t,
    nestFlatToTree kusama = Ok g /\ rootOf g = Some t /\
    map t_name (childrenOf t) = map name (filter (hangsUnder kusama None) kusama) /\
    (forall nd, In nd (descendants t) ->
       map t_name (childrenOf nd) =
       map name (filter (hangsUnder kusama (Some (t_name nd))) kusama)).
Proof.
  assert (H1 : forall it, In it kusama -> (1 <= level it <= 6)%Z)
    by (intros x [<-|[<-|[<-|[<-|[]]]]]; cbn; lia).
  assert (H2 : NoDup (map name kusama))
    by (cbn; repeat constructor; cbn; intuition discriminate).
  split; [exact H1|]. split; [exact H2|].
  exact (children_follow_the_input_order kusama H1 H2).
Defined.

(** *** Which records have a node *)

Lemma asItem_name nd it : asItem nd = Some it -> t_name nd = name it.
Proof.
  unfold asItem. destruct (t_level nd); [|discriminate]. now intros [= <-].
Qed.

Lemma map_get_indexed (items : list FlatItem) (k : string) :
  NoDup (map name items) ->
  map_get k (indexed items []) =
  option_map (fun it => mkObj it []) (find (fun it => String.eqb (name it) k) items).
Proof.
  intros Hnd. rewrite (indexed_distinct items [] Hnd) by (intros it _ []).
  cbn [app]. clear Hnd. induction items as [|a l IH]; [reflexivity|].
  cbn [map map_get find]. destruct (String.eqb (name a) k); [reflexivity | exact IH].
Qed.

Lemma parentKey_attachment (items : list FlatItem) (k : string) :
  NoDup (map name items) ->
  parentKey (indexed items []) k =
  match find (fun it => String.eqb (name it) k) items with
  | Some it => attachment items it
  | None => None
  end.
Proof.
  intros Hnd. unfold parentKey. rewrite (map_get_indexed items k Hnd).
  destruct (find (fun it => String.eqb (name it) k) items) as [it|]; [|reflexivity].
  cbn [option_map]. apply attachTo_indexed.
Qed.

Lemma reach_climbs (items : list FlatItem) :
  NoDup (map name items) ->
  forall j k,
    reach (indexed items []) (rootsIn (indexed items []) (indexed items [])) j k = true
    <-> climbs items j k = true.
Proof.
  intros Hnd. destruct (indexed_facts items) as (Hk & _ & _).
  induction j as [|j IH]; intros k.
  - cbn [reach climbs]. rewrite existsb_exists. split.
    + intros (x & Hx & E). apply String.eqb_eq in E. subst x.
      apply (In_roots _ Hk) in Hx. destruct Hx as [Hin Hp].
      rewrite (parentKey_attachment items k Hnd) in Hp.
      apply map_has_In in Hin. unfold map_has in Hin.
      rewrite (map_get_indexed items k Hnd) in Hin.
      destruct (find (fun it => String.eqb (name it) k) items) as [it|];
        [|discriminate].
      now rewrite Hp.
    + intros H. exists k. split; [|apply String.eqb_refl].
      apply (In_roots _ Hk).
      rewrite (parentKey_attachment items k Hnd).
      assert (Hin : In k (map fst (indexed items []))).
      { apply map_has_In. unfold map_has. rewrite (map_get_indexed items k Hnd).
        destruct (find (fun it => String.eqb (name it) k) items);
          [reflexivity | discriminate]. }
      split; [exact Hin|].
      destruct (find (fun it => String.eqb (name it) k) items) as [it|];
        [|reflexivity].
      destruct (attachment items it); [discriminate | reflexivity].
  - cbn [reach climbs]. rewrite (parentKey_attachment items k Hnd).
    destruct (find (fun it => String.eqb (name it) k) items) as [it|];
      [|split; discriminate].
    destruct (attachment items it) as [p|]; [apply IH | split; discriminate].
Qed.

(** X25. With levels in 1..6 and pairwise distinct names, a record has a
    node in the returned tree exactly when following its parent links ends,
    after some number of steps, at a record that is pushed to [roots] (so a
    record on a cycle of parent links, or below one, has none). *)
Theorem record_has_a_node_iff_its_parents_lead_to_the_root
        (items : list FlatItem) (it : FlatItem) :
  (forall x, In x items -> (1 <= level x <= 6)%Z) ->
  NoDup (map name items) ->
  In it items ->
  exists g t,
    nestFlatToTree items = Ok g /\ rootOf g = Some t /\
    ((exists nd, In nd (descendants t) /\ asItem nd = Some it) <->
     (exists j, climbs items j (name it) = true)).
Proof.
  intros Hlev Hnd Hit.
  assert (Hall : Forall levelOk items) by (apply Forall_forall; exact Hlev).
  destruct (indexed_facts items) as (Hk & Hfresh & Hnamed).
  destruct (root_wired _ Hk Hfresh Hnamed) as (ts & Hroot & _ & Hw & Hperm).
  exists (linkAll (indexed items [])). eexists.
  split; [apply nestFlatToTree_ok, Hall|]. split; [exact Hroot|].
  rewrite descendants_node.
  assert (HR0 : forall x, In x (rootsIn (indexed items []) (indexed items [])) ->
                  reach (indexed items []) (rootsIn (indexed items []) (indexed items [])) 0 x
                  = true).
  { intros x Hx. cbn [reach]. apply existsb_exists. exists x.
    split; [exact Hx | apply String.eqb_refl]. }
  destruct (upto_spec _ Hk (List.length (indexed items [])) 0 _
                      (roots_NoDup _ Hk) HR0) as [_ Hin].
  assert (Hentry : map_get (name it) (indexed items []) = Some (mkObj it [])).
  { apply (map_get_NoDup _ _ _ Hk).
    rewrite (indexed_distinct items [] Hnd) by (intros x _ []). cbn [app].
    apply in_map_iff. exists it. split; [reflexivity | exact Hit]. }
  split.
  - intros (nd & Hnd' & Has).
    assert (Hname : In (name it) (map t_name (forestNodes ts))).
    { rewrite <- (asItem_name _ _ Has). now apply in_map. }
    apply (Permutation_in _ Hperm) in Hname. apply Hin in Hname.
    destruct Hname as (j & _ & Hr). exists j. now apply (reach_climbs items Hnd).
  - intros (j & Hj). apply (reach_climbs items Hnd) in Hj.
    assert (Hup : In (name it)
                     (upto (indexed items []) (List.length (indexed items []))
                           (rootsIn (indexed items []) (indexed items [])))).
    { apply Hin. exists j. split; [|exact Hj]. exact (depth_bound _ Hk j _ Hj). }
    apply (Permutation_in _ (Permutation_sym Hperm)) in Hup.
    apply in_map_iff in Hup. destruct Hup as (nd & Hn & Hnd').
    exists nd. split; [exact Hnd'|].
    rewrite Forall_forall in Hw. destruct (Hw nd Hnd') as (o & Hget & Has & _).
    rewrite Hn, Hentry in Hget. injection Hget as <-. exact Has.
Qed.

(** X25 at the two records that name each other as parent: neither climbs
    to the root, and neither has a node. *)
Lemma record_has_a_node_iff_its_parents_lead_to_the_root_witness :
  let it := rec "A" 2 (Some "B"%string) in
  (forall x, In x cyclicPair -> (1 <= level x <= 6)%Z) /\
  NoDup (map name cyclicPair) /\
  In it cyclicPair /\
  exists g t,
    nestFlatToTree cyclicPair = Ok g /\ rootOf g = Some t /\
    ((exists nd, In nd (descendants t) /\ asItem nd = Some it) <->
     (exists j, climbs cyclicPair j (name it) = true)).
Proof.
  intros it.
  assert (H1 : forall x, In x cyclicPair -> (1 <= level x <= 6)%Z)
    by (intros x [<-|[<-|[]]]; cbn; lia).
  assert (H2 : NoDup (map name cyclicPair))
    by (cbn; repeat constructor; cbn; intuition discriminate).
  assert (H3 : In it cyclicPair) by (left; reflexivity).
  split; [exact H1|]. split; [exact H2|]. split; [exact H3|].
  exact (record_has_a_node_iff_its_parents_lead_to_the_root cyclicPair it H1 H2 H3).
Defined.

(** *** Acyclic parent links: every record has its node *)

(** With distinct names and acyclic parent links every record has a wired
    node below the root. *)
Lemma node_of_record (items : list FlatItem) (rank : string -> nat) :
  Forall levelOk items ->
  NoDup (map name items) ->
  ranked items rank ->
  exists ts,
    nestFlatToTree items = Ok (linkAll (indexed items [])) /\
    rootOf (linkAll (indexed items [])) =
      Some (mkTreeNode "root" None None None None (Some ts)) /\
    NoDup (map t_name (forestNodes ts)) /\
    Forall (wired (indexed items [])) (forestNodes ts) /\
    (forall it, In it items ->
       exists nd, In nd (forestNodes ts) /\ asItem nd = Some it) /\
    (forall nd it, In nd (forestNodes ts) -> In it items ->
       t_name nd = name it -> asItem nd = Some it).
Proof.
  intros Hall Hnd Hrank.
  destruct (indexed_facts items) as (Hk & Hfresh & Hnamed).
  destruct (root_wired _ Hk Hfresh Hnamed) as (ts & Hroot & _ & Hw & Hperm).
  destruct (upto_roots_NoDup _ Hk) as [Hund _].
  destruct (tree_of_records items rank Hall Hrank) as (ts' & Hok & Hroot' & Hrec).
  assert (ts' = ts) by congruence. subst ts'.
  exists ts. split; [exact Hok|]. split; [exact Hroot|].
  split; [exact (Permutation_NoDup (Permutation_sym Hperm) Hund)|].
  split; [exact Hw|].
  assert (Hentry : forall it, In it items ->
                     map_get (name it) (indexed items []) = Some (mkObj it [])).
  { intros it Hit. apply (map_get_NoDup _ _ _ Hk).
    rewrite (indexed_distinct items [] Hnd) by (intros x _ []). cbn [app].
    apply in_map_iff. exists it. split; [reflexivity | exact Hit]. }
  split.
  - intros it Hit.
    assert (Hin : In (Some it) (map asItem (forestNodes ts))).
    { apply (Permutation_in _ (Permutation_sym Hrec)).
      apply in_map_iff. exists (name it, mkObj it []).
      split; [reflexivity|]. exact (map_get_In _ _ _ (Hentry it Hit)). }
    apply in_map_iff in Hin. destruct Hin as (nd & Has & Hin). now exists nd.
  - intros nd it Hin Hit Hn. rewrite Forall_forall in Hw.
    destruct (Hw nd Hin) as (o & Hget & Has & _).
    rewrite Hn, (Hentry it Hit) in Hget. injection Hget as <-. exact Has.
Qed.

(** X12. With levels in 1..6, pairwise distinct names and acyclic parent
    links, a record [r] of a level other than 1 whose parent is the
    (non-empty) name of a record [q] is a child of the node of [q] in the
    tree, wherever [q] stands in the input, before or after [r]. *)
Theorem child_hangs_under_the_record_it_names
        (items : list FlatItem) (rank : string -> nat) (q r : FlatItem) :
  (forall it, In it items -> (1 <= level it <= 6)%Z) ->
  NoDup (map name items) ->
  ranked items rank ->
  In q items -> In r items ->
  level r <> 1%Z -> parent r = Some (name q) -> name q <> ""%string ->
  exists g t nq nr,
    nestFlatToTree items = Ok g /\ rootOf g = Some t /\
    In nq (descendants t) /\ asItem nq = Some q /\
    In nr (childrenOf nq) /\ asItem nr = Some r.
Proof.
  intros Hlev Hnd Hrank Hq Hr Hl Hp Hne.
  assert (Hall : Forall levelOk items) by (apply Forall_forall; exact Hlev).
  destruct (node_of_record items rank Hall Hnd Hrank)
    as (ts & Hok & Hroot & _ & Hw & Hex & Huniq).
  destruct (Hex q Hq) as (nq & Hnq & Hasq).
  assert (Hkids : In (name r) (map t_name (childrenOf nq))).
  { rewrite Forall_forall in Hw. destruct (Hw nq Hnq) as (o & _ & _ & Hch).
    rewrite Hch, (asItem_name _ _ Hasq), (kidsIn_indexed items _ Hnd).
    apply in_map. apply filter_In. split; [exact Hr|].
    unfold hangsUnder, attachment. rewrite Hp.
    destruct (Z.eqb_spec (level r) 1); [contradiction|].
    rewrite truthy_Some. destruct (String.eqb_spec (name q) ""); [contradiction|].
    cbn [negb].
    assert (He : existsb (fun x => String.eqb (name x) (name q)) items = true).
    { apply existsb_exists. exists q. split; [exact Hq | apply String.eqb_refl]. }
    rewrite He. apply String.eqb_refl. }
  apply in_map_iff in Hkids. destruct Hkids as (nr & Hn & Hnr).
  exists (linkAll (indexed items [])). eexists. exists nq, nr.
  split; [exact Hok|]. split; [exact Hroot|]. rewrite descendants_node.
  split; [exact Hnq|]. split; [exact Hasq|]. split; [exact Hnr|].
  apply Huniq; [|exact Hr | exact Hn].
  assert (Hsub : In nq (subtree (mkTreeNode "root" None None None None (Some ts)))).
  { right. now rewrite descendants_node. }
  assert (H := subtree_child_closed _ _ _ Hsub Hnr).
  now rewrite descendants_node in H.
Qed.

(** X12 at the records [kusama] listed with Style first: the record Style
    comes before the record Art it names as parent. *)
Lemma child_hangs_under_the_record_it_names_witness :
  let items := [rec "Style" 3 (Some "Art"%string); rec "Kusama" 1 None;
                rec "Art" 2 (Some "Kusama"%string)] in
  let q := rec "Art" 2 (Some "Kusama"%string) in
  let r := rec "Style" 3 (Some "Art"%string) in
  (forall it, In it items -> (1 <= level it <= 6)%Z) /\
  NoDup (map name items) /\
  ranked items (levelRank items) /\
  In q items /\ In r items /\
  level r <> 1%Z /\ parent r = Some (name q) /\ name q <> ""%string /\
  exists g t nq nr,
    nestFlatToTree items = Ok g /\ rootOf g = Some t /\
    In nq (descendants t) /\ asItem nq = Some q /\
    In nr (childrenOf nq) /\ asItem nr = Some r.
Proof.
  intros items q r.
  assert (H1 : forall it, In it items -> (1 <= level it <= 6)%Z)
    by (intros it [<-|[<-|[<-|[]]]]; cbn; lia).
  assert (H2 : NoDup (map name items))
    by (cbn; repeat constructor; cbn; intuition discriminate).
  assert (H3 : ranked items (levelRank items)).
  { intros it p [<-|[<-|[<-|[]]]] Hl Hp _ _; cbn in Hl, Hp;
      try congruence; injection Hp as <-; vm_compute; lia. }
  assert (H4 : In q items) by (do 2 right; left; reflexivity).
  assert (H5 : In r items) by (left; reflexivity).
  assert (H6 : level r <> 1%Z) by (cbn; lia).
  assert (H7 : parent r = Some (name q)) by reflexivity.
  assert (H8 : name q <> ""%string) by discriminate.
  split; [exact H1|]. split; [exact H2|]. split; [exact H3|]. split; [exact H4|].
  split; [exact H5|]. split; [exact H6|]. split; [exact H7|]. split; [exact H8|].
  exact (child_hangs_under_the_record_it_names items (levelRank items) q r
           H1 H2 H3 H4 H5 H6 H7 H8).
Defined.

(** X2. With levels in 1..6, pairwise distinct names and acyclic parent
    links, [findNodeByName] on the tree built by [nestFlatToTree] finds, for
    every record not named "root", the node that carries the record's
    fields. *)
Theorem findNodeByName_finds_every_record
        (items : list FlatItem) (rank : string -> nat) (it : FlatItem) :
  (forall x, In x items -> (1 <= level x <= 6)%Z) ->
  NoDup (map name items) ->
  ranked items rank ->
  In it items -> name it <> "root"%string ->
  exists g t nd,
    nestFlatToTree items = Ok g /\ rootOf g = Some t /\
    findNodeByName t (name it) = Some nd /\ asItem nd = Some it.
Proof.
  intros Hlev Hnd Hrank Hit Hne.
  assert (Hall : Forall levelOk items) by (apply Forall_forall; exact Hlev).
  destruct (node_of_record items rank Hall Hnd Hrank)
    as (ts & Hok & Hroot & Hnames & _ & Hex & _).
  destruct (Hex it Hit) as (nd & Hin & Has).
  exists (linkAll (indexed items [])). eexists. exists nd.
  split; [exact Hok|]. split; [exact Hroot|]. split; [|exact Has].
  rewrite findNodeByName_first_in_preorder_aux. unfold subtree.
  rewrite descendants_node. cbn [find]. unfold named at 1. cbn [t_name].
  destruct (String.eqb_spec "root" (name it)) as [E|_]; [now elim Hne|].
  rewrite <- (asItem_name _ _ Has). now apply find_the_named.
Qed.

(** X2 at the record Art of [kusama]. *)
Lemma findNodeByName_finds_every_record_witness :
  let it := rec "Art" 2 (Some "Kusama"%string) in
  (forall x, In x kusama -> (1 <= level x <= 6)%Z) /\
  NoDup (map name kusama) /\
  ranked kusama (levelRank kusama) /\
  In it kusama /\ name it <> "root"%string /\
  exists g t nd,
    nestFlatToTree kusama = Ok g /\ rootOf g = Some t /\
    findNodeByName t (name it) = Some nd /\ asItem nd = Some it.
Proof.
  intros it.
  assert (H1 : forall it, In it kusama -> (1 <= level it <= 6)%Z)
    by (intros x [<-|[<-|[<-|[<-|[]]]]]; cbn; lia).
  assert (H2 : NoDup (map name kusama))
    by (cbn; repeat constructor; cbn; intuition discriminate).
  assert (H3 : ranked kusama (levelRank kusama)).
  { intros x p [<-|[<-|[<-|[<-|[]]]]] Hl Hp _ _; cbn in Hl, Hp;
      try congruence; injection Hp as <-; vm_compute; lia. }
  assert (H4 : In it kusama) by (do 2 right; left; reflexivity).
  assert (H5 : name it <> "root"%string) by discriminate.
  split; [exact H1|]. split; [exact H2|].
  split; [exact H3|]. split; [exact H4|]. split; [exact H5|].
  exact (findNodeByName_finds_every_record kusama (levelRank kusama) it
           H1 H2 H3 H4 H5).
Defined.

(** *** Repeated names: the last record of a name stands for it *)

Lemma survivor_snoc (l : list FlatItem) (a : FlatItem) (k : string) :
  survivor (l ++ [a]) k = if String.eqb (name a) k then Some a else survivor l k.
Proof. unfold survivor. rewrite rev_app_distr. reflexivity. Qed.

Lemma map_get_survivor (items : list FlatItem) (k : string) :
  map_get k (indexed items []) =
  option_map (fun it => mkObj it []) (survivor items k).
Proof.
  induction items as [|a l IH] using rev_ind; [reflexivity|].
  rewrite survivor_snoc. unfold indexed. rewrite fold_left_app. cbn [fold_left].
  fold (indexed l []).
  destruct (String.eqb_spec (name a) k) as [E|E].
  - rewrite <- E. apply map_get_set_same.
  - rewrite map_get_set_other by (intros E'; now apply E). exact IH.
Qed.

Lemma parentKey_survivor (items : list FlatItem) (k : string) :
  parentKey (indexed items []) k =
  match survivor items k with
  | Some it => attachment items it
  | None => None
  end.
Proof.
  unfold parentKey. rewrite map_get_survivor.
  destruct (survivor items k) as [it|]; [|reflexivity].
  cbn [option_map]. apply attachTo_indexed.
Qed.

Lemma reach_ascends (items : list FlatItem) :
  forall j k,
    reach (indexed items []) (rootsIn (indexed items []) (indexed items [])) j k = true
    <-> ascends items j k = true.
Proof.
  destruct (indexed_facts items) as (Hk & _ & _).
  induction j as [|j IH]; intros k.
  - cbn [reach ascends]. rewrite existsb_exists. split.
    + intros (x & Hx & E). apply String.eqb_eq in E. subst x.
      apply (In_roots _ Hk) in Hx. destruct Hx as [Hin Hp].
      rewrite parentKey_survivor in Hp.
      apply map_has_In in Hin. unfold map_has in Hin.
      rewrite map_get_survivor in Hin.
      destruct (survivor items k) as [it|]; [|discriminate].
      now rewrite Hp.
    + intros H. exists k. split; [|apply String.eqb_refl].
      apply (In_roots _ Hk). rewrite parentKey_survivor.
      assert (Hin : In k (map fst (indexed items []))).
      { apply map_has_In. unfold map_has. rewrite map_get_survivor.
        destruct (survivor items k); [reflexivity | discriminate]. }
      split; [exact Hin|].
      destruct (survivor items k) as [it|]; [|reflexivity].
      destruct (attachment items it); [discriminate | reflexivity].
  - cbn [reach ascends]. rewrite parentKey_survivor.
    destruct (survivor items k) as [it|]; [|split; discriminate].
    destruct (attachment items it) as [p|]; [apply IH | split; discriminate].
Qed.

(** C8 (amended). When two records share a name and every level lies in
    1..6, a tree is returned and the last record of that name decides.  If
    following the parent links from it, each parent read as the last record
    of its name, ends at a record pushed to [roots], the tree has exactly one
    node of that name below the synthetic root, carrying the level, parent,
    source and value of that last record; it is the only node of that name
    in the whole tree unless the name is "root", which the synthetic root
    carries as well.  If the links never end there (they run into a cycle),
    the tree has no node of that name below the root. *)
Theorem duplicate_name_last_write_wins
        (pre mid post : list FlatItem) (r1 r2 : FlatItem) :
  name r1 = name r2 ->
  ~ In (name r2) (map name post) ->
  (forall it, In it (pre ++ r1 :: mid ++ r2 :: post) -> (1 <= level it <= 6)%Z) ->
  exists g t,
    nestFlatToTree (pre ++ r1 :: mid ++ r2 :: post) = Ok g /\
    rootOf g = Some t /\
    ((exists j, ascends (pre ++ r1 :: mid ++ r2 :: post) j (name r2) = true) ->
     exists nd,
       filter (fun n => String.eqb (t_name n) (name r2)) (descendants t) = [nd] /\
       asItem nd = Some r2 /\
       filter (fun n => String.eqb (t_name n) (name r2)) (t :: descendants t) =
         if String.eqb (name r2) "root" then [t; nd] else [nd]) /\
    ((forall j, ascends (pre ++ r1 :: mid ++ r2 :: post) j (name r2) = false) ->
     filter (fun n => String.eqb (t_name n) (name r2)) (descendants t) = []).
Proof.
  intros _ Hlast Hlev.
  set (items := pre ++ r1 :: mid ++ r2 :: post) in *.
  assert (Hall : Forall levelOk items) by (apply Forall_forall; exact Hlev).
  destruct (indexed_facts items) as (Hk & Hfresh & Hnamed).
  destruct (root_wired _ Hk Hfresh Hnamed) as (ts & Hroot & _ & Hw & Hperm).
  destruct (upto_roots_NoDup _ Hk) as [Hund _].
  set (es := indexed items []) in *.
  assert (HR0 : forall x, In x (rootsIn es es) -> reach es (rootsIn es es) 0 x = true).
  { intros x Hx. cbn [reach]. apply existsb_exists. exists x.
    split; [exact Hx | apply String.eqb_refl]. }
  destruct (upto_spec _ Hk (List.length es) 0 _ (roots_NoDup _ Hk) HR0) as [_ Hin].
  assert (Hnames : NoDup (map t_name (forestNodes ts)))
    by exact (Permutation_NoDup (Permutation_sym Hperm) Hund).
  assert (Hget : map_get (name r2) es = Some (mkObj r2 [])).
  { unfold es, items.
    replace (pre ++ r1 :: mid ++ r2 :: post) with ((pre ++ r1 :: mid) ++ r2 :: post)
      by (rewrite <- app_assoc; reflexivity).
    apply indexed_last. exact Hlast. }
  exists (linkAll es), (mkTreeNode "root" None None None None (Some ts)).
  split; [apply nestFlatToTree_ok, Hall|]. split; [exact Hroot|].
  rewrite descendants_node. split.
  - (* the last record leads to the root: its node is there, once *)
    intros (j & Hj). apply reach_ascends in Hj. fold es in Hj.
    assert (Hup : In (name r2) (upto es (List.length es) (rootsIn es es))).
    { apply Hin. exists j. split; [exact (depth_bound _ Hk j _ Hj) | exact Hj]. }
    apply (Permutation_in _ (Permutation_sym Hperm)) in Hup.
    apply in_map_iff in Hup. destruct Hup as (nd & Hn & Hnd).
    assert (Hone : filter (fun n => String.eqb (t_name n) (name r2)) (forestNodes ts)
                   = [nd]).
    { rewrite <- Hn. exact (filter_by_key t_name _ nd Hnames Hnd). }
    exists nd. split; [exact Hone|]. split.
    + rewrite Forall_forall in Hw. destruct (Hw nd Hnd) as (o & Ho & Has & _).
      rewrite Hn, Hget in Ho. injection Ho as <-. exact Has.
    + cbn [filter t_name]. rewrite Hone, (String.eqb_sym "root" (name r2)).
      reflexivity.
  - (* it does not: no node of the name is below the root *)
    intros Hno.
    destruct (filter (fun n => String.eqb (t_name n) (name r2)) (forestNodes ts))
      as [|nd rest] eqn:Hf; [reflexivity|].
    assert (Hnd : In nd (filter (fun n => String.eqb (t_name n) (name r2))
                                (forestNodes ts)))
      by (rewrite Hf; now left).
    apply filter_In in Hnd. destruct Hnd as [Hnd Hn]. apply String.eqb_eq in Hn.
    assert (Hup : In (name r2) (upto es (List.length es) (rootsIn es es))).
    { apply (Permutation_in _ Hperm). rewrite <- Hn. now apply in_map. }
    apply Hin in Hup. destruct Hup as (j & _ & Hr).
    apply reach_ascends in Hr. rewrite Hno in Hr. discriminate.
Qed.

(** C8 (amended) at the records A (parent B), B (parent A) and A again, of
    level 1: the second A is pushed to [roots], so the tree has the one node
    A carrying level 1, although the first A lay on a cycle with B. *)
Lemma duplicate_name_last_write_wins_witness :
  let r1 := rec "A" 2 (Some "B"%string) in
  let mid := [rec "B" 2 (Some "A"%string)] in
  let r2 := rec "A" 1 None in
  let items := [] ++ r1 :: mid ++ r2 :: [] in
  name r1 = name r2 /\
  ~ In (name r2) (map name (@nil FlatItem)) /\
  (forall it, In it items -> (1 <= level it <= 6)%Z) /\
  ascends items 0 (name r2) = true /\
  exists g t,
    nestFlatToTree items = Ok g /\
    rootOf g = Some t /\
    ((exists j, ascends items j (name r2) = true) ->
     exists nd,
       filter (fun n => String.eqb (t_name n) (name r2)) (descendants t) = [nd] /\
       asItem nd = Some r2 /\
       filter (fun n => String.eqb (t_name n) (name r2)) (t :: descendants t) =
         if String.eqb (name r2) "root" then [t; nd] else [nd]) /\
    ((forall j, ascends items j (name r2) = false) ->
     filter (fun n => String.eqb (t_name n) (name r2)) (descendants t) = []).
Proof.
  intros r1 mid r2 items.
  assert (H1 : name r1 = name r2) by reflexivity.
  assert (H2 : ~ In (name r2) (map name (@nil FlatItem))) by (simpl; tauto).
  assert (H3 : forall it, In it items -> (1 <= level it <= 6)%Z).
  { intros it [<-|[<-|[<-|[]]]]; simpl; lia. }
  split; [exact H1|]. split; [exact H2|]. split; [exact H3|].
  split; [reflexivity|].
  exact (duplicate_name_last_write_wins [] mid [] r1 r2 H1 H2 H3).
Defined.

End AttachmentFacts.

(** * More properties of [computeBubblePackingLayout] *)

Module LayoutMoreFacts.
Import RadialPacker RadialPackerFacts Navigation NavigationFacts Viewport.
Local Open Scope R_scope.

Lemma clamp_between (v lo hi : R) : lo <= hi -> lo <= clamp v lo hi <= hi.
Proof. intros H. split; [apply clamp_ge_min | now apply clamp_le_max]. Qed.

(** The radius the grandchildren of a child get: the first candidate
    [minGrandR], or that candidate times a ratio between 0.65 and 1. *)
Lemma grandRing_radius (focus : TreeNode) (side : R) (ch : ChildPlaced) (N : nat)
      (rG ringG : R) :
  grandRing focus side ch N = Some (rG, ringG) ->
  0.65 * minGrandR side <= rG <= minGrandR side.
Proof.
  unfold grandRing. pose proof (minGrandR_ge side) as H13.
  destruct (neighborRingCap focus side ch (minGrandR side)) as [[|m]|];
    [intros [= <- _]; lra | | discriminate].
  destruct (Rltb m (ringGminFor side ch N (minGrandR side)) && Rltb 0 m).
  - destruct (neighborRingCap focus side ch _) as [cap|]; [|discriminate].
    intros [= <- _].
    destruct (clamp_between (m / ringGminFor side ch N (minGrandR side)) 0.65 1)
      as [Hlo Hhi]; [lra|].
    set (ratio := clamp (m / ringGminFor side ch N (minGrandR side)) 0.65 1) in *.
    assert (Hprod : 0.65 * minGrandR side <= minGrandR side * ratio <= minGrandR side)
      by nra.
    rewrite Rmax_right by lra. exact Hprod.
  - intros [= <- _]. lra.
Qed.

Lemma arcBubbles_member (ch : ChildPlaced) (rG ringG t0 st : R) (gs : list TreeNode)
      (b : PlacedBubble) :
  forall i0,
    In b (arcBubbles ch rG ringG t0 st i0 gs) ->
    r b = rG /\ depth b = 2%nat /\ parentId b = Some (id (bubble ch)) /\
    exists i,
      (i0 <= i < i0 + List.length gs)%nat /\
      x b = x (bubble ch) + ringG * cos (t0 + INR i * st) /\
      y b = y (bubble ch) + ringG * sin (t0 + INR i * st).
Proof.
  induction gs as [|g gs IH]; intros i0; cbn [arcBubbles]; [intros []|].
  intros [<-|Hin].
  - cbn. repeat split. exists i0. cbn [List.length]. split; [lia|]. split; reflexivity.
  - destruct (IH (S i0) Hin) as (Hr & Hd & Hp & i & Hi & Hxy).
    repeat split; try assumption. exists i. cbn [List.length]. split; [lia | exact Hxy].
Qed.

(** Where a bubble of depth 2 sits: on the ring of radius [ringG] around its
    child, less than 75 degrees away from the child's own direction. *)
Lemma grandchild_position (focus : TreeNode) (side : R) (lay : Layout) (g : PlacedBubble) :
  computeBubblePackingLayout focus side = Some lay ->
  In g (nodes lay) -> depth g = 2%nat ->
  exists ch N ringG theta,
    In ch (placedChildren focus side) /\
    (0 < N)%nat /\
    grandRing focus side ch N = Some (r g, ringG) /\
    parentId g = Some (id (bubble ch)) /\
    x g = x (bubble ch) + ringG * cos theta /\
    y g = y (bubble ch) + ringG * sin theta /\
    Rabs (theta - angle ch) < (150 * PI / 180) / 2.
Proof.
  intros Hlay Hin Hd.
  destruct (node_cases focus side _ g Hlay Hin)
    as [->|[[ch [Hch ->]]|[ch [block [gn [Hch [Hpg [Hgin _]]]]]]]].
  { discriminate Hd. }
  { destruct (placedChildren_id_name focus side ch Hch) as [_ [_ [Hd1 _]]].
    rewrite Hd1 in Hd. discriminate Hd. }
  destruct (placeGrandchildren_shape focus side ch)
    as [block' [Hpg' [[_ ->]|[Hne [rG [ringG [Hring ->]]]]]]];
    rewrite Hpg in Hpg'; injection Hpg' as ->; [destruct Hgin|].
  set (N := List.length (childrenOf (data (bubble ch)))) in *.
  assert (HN : (0 < N)%nat).
  { unfold N. destruct (childrenOf (data (bubble ch))); [congruence | cbn; lia]. }
  destruct (grandRing_spec focus side ch N rG ringG HN Hring) as [H6 [HringG Hpos]].
  set (st := (2 * rG + gapG side) / ringG) in *.
  destruct (arcBubbles_member _ _ _ _ _ _ _ _ Hgin) as (Hr & _ & Hpar & i & Hi & Hx & Hy).
  set (theta := angle ch - (INR N - 1) * st / 2 + INR i * st) in *.
  assert (Hst : 0 < st /\ INR N * st <= arcSpan).
  { pose proof (gapG_ge side) as Hgap. pose proof arcSpan_pos as Harc.
    assert (Hnum : 0 < 2 * rG + gapG side) by lra.
    split; [apply Rdiv_lt_0_compat; assumption|].
    assert (Hge : INR N * (2 * rG + gapG side) / arcSpan <= ringG).
    { rewrite HringG. unfold ringGminFor. apply Rmax_l. }
    assert (HA : INR N * (2 * rG + gapG side) <= ringG * arcSpan).
    { replace (INR N * (2 * rG + gapG side))
        with (INR N * (2 * rG + gapG side) / arcSpan * arcSpan) by (field; lra).
      apply Rmult_le_compat_r; lra. }
    assert (HB : INR N * st * ringG = INR N * (2 * rG + gapG side))
      by (unfold st; field; lra).
    apply Rmult_le_reg_r with ringG; [exact Hpos | lra]. }
  destruct Hst as [Hst0 HstN].
  assert (Hi0 : 0 <= INR i) by apply pos_INR.
  assert (HiN : INR i <= INR N - 1).
  { assert (H : (i + 1 <= N)%nat) by (unfold N; lia).
    apply le_INR in H. rewrite plus_INR in H. cbn in H. lra. }
  exists ch, N, ringG, theta.
  split; [exact Hch|]. split; [exact HN|]. split; [now rewrite Hr|].
  split; [exact Hpar|]. split; [exact Hx|]. split; [exact Hy|].
  unfold arcSpan in HstN. apply Rabs_def1; unfold theta; nra.
Qed.

Lemma childInfo_r (focus : TreeNode) (side : R) (it : ChildInfo) :
  In it (childInfo focus side) ->
  exists gc : nat,
    ci_r it = clamp (side * 0.06 + INR gc * (side * 0.005)) (side * 0.05) (side * 0.12).
Proof.
  unfold childInfo. intros Hin. apply in_map_iff in Hin.
  destruct Hin as (c & <- & _). cbn [ci_r]. now exists (List.length (childrenOf c)).
Qed.

Lemma rParent_le (side : R) : rParent side <= 120.
Proof. unfold rParent. apply clamp_le_max. lra. Qed.

Lemma minGrandR_le (side : R) : minGrandR side <= 32.
Proof. unfold minGrandR. apply clamp_le_max. lra. Qed.

(** X13. For a canvas side >= 0 every radius of the layout is bounded: the
    focus bubble has a radius between 40 and 120, a child bubble between 5%
    and 12% of the side, and a grandchild bubble between 65% and 100% of the
    candidate radius [minGrandR], hence between 8.45 and 32. *)
Theorem every_radius_is_bounded (focus : TreeNode) (side : R) :
  0 <= side ->
  exists lay,
    computeBubblePackingLayout focus side = Some lay /\
    forall b, In b (nodes lay) ->
      (depth b = 0%nat -> 40 <= r b <= 120) /\
      (depth b = 1%nat -> side * 0.05 <= r b <= side * 0.12) /\
      (depth b = 2%nat ->
       0.65 * minGrandR side <= r b <= minGrandR side /\ 8.45 <= r b <= 32).
Proof.
  intros Hside.
  destruct (layout_shape focus side) as [blocks [Hlay Hblocks]].
  eexists. split; [exact Hlay|]. intros b Hin.
  destruct (node_cases focus side _ b Hlay Hin)
    as [->|[[ch [Hch ->]]|[ch [block [gn [Hch [Hpg [Hgin [_ [_ [_ [Hd2 _]]]]]]]]]]]].
  - cbn [depth r parentPlaced]. split; [|split; discriminate].
    intros _. split; [apply rParent_ge | apply rParent_le].
  - destruct (placedChildren_id_name focus side ch Hch) as [_ [_ [Hd1 _]]].
    rewrite Hd1. split; [discriminate|]. split; [|discriminate]. intros _.
    destruct (placedChildren_r focus side ch Hch) as (it & Hit & ->).
    destruct (childInfo_r focus side it Hit) as (gc & ->).
    apply clamp_between. lra.
  - rewrite Hd2. split; [discriminate|]. split; [discriminate|]. intros _.
    destruct (grandchild_position focus side _ b Hlay Hin Hd2)
      as (ch' & N & ringG & theta & _ & _ & Hring & _).
    assert (H := grandRing_radius focus side ch' N _ _ Hring).
    pose proof (minGrandR_ge side). pose proof (minGrandR_le side).
    split; [exact H | lra].
Qed.

(** X13 at the Kusama focus on a canvas of side 600. *)
Lemma every_radius_is_bounded_witness :
  0 <= 600 /\
  exists lay,
    computeBubblePackingLayout kusamaFocus 600 = Some lay /\
    forall b, In b (nodes lay) ->
      (depth b = 0%nat -> 40 <= r b <= 120) /\
      (depth b = 1%nat -> 600 * 0.05 <= r b <= 600 * 0.12) /\
      (depth b = 2%nat ->
       0.65 * minGrandR 600 <= r b <= minGrandR 600 /\ 8.45 <= r b <= 32).
Proof.
  assert (H : 0 <= 600) by lra.
  split; [exact H|]. exact (every_radius_is_bounded kusamaFocus 600 H).
Defined.

(** X14. For every focus and side, each grandchild bubble keeps clear of
    the child it belongs to: the distance between the two centres is at
    least the sum of the two radii plus the safety margin 6. *)
Theorem grandchildren_clear_their_child (focus : TreeNode) (side : R) :
  exists lay,
    computeBubblePackingLayout focus side = Some lay /\
    forall g, In g (nodes lay) -> depth g = 2%nat ->
      exists c,
        In c (nodes lay) /\ depth c = 1%nat /\ parentId g = Some (id c) /\
        r c + r g + 6 <= hypot (x g - x c) (y g - y c).
Proof.
  destruct (layout_shape focus side) as [blocks [Hlay Hblocks]].
  eexists. split; [exact Hlay|]. intros g Hin Hd.
  destruct (grandchild_position focus side _ g Hlay Hin Hd)
    as (ch & N & ringG & theta & Hch & HN & Hring & Hpar & Hx & Hy & _).
  destruct (grandRing_spec focus side ch N _ ringG HN Hring) as [_ [HringG Hpos]].
  exists (bubble ch).
  split; [cbn [nodes]; right; apply in_app_iff; left; now apply in_map|].
  split; [apply (placedChildren_id_name focus side ch Hch)|].
  split; [exact Hpar|].
  replace (x g - x (bubble ch)) with (ringG * cos theta) by (rewrite Hx; ring).
  replace (y g - y (bubble ch)) with (ringG * sin theta) by (rewrite Hy; ring).
  rewrite hypot_ring by lra. rewrite HringG. unfold ringGminFor, safety.
  apply Rmax_r.
Qed.

Lemma baseRing_clear (focus : TreeNode) (side : R) :
  rParent side + 28 <= ringR focus side.
Proof.
  unfold ringR. eapply Rle_trans; [|apply Rmax_l]. unfold baseRing.
  rewrite orZero_id.
  pose proof (fold_max_ge_init (childInfo focus side) 0). lra.
Qed.

(** The squared distance from the centre of a point at distance [rho] from
    a point of the ring, in a direction less than a quarter turn away from
    the outward one. *)
Lemma outward_distance (R0 rho alpha theta : R) :
  0 <= R0 -> 0 <= rho -> Rabs (theta - alpha) < PI / 2 ->
  R0 * R0 + rho * rho <=
  (R0 * cos alpha + rho * cos theta) * (R0 * cos alpha + rho * cos theta)
  + (R0 * sin alpha + rho * sin theta) * (R0 * sin alpha + rho * sin theta).
Proof.
  intros HR Hrho Hang.
  assert (Hcos : 0 < cos (theta - alpha)).
  { apply Rabs_def2 in Hang. apply cos_gt_0; lra. }
  rewrite cos_minus in Hcos.
  pose proof (sin2_cos2 alpha) as Ha. pose proof (sin2_cos2 theta) as Ht.
  unfold Rsqr in Ha, Ht.
  set (ca := cos alpha) in *. set (sa := sin alpha) in *.
  set (ct := cos theta) in *. set (st := sin theta) in *.
  replace ((R0 * ca + rho * ct) * (R0 * ca + rho * ct)
           + (R0 * sa + rho * st) * (R0 * sa + rho * st))
    with (R0 * R0 * (sa * sa + ca * ca) + rho * rho * (st * st + ct * ct)
          + 2 * (R0 * rho) * (ct * ca + st * sa)) by ring.
  rewrite Ha, Ht.
  assert (0 <= R0 * rho) by (apply Rmult_le_pos; assumption).
  assert (0 <= (R0 * rho) * (ct * ca + st * sa))
    by (apply Rmult_le_pos; lra).
  lra.
Qed.

(** X15. For a canvas side >= 0 no grandchild bubble overlaps the focus
    bubble: the distance from its centre to the centre of the focus bubble
    exceeds the sum of the two radii. *)
Theorem grandchildren_clear_the_focus (focus : TreeNode) (side : R) :
  0 <= side ->
  exists lay,
    computeBubblePackingLayout focus side = Some lay /\
    forall g, In g (nodes lay) -> depth g = 2%nat ->
      r (parentPlaced focus side) + r g
      < hypot (x g - x (parentPlaced focus side)) (y g - y (parentPlaced focus side)).
Proof.
  intros Hside.
  destruct (layout_shape focus side) as [blocks [Hlay Hblocks]].
  eexists. split; [exact Hlay|]. intros g Hin Hd.
  destruct (grandchild_position focus side _ g Hlay Hin Hd)
    as (ch & N & ringG & theta & Hch & HN & Hring & _ & Hx & Hy & Hang).
  destruct (grandRing_spec focus side ch N _ ringG HN Hring) as [H6 [HringG Hpos]].
  destruct (grandRing_radius focus side ch N _ _ Hring) as [_ HrG].
  pose proof (minGrandR_le side) as H32.
  destruct (placedChildren_on_ring focus side ch Hch) as [Hcx Hcy].
  destruct (placedChildren_r focus side ch Hch) as (it & Hit & Hrc).
  destruct (childInfo_r focus side it Hit) as (gc & Hci).
  assert (Hrc0 : 0 <= r (bubble ch)).
  { rewrite Hrc, Hci. eapply Rle_trans; [|apply clamp_ge_min]. lra. }
  assert (Hrho : r g + 6 <= ringG).
  { rewrite HringG. unfold ringGminFor, safety.
    eapply Rle_trans; [|apply Rmax_r]. lra. }
  pose proof (baseRing_clear focus side) as HR.
  pose proof (rParent_ge side) as HP40. pose proof (rParent_le side) as HP120.
  cbn [r x y parentPlaced].
  assert (Hquarter : Rabs (theta - angle ch) < PI / 2)
    by (pose proof PI_gt_3; lra).
  assert (Hfar := outward_distance (ringR focus side) ringG (angle ch) theta
                    ltac:(lra) ltac:(lra) Hquarter).
  replace (x g - cx side)
    with (ringR focus side * cos (angle ch) + ringG * cos theta)
    by (rewrite Hx, Hcx; ring).
  replace (y g - cy side)
    with (ringR focus side * sin (angle ch) + ringG * sin theta)
    by (rewrite Hy, Hcy; ring).
  unfold hypot.
  set (D2 := (ringR focus side * cos (angle ch) + ringG * cos theta)
             * (ringR focus side * cos (angle ch) + ringG * cos theta)
             + (ringR focus side * sin (angle ch) + ringG * sin theta)
               * (ringR focus side * sin (angle ch) + ringG * sin theta)) in *.
  set (rP := rParent side) in *. set (rG := r g) in *. set (R0 := ringR focus side) in *.
  assert (Hsq : (rP + rG) * (rP + rG) < D2).
  { assert (H1 : (rP + 28) * (rP + 28) <= R0 * R0) by nra.
    assert (H2 : (rG + 6) * (rG + 6) <= ringG * ringG) by nra.
    assert (H3 : 0 <= (rP - 40) * (32 - rG)) by (apply Rmult_le_pos; lra).
    nra. }
  rewrite <- (sqrt_square (rP + rG)) by lra.
  apply sqrt_lt_1_alt. split; [nra | exact Hsq].
Qed.

(** X15 at the Kusama focus on a canvas of side 600. *)
Lemma grandchildren_clear_the_focus_witness :
  0 <= 600 /\
  exists lay,
    computeBubblePackingLayout kusamaFocus 600 = Some lay /\
    forall g, In g (nodes lay) -> depth g = 2%nat ->
      r (parentPlaced kusamaFocus 600) + r g
      < hypot (x g - x (parentPlaced kusamaFocus 600))
              (y g - y (parentPlaced kusamaFocus 600)).
Proof.
  assert (H : 0 <= 600) by lra.
  split; [exact H|]. exact (grandchildren_clear_the_focus kusamaFocus 600 H).
Defined.

(** *** Grandchildren of one child *)

Lemma sin_cubic (a : R) : 0 <= a -> a <= PI -> a - a ^ 3 / 6 <= sin a.
Proof.
  intros H0 H1. destruct (sin_bound a 0 H0 H1) as [H _].
  unfold sin_approx, sin_term in H. simpl in H. lra.
Qed.

Lemma gapG_cases (side : R) :
  4 <= gapG side <= 12 /\ (gapG side = 4 \/ gapG side <= side * 0.006).
Proof.
  unfold gapG, clamp, Rmax, Rmin.
  destruct (Rle_dec 12 (side * 0.006)); destruct (Rle_dec 4 _); lra.
Qed.

Lemma minGrandR_cases (side : R) :
  minGrandR side <= 32 /\ (minGrandR side = 13 \/ minGrandR side <= side * 0.042).
Proof.
  unfold minGrandR, clamp, Rmax, Rmin.
  destruct (Rle_dec 32 (side * 0.042)); destruct (Rle_dec 13 _); lra.
Qed.

(** The ring of a child's grandchildren is wide enough for the cubic term
    of the chord to stay below the gap. *)
Lemma ring_room (side rc rG ringG : R) :
  0 <= side -> side * 0.05 <= rc ->
  0 < rG -> rG <= minGrandR side ->
  rc + rG + 6 <= ringG ->
  (2 * rG + gapG side) ^ 3 <= 24 * gapG side * (ringG * ringG).
Proof.
  intros Hs Hrc HrG Hm Hring.
  destruct (gapG_cases side) as [[Hg4 Hg12] Hg].
  destruct (minGrandR_cases side) as [Hm32 Hmc].
  set (g := gapG side) in *. set (t := 2 * rG + g).
  assert (Ht0 : 0 < t) by (unfold t; lra).
  assert (Ht76 : t <= 76) by (unfold t; lra).
  assert (Hcase : t <= ringG \/ (t <= 30 /\ g = 4 /\ t / 2 + 4 <= ringG)).
  { unfold t. destruct Hmc as [Hm13|Hms]; destruct Hg as [Hg4'|Hgs]; lra. }
  destruct Hcase as [Hbig|(Ht30 & Hg4' & Hhalf)].
  - assert (H1 : t * t <= ringG * ringG) by nra.
    assert (H2 : t ^ 3 <= 96 * (t * t)) by (simpl; nra).
    nra.
  - rewrite Hg4'.
    assert (H1 : (t / 2 + 4) * (t / 2 + 4) <= ringG * ringG) by nra.
    assert (H2 : t ^ 3 <= 30 * (t * t)) by (simpl; nra).
    nra.
Qed.

(** Two points of the arc, [i] and [j] steps from its start, are at least
    two radii apart. *)
Lemma arc_pair_apart (px py ringG rG g t0 st : R) (i j N : nat) :
  0 < ringG -> 0 < rG -> 0 <= g ->
  st = (2 * rG + g) / ringG ->
  INR N * st <= arcSpan ->
  (i < j < N)%nat ->
  (2 * rG + g) ^ 3 <= 24 * g * (ringG * ringG) ->
  rG + rG <=
  hypot ((px + ringG * cos (t0 + INR i * st)) - (px + ringG * cos (t0 + INR j * st)))
        ((py + ringG * sin (t0 + INR i * st)) - (py + ringG * sin (t0 + INR j * st))).
Proof.
  intros Hring HrG Hg Hst HN Hij Hroom.
  assert (Hst0 : 0 < st) by (rewrite Hst; apply Rdiv_lt_0_compat; lra).
  replace ((px + ringG * cos (t0 + INR i * st)) - (px + ringG * cos (t0 + INR j * st)))
    with (ringG * cos (t0 + INR i * st) - ringG * cos (t0 + INR j * st)) by ring.
  replace ((py + ringG * sin (t0 + INR i * st)) - (py + ringG * sin (t0 + INR j * st)))
    with (ringG * sin (t0 + INR i * st) - ringG * sin (t0 + INR j * st)) by ring.
  assert (Hi : INR i + 1 <= INR j).
  { assert (H : (i + 1 <= j)%nat) by lia. apply le_INR in H.
    rewrite plus_INR in H. cbn in H. lra. }
  assert (Hj : INR j <= INR N) by (apply le_INR; lia).
  assert (Hi0 : 0 <= INR i) by apply pos_INR.
  pose proof PI_gt_3 as Hpi.
  set (d := (t0 + INR j * st - (t0 + INR i * st)) / 2).
  assert (Hd : d = (INR j - INR i) * st / 2) by (unfold d; field).
  assert (Hd1 : st / 2 <= d) by (rewrite Hd; nra).
  assert (Hd2 : d <= arcSpan / 2) by (rewrite Hd; nra).
  assert (Harc : arcSpan / 2 < PI / 2) by (unfold arcSpan; lra).
  rewrite chord by (fold d; lra). fold d.
  assert (Hsin : sin (st / 2) <= sin d) by (apply sin_incr_1; lra).
  assert (Hcub : st / 2 - (st / 2) ^ 3 / 6 <= sin (st / 2))
    by (apply sin_cubic; lra).
  set (u := st / 2) in *.
  assert (Hu : 2 * ringG * u = 2 * rG + g) by (unfold u; rewrite Hst; field; lra).
  assert (Hu3 : ringG * u ^ 3 <= 3 * g).
  { apply Rmult_le_reg_l with (8 * (ringG * ringG)); [nra|].
    replace (8 * (ringG * ringG) * (ringG * u ^ 3)) with ((2 * ringG * u) ^ 3) by ring.
    rewrite Hu. lra. }
  assert (Hlow : rG + rG <= 2 * ringG * (u - u ^ 3 / 6)) by nra.
  assert (Hmono : 2 * ringG * (u - u ^ 3 / 6) <= 2 * ringG * sin d).
  { apply Rmult_le_compat_l; lra. }
  lra.
Qed.

Lemma arcBubbles_apart (ch : ChildPlaced) (rG ringG g t0 st : R) (N : nat)
      (gs : list TreeNode) :
  0 < ringG -> 0 < rG -> 0 <= g ->
  st = (2 * rG + g) / ringG ->
  INR N * st <= arcSpan ->
  (2 * rG + g) ^ 3 <= 24 * g * (ringG * ringG) ->
  forall i0,
    (i0 + List.length gs <= N)%nat ->
    ForallOrdPairs (fun b1 b2 => r b1 + r b2 <= hypot (x b1 - x b2) (y b1 - y b2))
                   (arcBubbles ch rG ringG t0 st i0 gs).
Proof.
  intros Hring HrG Hg Hst HN Hroom.
  induction gs as [|gn gs IH]; intros i0 Hlen; cbn [arcBubbles]; [constructor|].
  cbn [List.length] in Hlen. constructor; [|apply IH; lia].
  apply Forall_forall. intros b Hb.
  destruct (arcBubbles_member _ _ _ _ _ _ _ _ Hb) as (Hr & _ & _ & j & Hj & Hx & Hy).
  cbn [r x y]. rewrite Hr, Hx, Hy.
  apply (arc_pair_apart _ _ ringG rG g t0 st i0 j N); try assumption. lia.
Qed.

Lemma blocks_among (pcs : list ChildPlaced) (blocks : list (list PlacedBubble))
      (P Q : ChildPlaced -> list PlacedBubble -> Prop) :
  Forall2 P pcs blocks ->
  (forall ch block, In ch pcs -> P ch block -> Q ch block) ->
  Forall2 Q pcs blocks.
Proof.
  induction 1 as [|ch block pcs bs Hp _ IH]; intros Himp; constructor.
  - apply Himp; [now left | exact Hp].
  - apply IH. intros c b Hc. apply Himp. now right.
Qed.

(** X16. For a canvas side >= 0 the grandchild bubbles placed around one
    child do not overlap each other: any two of them have their centres at
    least the sum of their radii apart. *)
Theorem grandchildren_of_a_child_do_not_overlap (focus : TreeNode) (side : R) :
  0 <= side ->
  exists lay blocks,
    computeBubblePackingLayout focus side = Some lay /\
    nodes lay = parentPlaced focus side
                :: map bubble (placedChildren focus side) ++ List.concat blocks /\
    Forall2 (fun ch block =>
               placeGrandchildren focus side ch = Some block /\
               ForallOrdPairs
                 (fun b1 b2 => r b1 + r b2 <= hypot (x b1 - x b2) (y b1 - y b2))
                 block)
            (placedChildren focus side) blocks.
Proof.
  intros Hside.
  destruct (layout_shape focus side) as [blocks [Hlay Hblocks]].
  eexists. exists blocks. split; [exact Hlay|]. split; [reflexivity|].
  apply (blocks_among (placedChildren focus side) blocks _ _ Hblocks).
  intros ch block Hch [Hpg _]. split; [exact Hpg|].
  destruct (placeGrandchildren_shape focus side ch)
    as [block' [Hpg' [[_ ->]|[Hne [rG [ringG [Hring ->]]]]]]];
    rewrite Hpg in Hpg'; injection Hpg' as ->; [constructor|].
  set (gs' := childrenOf (data (bubble ch))) in *.
  set (N := List.length gs') in *.
  assert (HN : (0 < N)%nat).
  { unfold N. destruct gs'; [congruence | cbn; lia]. }
  destruct (grandRing_spec focus side ch N rG ringG HN Hring) as [H6 [HringG Hpos]].
  destruct (grandRing_radius focus side ch N _ _ Hring) as [_ HrG].
  destruct (placedChildren_r focus side ch Hch) as (it & Hit & Hrc).
  destruct (childInfo_r focus side it Hit) as (gc & Hci).
  assert (Hrc0 : side * 0.05 <= r (bubble ch))
    by (rewrite Hrc, Hci; apply clamp_ge_min).
  assert (Hge : r (bubble ch) + rG + 6 <= ringG).
  { rewrite HringG. unfold ringGminFor, safety. apply Rmax_r. }
  pose proof (gapG_ge side) as Hgap. pose proof arcSpan_pos as Harc.
  assert (HstN : INR N * ((2 * rG + gapG side) / ringG) <= arcSpan).
  { assert (Hge' : INR N * (2 * rG + gapG side) / arcSpan <= ringG).
    { rewrite HringG. unfold ringGminFor. apply Rmax_l. }
    assert (HA : INR N * (2 * rG + gapG side) <= ringG * arcSpan).
    { replace (INR N * (2 * rG + gapG side))
        with (INR N * (2 * rG + gapG side) / arcSpan * arcSpan) by (field; lra).
      apply Rmult_le_compat_r; lra. }
    assert (HB : INR N * ((2 * rG + gapG side) / ringG) * ringG
                 = INR N * (2 * rG + gapG side)) by (field; lra).
    apply Rmult_le_reg_r with ringG; [exact Hpos | lra]. }
  assert (Hroom : (2 * rG + gapG side) ^ 3 <= 24 * gapG side * (ringG * ringG))
    by (apply (ring_room side (r (bubble ch))); lra).
  apply (arcBubbles_apart ch rG ringG (gapG side) _ _ N gs' Hpos ltac:(lra) ltac:(lra)
           eq_refl HstN Hroom 0%nat).
  unfold N, gs'. cbn [Nat.add]. lia.
Qed.

(** X16 at the crowded focus, whose two children have twelve children
    each, on a canvas of side 2000. *)
Lemma grandchildren_of_a_child_do_not_overlap_witness :
  0 <= 2000 /\
  exists lay blocks,
    computeBubblePackingLayout crowdedFocus 2000 = Some lay /\
    nodes lay = parentPlaced crowdedFocus 2000
                :: map bubble (placedChildren crowdedFocus 2000) ++ List.concat blocks /\
    Forall2 (fun ch block =>
               placeGrandchildren crowdedFocus 2000 ch = Some block /\
               ForallOrdPairs
                 (fun b1 b2 => r b1 + r b2 <= hypot (x b1 - x b2) (y b1 - y b2))
                 block)
            (placedChildren crowdedFocus 2000) blocks.
Proof.
  assert (H : 0 <= 2000) by lra.
  split; [exact H|].
  exact (grandchildren_of_a_child_do_not_overlap crowdedFocus 2000 H).
Defined.

(** X17. The cap taken from the neighbouring children never lowers the ring
    of the grandchildren: for a child with at least one grandchild the final
    ring radius is the larger of the radius that fits the grandchildren on
    the arc and the radius that clears the child, both computed for the
    final grandchild radius. *)
Theorem neighbor_cap_never_lowers_the_ring
        (focus : TreeNode) (side : R) (ch : ChildPlaced) (n : nat) :
  exists rG ringG,
    grandRing focus side ch (S n) = Some (rG, ringG) /\
    ringG = Rmax (INR (S n) * (2 * rG + gapG side) / arcSpan) (r (bubble ch) + rG + 6) /\
    INR (S n) * (2 * rG + gapG side) <= ringG * arcSpan /\
    r (bubble ch) + rG + 6 <= ringG.
Proof.
  destruct (grandRing_total focus side ch (S n)) as (rG & ringG & Hring).
  exists rG, ringG. split; [exact Hring|].
  destruct (grandRing_spec focus side ch (S n) rG ringG ltac:(lia) Hring)
    as [H6 [HringG Hpos]].
  unfold ringGminFor, safety in HringG. split; [exact HringG|].
  pose proof arcSpan_pos as Harc. split.
  - assert (Hge : INR (S n) * (2 * rG + gapG side) / arcSpan <= ringG)
      by (rewrite HringG; apply Rmax_l).
    replace (INR (S n) * (2 * rG + gapG side))
      with (INR (S n) * (2 * rG + gapG side) / arcSpan * arcSpan) by (field; lra).
    apply Rmult_le_compat_r; lra.
  - rewrite HringG. apply Rmax_r.
Qed.

Lemma blocks_data (focus : TreeNode) (side : R) (pcs : list ChildPlaced)
      (blocks : list (list PlacedBubble)) :
  Forall2 (fun ch block => placeGrandchildren focus side ch = Some block /\
                           blockOf ch block) pcs blocks ->
  map data (List.concat blocks)
  = flat_map childrenOf (map (fun ch => data (bubble ch)) pcs) /\
  map name (List.concat blocks)
  = map t_name (flat_map childrenOf (map (fun ch => data (bubble ch)) pcs)).
Proof.
  induction 1 as [|ch block pcs bs [_ (rG & Hb)] _ [IHd IHn]]; [split; reflexivity|].
  cbn [List.concat map flat_map]. rewrite !map_app, IHd, IHn.
  assert (H : map data block = childrenOf (data (bubble ch)) /\
              map name block = map t_name (childrenOf (data (bubble ch)))).
  { clear - Hb. induction Hb as [|g b gs block' (_ & Hn & _ & Hd & _) _ [IH1 IH2]];
      [split; reflexivity|].
    cbn [map]. rewrite IH1, IH2, Hn, Hd. split; reflexivity. }
  destruct H as [-> ->]. split; reflexivity.
Qed.

(** X18. The layout lists the focus first, then its children in their
    order, then the grandchildren child by child in their order; each bubble
    is named after its node, and the returned side is the side given. *)
Theorem layout_lists_the_nodes_in_tree_order (focus : TreeNode) (side : R) :
  exists lay,
    computeBubblePackingLayout focus side = Some lay /\
    l_side lay = side /\
    map data (nodes lay)
    = focus :: childrenOf focus ++ flat_map childrenOf (childrenOf focus) /\
    map name (nodes lay) = map t_name (map data (nodes lay)).
Proof.
  destruct (layout_shape focus side) as [blocks [Hlay Hblocks]].
  eexists. split; [exact Hlay|]. split; [reflexivity|].
  destruct (blocks_data focus side _ _ Hblocks) as [Hd Hn].
  rewrite (placedChildren_data focus side) in Hd, Hn.
  assert (Hkids : map name (map bubble (placedChildren focus side))
                  = map t_name (childrenOf focus)).
  { rewrite <- (placedChildren_data focus side), !map_map.
    apply map_ext_in. intros ch Hch.
    apply (placedChildren_id_name focus side ch Hch). }
  cbn [nodes map data name parentPlaced].
  rewrite !map_app, Hd, Hn, Hkids, map_map, (placedChildren_data focus side).
  split; reflexivity.
Qed.

(** *** The layout the component asks for *)

Lemma overlaySide_ge (w h width height : R) : 288 <= overlaySide w h width height.
Proof.
  unfold overlaySide.
  assert (Hmin : 320 <= Rmin (vw w width) (vh h height)).
  { unfold vw, vh. apply Rmin_glb.
    - apply Rmax_l.
    - eapply Rle_trans; [|apply Rmax_l]. lra. }
  assert (Hz : (288 <= Zfloor (Rmin (vw w width) (vh h height) * 0.9))%Z).
  { apply Zfloor_lub. lra. }
  apply IZR_le in Hz. exact Hz.
Qed.

(** X19. In a tree with pairwise distinct node names, whenever the overlay
    node of a reachable state exists the layout the component asks for is
    returned: its side is at least 288 whatever the container and prop
    sizes, it starts with the bubble of the overlay node and has at least
    one child bubble. *)
Theorem overlay_layout_is_drawn
        (tree : TreeNode) (st : UiState) (w h width height : R) (nd : TreeNode) :
  NoDup (map t_name (subtree tree)) ->
  reachable tree st ->
  overlayNode tree st = Some nd ->
  exists lay,
    overlayLayout w h width height tree st = Some (Some lay) /\
    288 <= l_side lay /\
    (2 <= List.length (nodes lay))%nat /\
    exists b c, nth_error (nodes lay) 0 = Some b /\ data b = nd /\ depth b = 0%nat /\
                nth_error (nodes lay) 1 = Some c /\ depth c = 1%nat.
Proof.
  intros Hnd Hreach Hov.
  assert (Hkids : hasChildren nd = true).
  { assert (Hok : overlayOk tree st).
    { clear Hov. induction Hreach as [|s s' _ IH Hstep].
      - split; discriminate.
      - exact (overlayOk_step tree s s' Hnd IH Hstep). }
    destruct Hok as [_ Hok].
    assert (Ht : truthy (overlayFocusName st) = true).
    { unfold overlayNode in Hov. destruct (truthy (overlayFocusName st));
        [reflexivity | discriminate]. }
    destruct (Hok Ht) as (nd' & Hnd' & Hc). congruence. }
  unfold overlayLayout. rewrite Hov.
  set (side := overlaySide w h width height).
  destruct (layout_shape nd side) as [blocks [Hlay _]].
  eexists. split; [now rewrite Hlay|]. cbn [l_side nodes].
  split; [apply overlaySide_ge|].
  assert (Hlen := placedChildren_length nd side).
  unfold hasChildren in Hkids. unfold childrenOf in Hlen.
  destruct (t_children nd) as [[|c cs]|]; try discriminate.
  destruct (placedChildren nd side) as [|pc pcs] eqn:Hpc; [discriminate|].
  split; [cbn [List.length map app]; lia|].
  exists (parentPlaced nd side), (bubble pc).
  split; [reflexivity|]. split; [reflexivity|]. split; [reflexivity|].
  split; [reflexivity|].
  apply (placedChildren_id_name nd side pc). rewrite Hpc. now left.
Qed.

(** X19 in the state after a click on the bubble Kusama, in a container of
    800 by 500. *)
Lemma overlay_layout_is_drawn_witness :
  NoDup (map t_name (subtree kusamaTree)) /\
  reachable kusamaTree clicked /\
  overlayNode kusamaTree clicked = Some kusamaFocus /\
  exists lay,
    overlayLayout 800 500 900 600 kusamaTree clicked = Some (Some lay) /\
    288 <= l_side lay /\
    (2 <= List.length (nodes lay))%nat /\
    exists b c, nth_error (nodes lay) 0 = Some b /\ data b = kusamaFocus /\
                depth b = 0%nat /\
                nth_error (nodes lay) 1 = Some c /\ depth c = 1%nat.
Proof.
  assert (H1 : NoDup (map t_name (subtree kusamaTree)))
    by (cbn; repeat constructor; cbn; intuition discriminate).
  assert (H2 : reachable kusamaTree clicked).
  { apply (reach_step kusamaTree initialState); [apply reach_initial|].
    apply step_click. left. reflexivity. }
  assert (H3 : overlayNode kusamaTree clicked = Some kusamaFocus) by reflexivity.
  split; [exact H1|]. split; [exact H2|]. split; [exact H3|].
  exact (overlay_layout_is_drawn kusamaTree clicked 800 500 900 600 kusamaFocus
           H1 H2 H3).
Defined.

(** *** Children on a canvas of side up to 750 *)

(** Two points of a circle whose arc distance, in either direction, is at
    least [a] are at least the chord of [a] apart. *)
Lemma chord_of_arc (R0 a u v : R) :
  0 < R0 -> 0 <= a ->
  a <= R0 * (v - u) -> a <= R0 * (2 * PI - (v - u)) ->
  2 * R0 * sin (a / (2 * R0))
  <= hypot (R0 * cos u - R0 * cos v) (R0 * sin u - R0 * sin v).
Proof.
  intros HR Ha H1 H2. pose proof PI_gt_3 as Hpi.
  set (w := a / (2 * R0)).
  assert (Hw : 2 * R0 * w = a) by (unfold w; field; lra).
  assert (Hw0 : 0 <= w).
  { unfold w, Rdiv. apply Rmult_le_pos; [lra|].
    left. apply Rinv_0_lt_compat. lra. }
  assert (Hlo : w <= (v - u) / 2) by nra.
  assert (Hhi : (v - u) / 2 <= PI - w) by nra.
  rewrite chord by lra.
  apply Rmult_le_compat_l; [lra|].
  destruct (Rle_dec ((v - u) / 2) (PI / 2)) as [Hd|Hd].
  - apply sin_incr_1; lra.
  - rewrite <- (sin_PI_x ((v - u) / 2)). apply sin_incr_1; lra.
Qed.

Lemma chord_room (R0 a g : R) :
  0 < R0 -> 0 <= a -> a ^ 3 <= 24 * g * (R0 * R0) ->
  a - g <= 2 * R0 * sin (a / (2 * R0)).
Proof.
  intros HR Ha Hroom. pose proof PI_gt_3 as Hpi.
  set (w := a / (2 * R0)).
  assert (Hw : 2 * R0 * w = a) by (unfold w; field; lra).
  assert (Hw0 : 0 <= w).
  { unfold w, Rdiv. apply Rmult_le_pos; [lra|].
    left. apply Rinv_0_lt_compat. lra. }
  assert (Hw3 : R0 * w ^ 3 <= 3 * g).
  { apply Rmult_le_reg_l with (8 * (R0 * R0)); [nra|].
    replace (8 * (R0 * R0) * (R0 * w ^ 3)) with ((2 * R0 * w) ^ 3) by ring.
    rewrite Hw. lra. }
  destruct (Rle_dec w PI) as [Hle|Hgt].
  - assert (Hcub := sin_cubic w Hw0 Hle).
    assert (Hmono : 2 * R0 * (w - w ^ 3 / 6) <= 2 * R0 * sin w)
      by (apply Rmult_le_compat_l; lra).
    nra.
  - (* [w > PI]: the bound on [w ^ 3] makes [a - g] negative *)
    assert (Hw1 : 3 <= w) by lra.
    assert (Hsq : 9 <= w * w) by nra.
    assert (Hc : 9 * (R0 * w) <= R0 * w ^ 3).
    { replace (R0 * w ^ 3) with ((R0 * w) * (w * w)) by ring.
      assert (0 <= R0 * w) by nra. nra. }
    assert (Hs : -1 <= sin w) by (destruct (SIN_bound w); lra).
    assert (Hneg : a - g <= - (2 * R0)) by nra.
    nra.
Qed.

Lemma gapC_small (side : R) : side <= 750 -> gapC side = 6.
Proof.
  intros H. unfold gapC, clamp. rewrite Rmin_right by lra. apply Rmax_left. lra.
Qed.

Lemma rParent_small (side : R) : side <= 750 -> side * 0.16 <= rParent side.
Proof.
  intros H. unfold rParent, clamp. rewrite Rmin_right by lra. apply Rmax_r.
Qed.

Lemma ringR_clears (focus : TreeNode) (side : R) (ch : ChildPlaced) :
  In ch (placedChildren focus side) ->
  rParent side + r (bubble ch) + 28 <= ringR focus side.
Proof.
  intros Hch. destruct (placedChildren_r focus side ch Hch) as [it [Hit ->]].
  unfold ringR. eapply Rle_trans; [|apply Rmax_l]. unfold baseRing.
  rewrite orZero_id.
  pose proof (fold_max_ge_each (childInfo focus side) 0 it Hit). lra.
Qed.

(** X27. On a canvas of side between 0 and 750 no two child bubbles
    overlap: the centres of any two of them are at least the sum of their
    radii apart, in a straight line. *)
Theorem children_do_not_overlap_up_to_side_750 (focus : TreeNode) (side : R) :
  0 <= side <= 750 ->
  exists lay,
    computeBubblePackingLayout focus side = Some lay /\
    filter (fun b => Nat.eqb (depth b) 1) (nodes lay)
    = map bubble (placedChildren focus side) /\
    ForallOrdPairs
      (fun ci cj =>
         r (bubble ci) + r (bubble cj)
         <= hypot (x (bubble ci) - x (bubble cj)) (y (bubble ci) - y (bubble cj)))
      (placedChildren focus side).
Proof.
  intros [Hs0 Hs750].
  destruct (layout_shape focus side) as [blocks [Hlay Hblocks]].
  destruct (blocks_facts focus side _ _ Hblocks) as [_ [Hd2 _]].
  pose proof (ringR_ge focus side) as HR. pose proof PI_gt_3 as Hpi.
  eexists. split; [exact Hlay|]. split; [apply filter_depth_1, Hd2|].
  assert (Hnn : Forall (fun it => 0 <= ci_r it) (childInfo focus side))
    by (apply childInfo_r_nonneg; lra).
  destruct (placeChildren_sweep focus side _ Hnn 0) as [Hb Hp].
  fold (placedChildren focus side) in Hb, Hp.
  assert (Hfit : sumArc side (childInfo focus side) <= 2 * PI * ringR focus side).
  { rewrite <- circumferenceNeeded_sum.
    assert (H : circumferenceNeeded focus side / (2 * PI) <= ringR focus side)
      by apply Rmax_r.
    replace (circumferenceNeeded focus side)
      with (circumferenceNeeded focus side / (2 * PI) * (2 * PI)) by (field; lra).
    nra. }
  assert (Hmem : Forall (fun ch => In ch (placedChildren focus side))
                        (placedChildren focus side))
    by (apply Forall_forall; auto).
  assert (Hall := Forall_and Hb Hmem). cbv beta in Hall.
  eapply FOP_impl; [|apply (FOP_with_Forall _ _ _ Hp Hall)].
  intros ci cj (Hsep & ((Hi1 & Hi2) & Hci) & ((Hj1 & Hj2) & Hcj)).
  unfold arcOf in *.
  assert (Hsep2 : r (bubble ci) + r (bubble cj) + gapC side
                  <= ringR focus side * (2 * PI - (angle cj - angle ci))) by nra.
  clear Hi1 Hi2 Hj1 Hj2 Hfit.
  rewrite (gapC_small side Hs750) in Hsep, Hsep2.
  destruct (placedChildren_on_ring focus side ci Hci) as [Hxi Hyi].
  destruct (placedChildren_on_ring focus side cj Hcj) as [Hxj Hyj].
  destruct (placedChildren_r focus side ci Hci) as (iti & Hiti & Hri).
  destruct (placedChildren_r focus side cj Hcj) as (itj & Hitj & Hrj).
  destruct (childInfo_r focus side iti Hiti) as (gi & Hgi).
  destruct (childInfo_r focus side itj Hitj) as (gj & Hgj).
  assert (Hbi : side * 0.05 <= r (bubble ci) <= side * 0.12)
    by (rewrite Hri, Hgi; apply clamp_between; lra).
  assert (Hbj : side * 0.05 <= r (bubble cj) <= side * 0.12)
    by (rewrite Hrj, Hgj; apply clamp_between; lra).
  pose proof (ringR_clears focus side ci Hci) as HRi.
  pose proof (ringR_clears focus side cj Hcj) as HRj.
  pose proof (rParent_ge side) as HP40.
  pose proof (rParent_small side Hs750) as HPs.
  set (R0 := ringR focus side) in *.
  set (a := r (bubble ci) + r (bubble cj) + 6) in *.
  assert (Ha0 : 0 <= a) by (unfold a; lra).
  assert (Hroom : a ^ 3 <= 24 * 6 * (R0 * R0)).
  { assert (Ha186 : a <= 186) by (unfold a; lra).
    assert (HRa : 7 / 6 * a <= R0) by (unfold a; lra).
    assert (H1 : 49 / 36 * (a * a) <= R0 * R0) by nra.
    assert (H2 : a ^ 3 <= 186 * (a * a)) by (simpl; nra).
    nra. }
  rewrite Hxi, Hyi, Hxj, Hyj.
  replace (cx side + R0 * cos (angle ci) - (cx side + R0 * cos (angle cj)))
    with (R0 * cos (angle ci) - R0 * cos (angle cj)) by ring.
  replace (cy side + R0 * sin (angle ci) - (cy side + R0 * sin (angle cj)))
    with (R0 * sin (angle ci) - R0 * sin (angle cj)) by ring.
  eapply Rle_trans; [|apply (chord_of_arc R0 a); try assumption; lra].
  assert (H := chord_room R0 a 6 ltac:(lra) Ha0 Hroom). unfold a in *. lra.
Qed.

(** X27 at the crowded focus on a canvas of side 750. *)
Lemma children_do_not_overlap_up_to_side_750_witness :
  0 <= 750 <= 750 /\
  exists lay,
    computeBubblePackingLayout crowdedFocus 750 = Some lay /\
    filter (fun b => Nat.eqb (depth b) 1) (nodes lay)
    = map bubble (placedChildren crowdedFocus 750) /\
    ForallOrdPairs
      (fun ci cj =>
         r (bubble ci) + r (bubble cj)
         <= hypot (x (bubble ci) - x (bubble cj)) (y (bubble ci) - y (bubble cj)))
      (placedChildren crowdedFocus 750).
Proof.
  assert (H : 0 <= 750 <= 750) by lra.
  split; [exact H|].
  exact (children_do_not_overlap_up_to_side_750 crowdedFocus 750 H).
Defined.

(** *** Clicking a bubble of the overlay *)

Lemma subtree_closed (nd : TreeNode) :
  forall x, In x (subtree nd) -> forall t, In nd (subtree t) -> In x (subtree t).
Proof.
  induction nd as [nd IH] using tree_children_ind. intros x [<-|Hx] t Hnd.
  - exact Hnd.
  - rewrite descendants_children in Hx. unfold TreeBuilder.forestNodes in Hx.
    apply in_flat_map in Hx. destruct Hx as (k & Hk & Hxk).
    apply (IH k Hk x Hxk). right. exact (subtree_child_closed _ _ _ Hnd Hk).
Qed.

(** Every bubble of the layout is named after its node, a node of the tree
    below the focus. *)
Lemma bubble_node (focus : TreeNode) (side : R) (lay : Layout) (b : PlacedBubble) :
  computeBubblePackingLayout focus side = Some lay ->
  In b (nodes lay) ->
  name b = t_name (data b) /\ In (data b) (subtree focus).
Proof.
  intros Hlay Hin.
  destruct (layout_shape focus side) as [blocks [Hlay' Hblocks]].
  rewrite Hlay in Hlay'. injection Hlay' as ->. cbn [nodes] in Hin.
  destruct Hin as [<-|Hin]; [split; [reflexivity | now left]|].
  apply in_app_iff in Hin. destruct Hin as [Hin|Hin].
  - apply in_map_iff in Hin. destruct Hin as (ch & <- & Hch).
    split; [apply (placedChildren_id_name focus side ch Hch)|].
    right. apply child_in_subtree. rewrite <- (placedChildren_data focus side).
    apply in_map_iff. now exists ch.
  - destruct (Forall2_concat_In _ _ _ _ Hblocks Hin)
      as (ch & block & Hch & [_ (rG & Hb)] & Hbin).
    destruct (Forall2_In_r _ _ _ _ Hb Hbin) as (g & Hg & _ & Hn & _ & Hd & _).
    rewrite Hd. split; [exact Hn|].
    assert (Hc : In (data (bubble ch)) (subtree focus)).
    { right. apply child_in_subtree. rewrite <- (placedChildren_data focus side).
      apply in_map_iff. now exists ch. }
    right. exact (subtree_child_closed _ _ _ Hc Hg).
Qed.

(** X26. In a tree with pairwise distinct node names, a click on a bubble
    of the overlay layout whose name is not empty drills into the node of
    that very bubble when the node has children, keeping the overlay open
    as it was, and changes nothing when the node has none. *)
Theorem clicking_a_bubble_drills_into_its_node
        (tree : TreeNode) (st : UiState) (side : R) (nd : TreeNode) :
  NoDup (map t_name (subtree tree)) ->
  overlayNode tree st = Some nd ->
  exists lay,
    computeBubblePackingLayout nd side = Some lay /\
    forall b, In b (nodes lay) -> name b <> ""%string ->
      (hasChildren (data b) = true ->
       overlayNode tree (overlayDrillDown tree b st) = Some (data b) /\
       isOverlayOpen (overlayDrillDown tree b st) = isOverlayOpen st) /\
      (hasChildren (data b) = false -> overlayDrillDown tree b st = st).
Proof.
  intros Hnd Hov.
  destruct (layout_shape nd side) as [blocks [Hlay _]].
  eexists. split; [exact Hlay|]. intros b Hin Hne.
  destruct (bubble_node nd side _ b Hlay Hin) as [Hname Hsub].
  assert (Hnode : In nd (subtree tree)).
  { unfold overlayNode in Hov. destruct (truthy (overlayFocusName st)); [|discriminate].
    destruct (overlayFocusName st) as [s|]; [|discriminate].
    now apply findNodeByName_In in Hov. }
  assert (Hfind : findNodeByName tree (name b) = Some (data b)).
  { rewrite Hname. apply findNodeByName_finds; [exact Hnd|].
    exact (subtree_closed nd _ Hsub tree Hnode). }
  unfold overlayDrillDown. rewrite Hfind. split.
  - intros Hc. rewrite Hc. unfold overlayNode. cbn [overlayFocusName isOverlayOpen].
    rewrite truthy_Some. destruct (String.eqb_spec (name b) ""); [contradiction|].
    cbn [negb]. split; [exact Hfind | reflexivity].
  - intros Hc. now rewrite Hc.
Qed.

(** X26 in the overlay opened on Kusama, on a canvas of side 600. *)
Lemma clicking_a_bubble_drills_into_its_node_witness :
  NoDup (map t_name (subtree kusamaTree)) /\
  overlayNode kusamaTree clicked = Some kusamaFocus /\
  exists lay,
    computeBubblePackingLayout kusamaFocus 600 = Some lay /\
    forall b, In b (nodes lay) -> name b <> ""%string ->
      (hasChildren (data b) = true ->
       overlayNode kusamaTree (overlayDrillDown kusamaTree b clicked) = Some (data b) /\
       isOverlayOpen (overlayDrillDown kusamaTree b clicked) = isOverlayOpen clicked) /\
      (hasChildren (data b) = false -> overlayDrillDown kusamaTree b clicked = clicked).
Proof.
  assert (H1 : NoDup (map t_name (subtree kusamaTree)))
    by (cbn; repeat constructor; cbn; intuition discriminate).
  assert (H2 : overlayNode kusamaTree clicked = Some kusamaFocus) by reflexivity.
  split; [exact H1|]. split; [exact H2|].
  exact (clicking_a_bubble_drills_into_its_node kusamaTree clicked 600 kusamaFocus H1 H2).
Defined.

End LayoutMoreFacts.

(** * Properties of the depth-limited copy *)

Module DepthLimitFacts.
Import TreeBuilder Navigation NavigationFacts DepthLimit.

Lemma height_children t :
  height t = fold_right (fun c m => Nat.max (S (height c)) m) 0%nat (childrenOf t).
Proof. destruct t as [n l p s v [cs|]]; reflexivity. Qed.

Lemma cloneDepthLimited_eq node d :
  cloneDepthLimited node d =
  if (d <=? 0)%Z then withChildren node []
  else withChildren node (map (fun c => cloneDepthLimited c (d - 1)) (childrenOf node)).
Proof.
  destruct node as [n l p s v [[|c cs]|]]; cbn; destruct (d <=? 0)%Z; reflexivity.
Qed.

Lemma height_bound_children (cs : list TreeNode) (k : nat) :
  (forall c, In c cs -> height c <= k) ->
  fold_right (fun c m => Nat.max (S (height c)) m) 0%nat cs <= S k.
Proof.
  induction cs as [|c cs IH]; intros H; cbn [fold_right]; [lia|].
  assert (Hc := H c (or_introl eq_refl)).
  assert (Hr := IH (fun x Hx => H x (or_intror Hx))). lia.
Qed.

Lemma clone_height node :
  forall d, height (cloneDepthLimited node d) <= Z.to_nat d.
Proof.
  induction node as [t IH] using tree_children_ind. intros d.
  rewrite cloneDepthLimited_eq. destruct (Z.leb_spec d 0) as [Hd|Hd].
  - cbn. lia.
  - rewrite height_children. unfold childrenOf at 1, withChildren. cbn [t_children].
    replace (Z.to_nat d) with (S (Z.to_nat (d - 1))) by lia.
    apply height_bound_children. intros c Hc.
    apply in_map_iff in Hc. destruct Hc as (k & <- & Hk). now apply IH.
Qed.

(** X20. [cloneDepthLimited] returns a copy with the fields of the node and
    a children array, in which no chain of children is longer than
    [maxDepth] links; for a positive [maxDepth] the copy has the children of
    the node, in order, and for [maxDepth] <= 0 it has none. *)
Theorem cloneDepthLimited_cuts_below_the_depth (node : TreeNode) (maxDepth : Z) :
  height (cloneDepthLimited node maxDepth) <= Z.to_nat maxDepth /\
  t_name (cloneDepthLimited node maxDepth) = t_name node /\
  asItem (cloneDepthLimited node maxDepth) = asItem node /\
  t_children (cloneDepthLimited node maxDepth) <> None /\
  ((0 < maxDepth)%Z ->
   map t_name (childrenOf (cloneDepthLimited node maxDepth))
   = map t_name (childrenOf node)) /\
  ((maxDepth <= 0)%Z -> childrenOf (cloneDepthLimited node maxDepth) = []).
Proof.
  split; [apply clone_height|].
  rewrite cloneDepthLimited_eq. destruct (Z.leb_spec maxDepth 0) as [Hd|Hd].
  - repeat split; try discriminate; try reflexivity. lia.
  - split; [reflexivity|]. split; [reflexivity|]. split; [discriminate|].
    split; [|lia]. intros _. unfold childrenOf at 1, withChildren. cbn [t_children].
    rewrite map_map. apply map_ext. intros c. rewrite cloneDepthLimited_eq.
    now destruct (maxDepth - 1 <=? 0)%Z.
Qed.

Lemma assign_children node k :
  childrenOf (assignDepthValues node k)
  = map (fun c => assignDepthValues c (S k)) (childrenOf node).
Proof. destruct node as [n l p s v [cs|]]; reflexivity. Qed.

Lemma assign_value node k :
  t_value (assignDepthValues node k) = nth_error weights (Nat.min k 2).
Proof. destruct node as [n l p s v cs]; reflexivity. Qed.

Lemma clone_children node d :
  childrenOf (cloneDepthLimited node d)
  = if (d <=? 0)%Z then []
    else map (fun c => cloneDepthLimited c (d - 1)) (childrenOf node).
Proof. rewrite cloneDepthLimited_eq. now destruct (d <=? 0)%Z. Qed.

(** The nodes of the limited copy: the root, the copies of the children
    and the copies of the grandchildren, which have no children. *)
Lemma limited_nodes (node : TreeNode) (p : TreeNode) :
  In p (subtree (limited node)) ->
  (p = limited node /\ t_value p = Some 1000%Q /\
   forall c, In c (childrenOf p) -> t_value c = Some 300%Q) \/
  (t_value p = Some 300%Q /\
   forall c, In c (childrenOf p) -> t_value c = Some 80%Q) \/
  (t_value p = Some 80%Q /\ childrenOf p = []).
Proof.
  unfold limited. rewrite subtree_children, assign_children, clone_children.
  cbn [Z.leb Z.compare]. change (2 - 1)%Z with 1%Z.
  intros [<-|Hin].
  - left. split; [reflexivity|]. split; [apply assign_value|].
    rewrite assign_children, clone_children. cbn [Z.leb Z.compare].
    intros c Hc. apply in_map_iff in Hc. destruct Hc as (k & <- & _).
    apply assign_value.
  - right. unfold forestNodes in Hin. apply in_flat_map in Hin.
    destruct Hin as (m & Hm & Hp).
    apply in_map_iff in Hm. destruct Hm as (m' & <- & Hm').
    apply in_map_iff in Hm'. destruct Hm' as (c & <- & Hc).
    fold (subtree (assignDepthValues (cloneDepthLimited c 1) 1)) in Hp.
    rewrite subtree_children, assign_children, clone_children in Hp.
    cbn [Z.leb Z.compare] in Hp. change (1 - 1)%Z with 0%Z in Hp.
    destruct Hp as [<-|Hp].
    + left. split; [apply assign_value|].
      rewrite assign_children, clone_children. cbn [Z.leb Z.compare].
      intros g Hg. apply in_map_iff in Hg. destruct Hg as (k & <- & _).
      apply assign_value.
    + right. unfold forestNodes in Hp. apply in_flat_map in Hp.
      destruct Hp as (g & Hg & Hpg).
      apply in_map_iff in Hg. destruct Hg as (g' & <- & Hg').
      apply in_map_iff in Hg'. destruct Hg' as (k & <- & _).
      fold (subtree (assignDepthValues (cloneDepthLimited k 0) 2)) in Hpg.
      rewrite subtree_children, assign_children, clone_children in Hpg.
      cbn [Z.leb Z.compare map forestNodes flat_map] in Hpg.
      destruct Hpg as [<-|[]]. split; [apply assign_value|].
      rewrite assign_children, clone_children. reflexivity.
Qed.

(** X21. In the copy the overlay packs, [cloneDepthLimited(node, 2)] with
    the values of [assignDepthValues], every child has a smaller value than
    its parent: the root has 1000, its children 300, their children 80, and
    nothing lies deeper. *)
Theorem limited_values_decrease_with_depth (overlayNode p c : TreeNode) :
  In p (subtree (limited overlayNode)) -> In c (childrenOf p) ->
  exists vp vc,
    t_value p = Some vp /\ t_value c = Some vc /\ (vc < vp)%Q /\
    t_value (limited overlayNode) = Some 1000%Q /\
    height (limited overlayNode) <= 2.
Proof.
  intros Hp Hc.
  assert (Hh : height (limited overlayNode) <= 2).
  { unfold limited.
    assert (H : forall t k, height (assignDepthValues t k) = height t).
    { induction t as [t IH] using tree_children_ind. intros k.
      rewrite !height_children, assign_children.
      induction (childrenOf t) as [|x l IHl]; [reflexivity|].
      cbn [map fold_right]. rewrite (IH x (or_introl eq_refl)).
      rewrite IHl; [reflexivity|]. intros y Hy. apply IH. now right. }
    rewrite H. apply (clone_height overlayNode 2). }
  assert (Hroot : t_value (limited overlayNode) = Some 1000%Q)
    by (unfold limited; apply assign_value).
  destruct (limited_nodes overlayNode p Hp)
    as [(_ & Hv & Hk) | [(Hv & Hk) | (_ & Hnil)]].
  - exists 1000%Q, 300%Q. repeat split; auto. 
  - exists 300%Q, 80%Q. repeat split; auto.
  - rewrite Hnil in Hc. destruct Hc.
Qed.

(** X21 at the root of the copy made for the node Kusama and its child
    made from Bio. *)
Lemma limited_values_decrease_with_depth_witness :
  let p := limited RadialPacker.kusamaFocus in
  let c := assignDepthValues
             (cloneDepthLimited (nodeOf (rec "Bio" 2 (Some "Kusama"%string)) []) 1) 1 in
  In p (subtree (limited RadialPacker.kusamaFocus)) /\ In c (childrenOf p) /\
  exists vp vc,
    t_value p = Some vp /\ t_value c = Some vc /\ (vc < vp)%Q /\
    t_value (limited RadialPacker.kusamaFocus) = Some 1000%Q /\
    height (limited RadialPacker.kusamaFocus) <= 2.
Proof.
  intros p c.
  assert (H1 : In p (subtree (limited RadialPacker.kusamaFocus))) by (left; reflexivity).
  assert (H2 : In c (childrenOf p)) by (left; reflexivity).
  split; [exact H1|]. split; [exact H2|].
  exact (limited_values_decrease_with_depth RadialPacker.kusamaFocus p c H1 H2).
Defined.

End DepthLimitFacts.

(** * Properties of [buildGraphFromDataset] *)

Module FinanceGraphFacts.
Import FinanceGraph.

Lemma pairKey_sym (a b : string) : pairKey a b = pairKey b a.
Proof.
  unfold pairKey, String.ltb. rewrite (String.compare_antisym b a).
  destruct (String.compare a b) eqn:E; cbn [CompOpp]; try reflexivity.
  apply String.compare_eq_iff in E. now subst.
Qed.

Lemma keysFrom_app (us vs : list string) :
  forall i, keysFrom i (us ++ vs) = keysFrom i us ++ keysFrom (i + List.length us) vs.
Proof.
  induction us as [|u us IH]; intros i; cbn [app keysFrom List.length].
  - now rewrite Nat.add_0_r.
  - rewrite IH. replace (S i + List.length us) with (i + S (List.length us)) by lia.
    reflexivity.
Qed.

Lemma existsb_eqb_In (u : string) (l : list string) :
  existsb (String.eqb u) l = true <-> In u l.
Proof.
  rewrite existsb_exists. split.
  - intros (x & Hx & E). apply String.eqb_eq in E. now subst.
  - intros H. exists u. split; [exact H | apply String.eqb_refl].
Qed.

Lemma addEdge_ok (keys : list string) (st : EdgeLoop) (e : string * string) :
  loopOk keys st -> loopOk keys (addEdge keys st e).
Proof.
  intros (Hseen & Hnd & Hcnt & Hkeys & Hends). destruct e as [a b].
  unfold addEdge.
  destruct (hasNode keys a) eqn:Ha; [|repeat split; assumption].
  destruct (hasNode keys b) eqn:Hb; [|repeat split; assumption].
  cbn [negb orb].
  destruct (existsb (String.eqb (pairKey a b)) (seen st)) eqn:Hs;
    [repeat split; assumption|].
  assert (Hnew : ~ In (pairKey a b) (seen st)).
  { intros Hin. apply existsb_eqb_In in Hin. congruence. }
  unfold loopOk. cbn [seen counter added].
  split; [rewrite map_app, Hseen; reflexivity|]. split.
  { apply NoDup_app; [exact Hnd | repeat constructor; intros [] |].
    intros x Hx [<-|[]]. exact (Hnew Hx). }
  split; [rewrite length_app; cbn [List.length]; lia|]. split.
  - rewrite map_app, Hkeys, keysFrom_app. cbn [map keysFrom e_key Nat.add].
    rewrite Hcnt, Hseen, length_map. reflexivity.
  - apply Forall_app. split; [exact Hends|]. constructor; [|constructor].
    cbn [e_source e_target]. now split.
Qed.

Lemma buildEdges_ok (keys : list string) (edges : list (string * string)) :
  forall st, loopOk keys st -> loopOk keys (fold_left (addEdge keys) edges st).
Proof.
  induction edges as [|e edges IH]; intros st Hok; [exact Hok|].
  cbn [fold_left]. apply IH. now apply addEdge_ok.
Qed.

Lemma loopOk_start (keys : list string) : loopOk keys (mkEdgeLoop [] 0 []).
Proof. repeat split; constructor. Qed.

Lemma decimal_colonFree (d : Decimal.uint) : colonFree (NilEmpty.string_of_uint d).
Proof.
  induction d; cbn [NilEmpty.string_of_uint colonFree];
    try exact I; (split; [discriminate | assumption]).
Qed.

Lemma colon_split (d d' u u' : string) :
  colonFree d -> colonFree d' ->
  (d ++ ":" ++ u = d' ++ ":" ++ u')%string -> d = d'.
Proof.
  revert d'. induction d as [|c d IH]; intros [|c' d'] Hd Hd'; cbn; intros E.
  - reflexivity.
  - injection E as E _. destruct Hd' as [Hc _]. now elim Hc.
  - injection E as E _. destruct Hd as [Hc _]. now elim Hc.
  - injection E as -> E. f_equal.
    destruct Hd as [_ Hd]. destruct Hd' as [_ Hd']. now apply IH.
Qed.

Lemma edgeKey_index (i j : nat) (u u' : string) :
  edgeKey i u = edgeKey j u' -> i = j.
Proof.
  unfold edgeKey. cbn [String.append]. intros E. injection E as E.
  apply colon_split in E; try apply decimal_colonFree.
  apply Unsigned.to_uint_inj.
  assert (H := NilEmpty.usu (Nat.to_uint i)). rewrite E, NilEmpty.usu in H.
  now injection H.
Qed.

Lemma keysFrom_index (us : list string) (k : string) :
  forall i, In k (keysFrom i us) -> exists j u, i <= j /\ k = edgeKey j u.
Proof.
  induction us as [|u us IH]; intros i; cbn [keysFrom]; [intros []|].
  intros [<-|Hin].
  - exists i, u. split; [lia | reflexivity].
  - destruct (IH (S i) Hin) as (j & u' & Hj & ->). exists j, u'. split; [lia | reflexivity].
Qed.

Lemma keysFrom_NoDup (us : list string) : forall i, NoDup (keysFrom i us).
Proof.
  induction us as [|u us IH]; intros i; cbn [keysFrom]; constructor; [|apply IH].
  intros Hin. destruct (keysFrom_index _ _ _ Hin) as (j & u' & Hj & E).
  apply edgeKey_index in E. lia.
Qed.

Lemma pairs_apart (es : list Edge) :
  NoDup (map pairOf es) ->
  ForallOrdPairs (fun e1 e2 => pairOf e1 <> pairOf e2) es.
Proof.
  induction es as [|e es IH]; cbn [map]; intros Hnd; constructor.
  - apply NoDup_cons_iff in Hnd. destruct Hnd as [Hnot _].
    apply Forall_forall. intros e' He' E. apply Hnot. rewrite E. now apply in_map.
  - apply IH. now apply NoDup_cons_iff in Hnd.
Qed.

Lemma sameEnds_pairKey (a b a' b' : string) :
  sameEnds a b a' b' -> pairKey a b = pairKey a' b'.
Proof. intros [[-> ->]|[-> ->]]; [reflexivity | apply pairKey_sym]. Qed.

(** X22. The calls of [addUndirectedEdgeWithKey] made by
    [buildGraphFromDataset] meet what an undirected graph without parallel
    edges asks for: both ends are nodes of the graph, no two calls join the
    same two nodes (in either direction), and no two calls use the same
    key. *)
Theorem edges_meet_the_graph_preconditions
        (keys : list string) (edges : list (string * string)) :
  Forall (fun e => hasNode keys (e_source e) = true /\ hasNode keys (e_target e) = true)
         (buildEdges keys edges) /\
  ForallOrdPairs
    (fun e1 e2 => ~ sameEnds (e_source e1) (e_target e1) (e_source e2) (e_target e2))
    (buildEdges keys edges) /\
  NoDup (map e_key (buildEdges keys edges)).
Proof.
  unfold buildEdges.
  destruct (buildEdges_ok keys edges _ (loopOk_start keys))
    as (Hseen & Hnd & _ & Hkeys & Hends).
  split; [exact Hends|]. split.
  - rewrite Hseen in Hnd. apply pairs_apart in Hnd.
    revert Hnd. generalize (added (fold_left (addEdge keys) edges (mkEdgeLoop [] 0 []))).
    intros es. induction 1 as [|e es Hall _ IH]; constructor; [|exact IH].
    revert Hall. apply Forall_impl. intros e' Hne Hsame. apply Hne.
    now apply sameEnds_pairKey.
  - rewrite Hkeys. apply keysFrom_NoDup.
Qed.






Lemma addNodes_repeated (ks : list string) :
  forall g, ~ NoDup (g_nodes g ++ ks) -> NoDup (g_nodes g) -> addNodes ks g = None.
Proof.
  induction ks as [|k ks IH]; intros g Hno Hg; cbn [addNodes].
  - elim Hno. now rewrite app_nil_r.
  - unfold addNode. destruct (hasNode (g_nodes g) k) eqn:E; [reflexivity|].
    apply IH; cbn [g_nodes].
    + now rewrite <- app_assoc.
    + apply NoDup_app; [exact Hg | repeat constructor; intros [] |].
      intros x Hx [<-|[]].
      assert (H : hasNode (g_nodes g) k = true) by now apply existsb_eqb_In.
      congruence.
Qed.






(** A repeated node key makes [g.addNode] throw: no graph is returned. *)
Lemma buildGraphFromDataset_throws (keys : list string) (edges : list (string * string)) :
  ~ NoDup keys -> buildGraphFromDataset keys edges = None.
Proof.
  intros Hno. unfold buildGraphFromDataset.
  rewrite (addNodes_repeated keys (mkSimpleGraph [] [])); [reflexivity | exact Hno |].
  constructor.
Qed.



(** X24. The [size] attribute a node is added with is the dataset node's
    own [size] property whenever it has one; otherwise it is the size
    computed from the score, which is at least 7 and at most 24 whatever the
    score (missing, zero, negative or positive). *)
Theorem size_attribute_is_own_or_between_7_and_24
        {V : Type} (score : option R) (own : option V) :
  match sizeAttr score own with
  | inr v => own = Some v
  | inl x => own = None /\ (7 <= x <= 24)%R
  end.
Proof.
  destruct own as [v|]; [reflexivity|]. cbn [sizeAttr]. split; [reflexivity|].
  unfold nodeSize. destruct score as [s|]; [|lra].
  unfold RadialPacker.Rltb. destruct (Rlt_dec 0 s) as [Hs|_]; [|lra].
  assert (H10 : (0 < ln 10)%R).
  { rewrite <- ln_1. apply ln_increasing; lra. }
  assert (Hx : (ln 10 < ln (s * 1000000 + 10))%R) by (apply ln_increasing; lra).
  assert (Hratio : (1 < ln (s * 1000000 + 10) / ln 10)%R).
  { apply Rmult_lt_reg_r with (ln 10); [exact H10|].
    replace (ln (s * 1000000 + 10) / ln 10 * ln 10)%R
      with (ln (s * 1000000 + 10)) by (field; lra). lra. }
  split.
  - apply Rmin_case; lra.
  - pose proof (Rmin_l 18 (ln (s * 1000000 + 10) / ln 10)). lra.
Qed.

End FinanceGraphFacts.
